(** * Dense LU solver, sparse matrix product and cross-tangent blend

    A shallow embedding of the numerical kernels of the GoTools headers
    [LUDecomp_implementation.h] (Crout LU decomposition with scaled partial
    pivoting, forward and backward substitution, the combined solve) and
    [SolveCG.h] (compressed-sparse-row matrix product), together with the
    blend documented in [CrossTangentOffset.h].

    Numbers: the C++ code computes on [double].  The kernels are embedded
    once, over an arbitrary arithmetic [R : arith] (a carrier with the
    operations and the two comparisons the code uses), and read at two
    instances: [binary64], the IEEE 754 double precision numbers of the
    machine with their rounding, infinities and NaN, and [exact F], the
    arithmetic of an ordered field [F] without rounding.  A theorem over
    [R : arith] holds of both; a theorem over [F : realFieldType] is a
    statement on exact arithmetic.  Arrays are sequences read with [nth] and
    written with [set_nth]; an access outside an array is undefined
    behaviour in C++, so the theorems on the operations carry the size
    hypotheses ([square], [size], [csr_wf]) under which the accesses are in
    range. *)

From mathcomp Require Import ssreflect ssrfun ssrbool eqtype ssrnat seq.
From mathcomp Require Import choice fintype finfun bigop perm order.
From mathcomp Require Import ssralg ssrnum ssrint rat matrix mxalgebra.
From Stdlib Require Import PrimFloat.

Set Implicit Arguments.
Unset Strict Implicit.
Unset Printing Implicit Defensive.

Import GRing.Theory Num.Theory Order.Theory.
Local Open Scope ring_scope.

(** ** Arithmetic

    What the kernels use of [double]: the constants [0.0] and [1.0], the
    four operations, [fabs], and the comparisons [<] and [==]. *)

Record arith : Type := Arith {
  num :> Type;
  n_zero : num;
  n_one : num;
  n_add : num -> num -> num;
  n_sub : num -> num -> num;
  n_mul : num -> num -> num;
  n_div : num -> num -> num;
  n_abs : num -> num;
  n_lt : num -> num -> bool;
  n_eq : num -> num -> bool
}.

Declare Scope arith_scope.
Delimit Scope arith_scope with a.

Notation "0" := (n_zero _) : arith_scope.
Notation "1" := (n_one _) : arith_scope.
Notation "x + y" := (n_add x y) : arith_scope.
Notation "x - y" := (n_sub x y) : arith_scope.
Notation "x * y" := (n_mul x y) : arith_scope.
Notation "x / y" := (n_div x y) : arith_scope.
Notation "`| x |" := (n_abs x) : arith_scope.
Notation "x < y" := (n_lt x y) : arith_scope.

(** Exact arithmetic in an ordered field. *)
Definition exact (F : realFieldType) : arith :=
  Arith (0 : F) 1 +%R (fun x y => x - y) *%R (fun x y => x / y) Num.norm
        (fun x y => x < y) (fun x y => x == y).

Coercion exact : realFieldType >-> arith.
Canonical exact.

(** The double precision numbers of the machine. *)
Definition binary64 : arith :=
  Arith 0%float 1%float PrimFloat.add PrimFloat.sub PrimFloat.mul
        PrimFloat.div PrimFloat.abs PrimFloat.ltb PrimFloat.eqb.

Canonical binary64.

(** ** Exceptions

    [LUDecomp] throws [std::runtime_error] at two places; the two messages
    are the two constructors. *)

Variant lu_error : Type :=
  | NullRow   (* "Unable to LU decompose matrix.  Null row detected." *)
  | Singular. (* "Unable to LU decompose singular matrix." *)

Variant result (T : Type) : Type :=
  | Ok of T
  | Err of lu_error.

Arguments Err {T} _.

(** A [for] loop whose body may throw: the first exception ends the loop. *)
Fixpoint for_each (S : Type) (body : S -> nat -> result S) (s : S)
    (ks : seq nat) : result S :=
  match ks with
  | [::] => Ok s
  | k :: ks' =>
      match body s k with
      | Ok s' => for_each body s' ks'
      | Err e => Err e
      end
  end.

(** [std::swap(a[i], a[j])] on one array. *)
Definition swap_nth (T : Type) (x0 : T) (a : seq T) (i j : nat) : seq T :=
  set_nth x0 (set_nth x0 a i (nth x0 a j)) j (nth x0 a i).

Section Dense.

Variable R : arith.

Local Open Scope arith_scope.

(** ** Matrices: [mat[i][j]] on a [SquareMatrix] *)

Definition matrix : Type := seq (seq R).

Definition mget (mat : matrix) (i j : nat) : R := nth 0 (nth [::] mat i) j.

Definition mset (mat : matrix) (i j : nat) (v : R) : matrix :=
  set_nth [::] mat i (set_nth 0 (nth [::] mat i) j v).

(** [num_rows] rows of [num_rows] entries each. *)
Definition square (n : nat) (mat : matrix) : bool :=
  (size mat == n) && all (fun row => size row == n) mat.

(** ** LUDecomp *)

(** The values [LUDecomp] leaves behind: the matrix (decomposed in place),
    the out-parameters [perm] and [parity], and the local [scaling]. *)
Record lu_state : Type := LUState {
  lu_mat : matrix;
  lu_perm : seq nat;
  lu_scaling : seq R;
  lu_parity : bool
}.

(** Line 54, [for (int k = 0; k < num_rows; perm[k] = k++);], commented
    "filling out perm with sequence 0, 1,...".  The right operand of an
    assignment is evaluated before the left one: [k++] yields the old [k]
    and increments it, and the store goes to [perm[k + 1]].  So the turn
    for [k] writes [k] on [perm[k + 1]]; [perm[0]] is never written, and the
    last turn writes on [perm[num_rows]], past the [num_rows] entries of the
    array.  The array is the one [LUsolveSystem] passes, the fresh
    [std::vector<int> permutation(num_unknowns)], all zero; the store past
    its end is not part of it. *)
Definition fill_perm (num_rows : nat) : seq nat :=
  take num_rows
       (foldl (fun perm k => set_nth 0%N perm k.+1 k) (nseq num_rows 0%N)
              (iota 0 num_rows)).

(** Lines 59-64: the inner loop of the scaling pass on row [i]. *)
Definition row_scan (mat : matrix) (num_cols i : nat) (scaling : seq R)
    : seq R :=
  foldl (fun sc j =>
           let temp := `|mget mat i j| in
           if nth 0 sc i < temp then set_nth 0 sc i temp else sc)
        scaling (iota 0 num_cols).

(** Lines 59-69: one turn of the scaling loop, on row [i]. *)
Definition scaling_row (mat : matrix) (num_rows : nat) (scaling : seq R)
    (i : nat) : result (seq R) :=
  let sc1 := row_scan mat num_rows i scaling in
  if n_eq (nth 0 sc1 i) 0 then Err NullRow
  else Ok (set_nth 0 sc1 i (1 / nth 0 sc1 i)).

(** Lines 57-70: scaling factor of each row, or the null-row exception. *)
Definition scaling_pass (mat : matrix) (num_rows : nat) : result (seq R) :=
  for_each (scaling_row mat num_rows) (nseq num_rows 0) (iota 0 num_rows).

(** Lines 76-79 and 87-90: [sum = mat[i][j]; for k < kmax: sum -= ...]. *)
Definition inner_sum (mat : matrix) (i j kmax : nat) : R :=
  foldl (fun sum k => sum - mget mat i k * mget mat k j) (mget mat i j)
        (iota 0 kmax).

(** Lines 75-81: elements of the upper matrix on column [j]. *)
Definition upper_column (mat : matrix) (j : nat) : matrix :=
  foldl (fun m i => mset m i j (inner_sum m i j i)) mat (iota 0 j).

(** Lines 87-96: one turn of the pivot loop, on row [i]; the accumulator is
    the matrix, [pivot_val] and [pivot_row]. *)
Definition pivot_step (scaling : seq R) (j : nat) (acc : matrix * R * nat)
    (i : nat) : matrix * R * nat :=
  let: (m, pivot_val, pivot_row) := acc in
  let sum := inner_sum m i j j in
  let m' := mset m i j sum in
  let temp := `|sum * nth 0 scaling i| in
  if pivot_val < temp then (m', temp, i) else (m', pivot_val, pivot_row).

(** The pivot loop on the rows [j .. j+t-1]. *)
Definition pivot_loop (mat : matrix) (scaling : seq R) (j t : nat)
    : matrix * R * nat :=
  foldl (pivot_step scaling j) (mat, 0, j) (iota j t).

(** Lines 84-97: rest of column [j] and the pivot search, rows
    [j .. num_rows-1]. *)
Definition pivot_search (mat : matrix) (scaling : seq R) (num_rows j : nat)
    : matrix * R * nat :=
  pivot_loop mat scaling j (num_rows - j).

(** Lines 105-107: the entries of two rows exchanged one by one. *)
Definition swap_rows (mat : matrix) (num_cols r1 r2 : nat) : matrix :=
  foldl (fun m k =>
           let a := mget m r1 k in
           let b := mget m r2 k in
           mset (mset m r1 k b) r2 k a)
        mat (iota 0 num_cols).

(** Lines 104-111: permute rows to position the pivot. *)
Definition permute_rows (num_rows : nat) (st : lu_state) (pivot_row j : nat)
    : lu_state :=
  if pivot_row != j then
    LUState (swap_rows (lu_mat st) num_rows pivot_row j)
            (swap_nth 0%N (lu_perm st) j pivot_row)
            (swap_nth 0 (lu_scaling st) j pivot_row)
            (~~ lu_parity st)
  else st.

(** Lines 113-119: dividing the lower matrix elements by the pivot. *)
Definition divide_lower (mat : matrix) (num_rows j : nat) : matrix :=
  if (j < num_rows - 1)%N then
    let pivot_val := 1 / mget mat j j in
    foldl (fun m i => mset m i j (mget m i j * pivot_val)) mat
          (iota j.+1 (num_rows - j.+1))
  else mat.

(** Lines 73-120: one turn of the outer loop of Crout's algorithm. *)
Definition crout_column (num_rows : nat) (st : lu_state) (j : nat)
    : result lu_state :=
  let m1 := upper_column (lu_mat st) j in
  let: (m2, _, pivot_row) := pivot_search m1 (lu_scaling st) num_rows j in
  if n_eq (mget m2 pivot_row j) 0 then Err Singular
  else
    let st' :=
      permute_rows num_rows
        (LUState m2 (lu_perm st) (lu_scaling st) (lu_parity st))
        pivot_row j in
    Ok (LUState (divide_lower (lu_mat st') num_rows j)
                (lu_perm st') (lu_scaling st') (lu_parity st')).

(** The state on entry to Crout's algorithm (lines 51-70). *)
Definition lu_init (mat : matrix) (num_rows : nat) : result lu_state :=
  let parity := true in
  let perm := fill_perm num_rows in
  match scaling_pass mat num_rows with
  | Ok scaling => Ok (LUState mat perm scaling parity)
  | Err e => Err e
  end.

(** The state after the columns [0 .. j-1] have been processed. *)
Definition crout_upto (mat : matrix) (num_rows j : nat) : result lu_state :=
  match lu_init mat num_rows with
  | Ok st => for_each (crout_column num_rows) st (iota 0 j)
  | Err e => Err e
  end.

Definition LUDecomp (mat : matrix) (num_rows : nat) : result lu_state :=
  crout_upto mat num_rows num_rows.

(** ** Substitution *)

(** Lines 149-151 and 177-179: [for j in js: x[i] -= A[i][j] * x[j]]. *)
Definition eliminate (A : matrix) (i : nat) (x : seq R) (js : seq nat)
    : seq R :=
  foldl (fun x j => set_nth 0 x i (nth 0 x i - mget A i j * nth 0 x j)) x js.

(** Lines 149-151: row [i] of the forward substitution. *)
Definition forward_row (A : matrix) (x : seq R) (i : nat) : seq R :=
  eliminate A i x (iota 0 i).

(** Lines 145-153, scalar right-hand side. *)
Definition forwardSubstitution (A : matrix) (x : seq R) (num_unknowns : nat)
    : seq R :=
  foldl (forward_row A) x (iota 1 (num_unknowns - 1)).

(** Lines 177-180: row [i] of the backward substitution. *)
Definition backward_row (A : matrix) (num_unknowns : nat) (x : seq R)
    (i : nat) : seq R :=
  let x1 := eliminate A i x (iota i.+1 (num_unknowns - i.+1)) in
  set_nth 0 x1 i (nth 0 x1 i / mget A i i).

(** Lines 172-182, scalar right-hand side; [i] runs from
    [num_unknowns - 2] down to [0]. *)
Definition backwardSubstitution (A : matrix) (x : seq R) (num_unknowns : nat)
    : seq R :=
  let last := (num_unknowns - 1)%N in
  let x0 := set_nth 0 x last (nth 0 x last / mget A last last) in
  foldl (backward_row A num_unknowns) x0 (rev (iota 0 (num_unknowns - 1))).

(** An array of [std::vector<double>]: [x[i][dd]]. *)
Definition vget (x : seq (seq R)) (i dd : nat) : R := mget x i dd.
Definition vset (x : seq (seq R)) (i dd : nat) (v : R) : seq (seq R) :=
  mset x i dd v.

(** Lines 163-165 and 195-197:
    [for dd < dim: x[i][dd] -= A[i][j] * x[j][dd]]. *)
Definition axpy_vec (A : matrix) (dim i : nat) (x : seq (seq R)) (j : nat)
    : seq (seq R) :=
  foldl (fun x dd => vset x i dd (vget x i dd - mget A i j * vget x j dd))
        x (iota 0 dim).

(** Lines 190-192 and 199-201: [for dd < dim: x[i][dd] /= A[i][i]]. *)
Definition divide_vec (A : matrix) (dim i : nat) (x : seq (seq R))
    : seq (seq R) :=
  foldl (fun x dd => vset x i dd (vget x i dd / mget A i i)) x (iota 0 dim).

(** Lines 157-168, vector-valued right-hand side. *)
Definition forwardSubstitution_vec (A : matrix) (x : seq (seq R))
    (num_unknowns : nat) : seq (seq R) :=
  let dim := size (nth [::] x 0) in
  foldl (fun x i => foldl (axpy_vec A dim i) x (iota 0 i))
        x (iota 1 (num_unknowns - 1)).

(** Lines 186-203, vector-valued right-hand side. *)
Definition backwardSubstitution_vec (A : matrix) (x : seq (seq R))
    (num_unknowns : nat) : seq (seq R) :=
  let dim := size (nth [::] x 0) in
  let last := (num_unknowns - 1)%N in
  let x0 := divide_vec A dim last x in
  foldl (fun x i =>
           let x1 :=
             foldl (axpy_vec A dim i) x (iota i.+1 (num_unknowns - i.+1)) in
           divide_vec A dim i x1)
        x0 (rev (iota 0 (num_unknowns - 1))).

(** ** LUsolveSystem (lines 126-141)

    [vec_old] is a copy of the first [num_unknowns] entries of [vec];
    [swap(vec[i], vec_old[permutation[i]])] writes both arrays. *)
Definition permute_step (perm : seq nat) (acc : seq R * seq R) (i : nat)
    : seq R * seq R :=
  let: (vec, vec_old) := acc in
  let p := nth 0%N perm i in
  (set_nth 0 vec i (nth 0 vec_old p), set_nth 0 vec_old p (nth 0 vec i)).

Definition permute_rhs (perm : seq nat) (vec : seq R) (num_unknowns : nat)
    : seq R * seq R :=
  foldl (permute_step perm) (vec, take num_unknowns vec) (iota 0 num_unknowns).

Definition LUsolveSystem (A : matrix) (num_unknowns : nat) (vec : seq R)
    : result (matrix * seq R) :=
  match LUDecomp A num_unknowns with
  | Ok st =>
      let vec1 := (permute_rhs (lu_perm st) vec num_unknowns).1 in
      let vec2 := forwardSubstitution (lu_mat st) vec1 num_unknowns in
      let vec3 := backwardSubstitution (lu_mat st) vec2 num_unknowns in
      Ok (lu_mat st, vec3)
  | Err e => Err e
  end.

(** ** LUsolveSystem on an array of vectors

    [LUsolveSystem] is a template in the element type [T] of the right-hand
    side.  With [T = std::vector<double>] lines 135-138 copy and swap whole
    vectors, and the calls of lines 139-140 are the overloads of the
    substitutions for [std::vector<double>*]. *)

Definition permute_step_vec (perm : seq nat)
    (acc : seq (seq R) * seq (seq R)) (i : nat) : seq (seq R) * seq (seq R) :=
  let: (vec, vec_old) := acc in
  let p := nth 0%N perm i in
  (set_nth [::] vec i (nth [::] vec_old p),
   set_nth [::] vec_old p (nth [::] vec i)).

Definition permute_rhs_vec (perm : seq nat) (vec : seq (seq R))
    (num_unknowns : nat) : seq (seq R) * seq (seq R) :=
  foldl (permute_step_vec perm) (vec, take num_unknowns vec)
        (iota 0 num_unknowns).

Definition LUsolveSystem_vec (A : matrix) (num_unknowns : nat)
    (vec : seq (seq R)) : result (matrix * seq (seq R)) :=
  match LUDecomp A num_unknowns with
  | Ok st =>
      let vec1 := (permute_rhs_vec (lu_perm st) vec num_unknowns).1 in
      let vec2 := forwardSubstitution_vec (lu_mat st) vec1 num_unknowns in
      let vec3 := backwardSubstitution_vec (lu_mat st) vec2 num_unknowns in
      Ok (lu_mat st, vec3)
  | Err e => Err e
  end.

End Dense.

(** ** SolveCG: the sparse matrix and its product (SolveCG.h) *)

Section Sparse.

Variable R : arith.

Local Open Scope arith_scope.

(** The data members of class [SolveCG]. *)
Record SolveCG : Type := MkSolveCG {
  A_ : seq R;              (* the non-zero entries of the left side *)
  nn_ : nat;               (* number of unknowns *)
  np_ : nat;               (* number of non-zero entries *)
  irow_ : seq nat;         (* index in A_ and jcol_ of the first non-zero
                              of each of the nn_ rows *)
  jcol_ : seq nat;         (* the np_ column indexes of the non-zeros *)
  tolerance_ : R;
  max_iterations_ : int;
  M_ : seq R;              (* preconditioning matrix *)
  omega_ : R;              (* relaxation parameter *)
  diagonal_ : seq nat;     (* index of the diagonal elements in jcol_ *)
  diagset_ : int
}.

(** Lines 304-307 of [matrixProduct]: one turn of the outer loop, row [kj]. *)
Definition product_row (s : SolveCG) (sx sy : seq R) (kj : nat) : seq R :=
  let lo := nth 0%N (irow_ s) kj in
  let hi := nth 0%N (irow_ s) kj.+1 in
  foldl (fun sy ki =>
           set_nth 0 sy kj
             (nth 0 sy kj + nth 0 (A_ s) ki * nth 0 sx (nth 0%N (jcol_ s) ki)))
        (set_nth 0 sy kj 0) (iota lo (hi - lo)).

(** [SolveCG::matrixProduct]: [sy = A_ * sx]; [sx] and [sy] are two
    distinct arrays. *)
Definition matrixProduct (s : SolveCG) (sx sy : seq R) : seq R :=
  foldl (product_row s sx) sy (iota 0 (nn_ s)).

(** The stored entries of row [k], each with its column index, in storage
    order. *)
Definition row_entries (s : SolveCG) (k : nat) : seq (R * nat) :=
  [seq (nth 0 (A_ s) ki, nth 0%N (jcol_ s) ki)
  | ki <- iota (nth 0%N (irow_ s) k)
               (nth 0%N (irow_ s) k.+1 - nth 0%N (irow_ s) k)].

(** The arrays of the sparse form fit together: [nn_ + 1] row starts, none
    beyond the [np_] stored entries, and every column index below [nn_]. *)
Definition csr_wf (s : SolveCG) : bool :=
  [&& size (irow_ s) == (nn_ s).+1, size (A_ s) == np_ s,
      size (jcol_ s) == np_ s,
      all (fun r => (r <= np_ s)%N) (irow_ s)
    & all (fun j => (j < nn_ s)%N) (jcol_ s)].

(** The entries [es'] are the entries [es] in another order: those on the
    indexes of [es], taken in the order [p]. *)
Definition reordered (T : Type) (d : T) (es es' : seq T) : Prop :=
  exists2 p : seq nat,
    perm_eq p (iota 0 (size es)) & es' = [seq nth d es i | i <- p].

(** The products of the entries [es] of a row by the numbers of [sx] on
    their columns, added one after the other to [0.0]. *)
Definition accumulate (sx : seq R) (es : seq (R * nat)) : R :=
  foldl (fun acc e => acc + e.1 * nth 0 sx e.2) 0 es.

End Sparse.

(** ** Vocabulary on the run of the decomposition, for any arithmetic *)

Section RunSpec.

Variable R : arith.
Implicit Types (m A : matrix R) (sc xs : seq R) (st : lu_state R).

Local Open Scope arith_scope.

(** A result that is not an exception. *)
Definition is_ok (T : Type) (r : result T) : bool :=
  if r is Ok _ then true else false.

Definition get_ok (T : Type) (d : T) (r : result T) : T :=
  if r is Ok v then v else d.

Definition error_of (T : Type) (r : result T) : option lu_error :=
  if r is Err e then Some e else None.

(** The entry the singularity test of column [j] looks at (line 99). *)
Definition selected_pivot (n : nat) st (j : nat) : R :=
  let m1 := upper_column (lu_mat st) j in
  let: (m2, _, pivot_row) := pivot_search m1 (lu_scaling st) n j in
  mget m2 pivot_row j.

(** The pivot row the search of column [j] selects (lines 85-97). *)
Definition pivot_row_of (n : nat) st (j : nat) : nat :=
  (pivot_search (upper_column (lu_mat st) j) (lu_scaling st) n j).2.

(** The matrix when the pivot search of column [j] ends. *)
Definition pivot_matrix (n : nat) st (j : nat) : matrix R :=
  (pivot_search (upper_column (lu_mat st) j) (lu_scaling st) n j).1.1.

(** The pivot row that the decomposition of [A] selects in column [j]. *)
Definition pivot_of A (n j : nat) : nat :=
  pivot_row_of n (get_ok (LUState [::] [::] [::] true) (crout_upto A n j)) j.

(** The order of the rows after the columns before [j]: the input row that
    stands on each row of the matrix.  It starts as 0, 1, ... and follows
    the exchanges of rows of lines 104-111; it is what line 54 and line 109
    are meant to keep in [perm]. *)
Fixpoint row_order A (n j : nat) : seq nat :=
  if j is j'.+1 then
    let p := row_order A n j' in
    let pr := pivot_of A n j' in
    if pr != j' then swap_nth 0%N p j' pr else p
  else iota 0 n.

(** The state [st] with [p] for [perm]. *)
Definition with_perm (p : seq nat) st : lu_state R :=
  LUState (lu_mat st) p (lu_scaling st) (lu_parity st).

(** What the scan of lines 59-64 leaves in [scaling[i]]: the absolute
    entries of row [i] compared one after the other with the largest so
    far. *)
Definition row_peak A (n i : nat) : R :=
  foldl (fun s c => if s < `|mget A i c| then `|mget A i c| else s)
        0 (iota 0 n).

(** On the numbers [xs] and [0], the comparison [<] is a strict order in
    which being incomparable is transitive, and no number of [xs] is below
    [0]: what holds of absolute values that are numbers (of any numbers of
    an ordered field, of the doubles other than NaN). *)
Definition ordered xs : bool :=
  let ys := 0 :: xs in
  [&& all (fun x => ~~ (x < 0)) xs,
      all (fun x => ~~ (x < x)) ys
    & all (fun x => all (fun y => all (fun z =>
        ((x < y) && (y < z) ==> (x < z)) &&
        ((x < z) ==> (x < y) || (y < z))) ys) ys) ys].

(** The search of lines 86-96 on its own: the numbers [key i] of the rows
    [j .. j+t-1] compared one after the other with the largest so far, and
    the row of the largest. *)
Definition first_max (key : nat -> R) (j t : nat) : R * nat :=
  foldl (fun acc i => if acc.1 < key i then (key i, i) else acc)
        (0, j) (iota j t).

(** The transposition a row swap of rows [j] and [pr] applies. *)
Definition tr2 (j pr a : nat) : nat :=
  if a == j then pr else if a == pr then j else a.

(** The exchanges of the columns [j .. j+t-1] taken together: the row that
    stands on row [i] after them stood on row [later_exchanges A n t j i]
    before them. *)
Fixpoint later_exchanges A (n t j i : nat) : nat :=
  if t is t'.+1 then tr2 j (pivot_of A n j) (later_exchanges A n t' j.+1 i)
  else i.

(** The rows of [A] in the order [p]: row [i] is row [p[i]] of [A]. *)
Definition permute_matrix (p : seq nat) A (n : nat) : matrix R :=
  [seq nth [::] A (nth 0%N p i) | i <- iota 0 n].

(** Component [dd] of an array of vectors. *)
Definition component (dd : nat) (x : seq (seq R)) : seq R :=
  [seq nth 0 v dd | v <- x].

(** [n] vectors of [dim] numbers each. *)
Definition rows_ok (n dim : nat) (x : seq (seq R)) : Prop :=
  size x = n /\ all (fun v => size v == dim) x.

(** [y] has [n] vectors and agrees with [x] on the components from [dim]
    on. *)
Definition beyond (n dim : nat) (x y : seq (seq R)) : Prop :=
  size y = n /\ forall r e, (dim <= e)%N -> vget y r e = vget x r e.

(** [A] holds at least [n] rows of at least [n] entries each. *)
Definition covers (n : nat) A : bool :=
  (n <= size A)%N && all (fun row => (n <= size row)%N) (take n A).

End RunSpec.

(** ** Specification vocabulary for the dense solver, exact arithmetic *)

Section DenseSpec.

Variable F : realFieldType.
Implicit Types (m A : matrix F) (x z sc : seq F) (st : lu_state F).

(** Largest absolute entry of row [i]. *)
Definition row_max A (n i : nat) : F :=
  foldl (fun s j => Num.max s `|mget A i j|) 0 (iota 0 n).

(** Row [i] is entirely zero. *)
Definition null_row A (n i : nat) : bool :=
  all (fun j => mget A i j == 0) (iota 0 n).

(** Entry (i, j) eliminated against the columns before [j]. *)
Definition elim_val m (i j : nat) : F :=
  mget m i j - \sum_(0 <= k < j) mget m i k * mget m k j.

(** The quantity the pivot search compares on row [i]. *)
Definition pivot_key m sc (j i : nat) : F := `|elim_val m i j * nth 0 sc i|.

(** The unit lower triangular factor read from the strict lower triangle,
    the upper triangular factor read from the upper triangle with the
    diagonal, and an entry of their product. *)
Definition Lent m (i k : nat) : F :=
  if (k < i)%N then mget m i k else if k == i then 1 else 0.

Definition Uent m (k c : nat) : F := if (k <= c)%N then mget m k c else 0.

Definition LUprod m (n i c : nat) : F :=
  \sum_(0 <= k < n) Lent m i k * Uent m k c.

Definition Lmx m (n : nat) : 'M[F]_n := \matrix_(i < n, k < n) Lent m i k.

Definition Umx m (n : nat) : 'M[F]_n := \matrix_(k < n, c < n) Uent m k c.

(** The matrix [A] itself, its rows in the order recorded by [perm], and
    the permutation matrix of [perm]: row [i] selects row [perm[i]]. *)
Definition mx_of A (n : nat) : 'M[F]_n := \matrix_(i < n, c < n) mget A i c.

Definition PAmx A (perm : seq nat) (n : nat) : 'M[F]_n :=
  \matrix_(i < n, c < n) mget A (nth 0%N perm i) c.

Definition Pmx (perm : seq nat) (n : nat) : 'M[F]_n :=
  \matrix_(i < n, r < n) ((r : nat) == nth 0%N perm i)%:R.

(** The divisors of [backwardSubstitution], in the order of the divisions
    (lines 175 and 180). *)
Definition backward_divisors m (n : nat) : seq F :=
  mget m (n - 1) (n - 1) :: [seq mget m i i | i <- rev (iota 0 (n - 1))].

(** A vector as a column matrix. *)
Definition cv x (n : nat) : 'cV[F]_n := \col_(i < n) nth 0 x i.

(** The state of the decomposition when the columns before [j] are done;
    the [perm] of [st] is the order of its rows. *)
Record lu_inv A (n j : nat) st : Prop := LuInv {
  inv_size : size (lu_perm st) = n;
  inv_uniq : uniq (lu_perm st);
  inv_range : forall i, (i < n)%N -> (nth 0%N (lu_perm st) i < n)%N;
  inv_cols : forall i c, (i < n)%N -> (j <= c < n)%N ->
    mget (lu_mat st) i c = mget A (nth 0%N (lu_perm st) i) c;
  inv_LU : forall i c, (i < n)%N -> (c < j)%N ->
    LUprod (lu_mat st) n i c = mget A (nth 0%N (lu_perm st) i) c;
  inv_diag : forall c, (c < j)%N -> mget (lu_mat st) c c != 0;
  inv_scal : forall i, (i < n)%N ->
    nth 0 (lu_scaling st) i = 1 / row_max A n (nth 0%N (lu_perm st) i);
  inv_nonnull : forall i, (i < n)%N -> ~~ null_row A n i;
  inv_det : \det (PAmx A (lu_perm st) n) =
            (if lu_parity st then 1 else -1) * \det (mx_of A n)
}.

(** Backward substitution: the rows [s .. n-1] of [z] are solved, the rows
    before [s] still hold the right-hand side [x]. *)
Definition bs_inv A (n : nat) x z (s : nat) : Prop :=
  forall a, nth 0 z a =
    if (s <= a < n)%N then
      (nth 0 x a - \sum_(a.+1 <= j < n) mget A a j * nth 0 z j) / mget A a a
    else nth 0 x a.

(** The product of the unit lower triangular part of [A] (the strict lower
    triangle, with ones on the diagonal) by [y], and of the upper triangular
    part of [A] (with the diagonal) by [z]. *)
Definition lower_apply A y (n : nat) : seq F :=
  [seq nth 0 y a + \sum_(0 <= j < a) mget A a j * nth 0 y j | a <- iota 0 n].

Definition upper_apply A z (n : nat) : seq F :=
  [seq \sum_(a <= j < n) mget A a j * nth 0 z j | a <- iota 0 n].

(** The entries below the diagonal are zero; the diagonal entries are not. *)
Definition upper_triangular (n : nat) A : bool :=
  all (fun i => all (fun c => mget A i c == 0) (iota 0 i)) (iota 0 n).

Definition nonzero_diag (n : nat) A : bool :=
  all (fun i => mget A i i != 0) (iota 0 n).

(** The decomposition of [A] and that of its rows taken in the order the
    exchanges leave them in, after [j] columns: the second has exchanged
    nothing, and its rows are those of the first up to the exchanges still
    to come. *)
Definition sorted_run A (n j : nat) st (st' : lu_state F) : Prop :=
  [/\ lu_perm st' = fill_perm n, lu_parity st' = true
    & forall i c, (i < n)%N -> (c < n)%N ->
        mget (lu_mat st') i c
        = mget (lu_mat st) (later_exchanges A n (n - j) j i) c].

(** The stored-entry sum of row [k] of a sparse matrix. *)
Definition row_sum (s : SolveCG F) (sx : seq F) (k : nat) : F :=
  \sum_(nth 0%N (irow_ s) k <= ki < nth 0%N (irow_ s) k.+1)
     nth 0 (A_ s) ki * nth 0 sx (nth 0%N (jcol_ s) ki).

End DenseSpec.

Arguments Pmx {F} perm n.

(** ** SolveCG::attachMatrix *)

Section Attach.

Variable F : realFieldType.

(** Parameter types of a C++ declaration. *)
Inductive ctype : Type :=
  | Tdouble
  | Tint
  | Tpointer of ctype.

(** [void attachMatrix(double *gmat, int nn);] *)
Definition attachMatrix_parameters : seq ctype := [:: Tpointer Tdouble; Tint].

(** What a declaration taking the matrix in sparse form would list:
    values, column indices, row starts, size. *)
Definition sparse_triple_parameters : seq ctype :=
  [:: Tpointer Tdouble; Tpointer Tint; Tpointer Tint; Tint].

(** Entry (row [k], column [j]) of the [nn*nn] array [gmat], "stored
    columnwise". *)
Definition dense_entry (gmat : seq F) (nn k j : nat) : F :=
  nth 0 gmat (j * nn + k).

Definition row_nonzeros (gmat : seq F) (nn k : nat) : seq (F * nat) :=
  [seq (dense_entry gmat nn k j, j)
  | j <- iota 0 nn & dense_entry gmat nn k j != 0].

Definition attach_row (gmat : seq F) (nn : nat)
    (acc : seq F * seq nat * seq nat) (k : nat) : seq F * seq nat * seq nat :=
  let: (a, jcol, irow) := acc in
  let nz := row_nonzeros gmat nn k in
  (a ++ [seq e.1 | e <- nz], jcol ++ [seq e.2 | e <- nz], rcons irow (size a)).

(** The slots of row [k] in the arrays [a] and [jcol], when [irow] holds the
    row starts of the rows before [t] and row [t] would start at [size a]. *)
Definition slot_entries (a : seq F) (jcol irow : seq nat) (t k : nat)
    : seq (F * nat) :=
  let lo := nth 0%N irow k in
  let hi := if (k.+1 < t)%N then nth 0%N irow k.+1 else size a in
  [seq (nth 0 a ki, nth 0%N jcol ki) | ki <- iota lo (hi - lo)].

(** Modelled from the spec: the body of [SolveCG::attachMatrix] is not among
    the sources, only its declaration and documentation in the header: the
    argument [gmat] is "the system matrix for the linear equations.  Size is
    nn*nn, stored columnwise", and the operation "represent[s] the matrix as
    a sparse matrix" in the members [A_], [irow_], [jcol_], [nn_], [np_] as
    their comments describe them (the non-zeros row by row, the index of the
    first non-zero of each row, the column index of each non-zero).  The
    members of the solver that do not describe the matrix are kept. *)
Definition attachMatrix (s : SolveCG F) (gmat : seq F) (nn : nat)
    : SolveCG F :=
  let: (a, jcol, irow) :=
    foldl (attach_row gmat nn) ([::], [::], [::]) (iota 0 nn) in
  MkSolveCG a nn (size a) (rcons irow (size a)) jcol
            (tolerance_ s) (max_iterations_ s) (M_ s) (omega_ s)
            (diagonal_ s) (diagset_ s).

End Attach.

(** ** CrossTangentOffset: the blended cross tangent *)

Section CrossTangent.

Variable F : realFieldType.

(** Modelled from the spec: [Point.h] is not among the sources; a point is
    its sequence of coordinates, added and scaled componentwise (the "opaque
    point/vector type with componentwise arithmetic"). *)
Definition Point : Type := seq F.

Definition point_add (p q : Point) : Point := [seq pq.1 + pq.2 | pq <- zip p q].

Definition point_scale (a : F) (p : Point) : Point := [seq a * c | c <- p].

(** A curve, through [ParamCurve::point(tpar)]. *)
Definition curve : Type := F -> Point.

Definition null_curve : curve := fun _ => [::].

(** The data members of class [CrossTangentOffset]; [tangcurves_] and
    [blends_] "will always have 2 elements". *)
Record CrossTangentOffset : Type := MkCrossTangentOffset {
  poscurve_ : curve;
  tangcurves_ : seq curve;
  blends_ : seq curve;
  length_ : curve
}.

(** A blending function is a curve of dimension 1: its value is the first
    coordinate. *)
Definition blend_value (c : CrossTangentOffset) (i : nat) (t : F) : F :=
  nth 0 (nth null_curve (blends_ c) i t) 0.

Definition tangent_value (c : CrossTangentOffset) (i : nat) (t : F) : Point :=
  nth null_curve (tangcurves_ c) i t.

(** Modelled from the spec: the body of [CrossTangentOffset::evalcrtan] is
    not among the sources, only its declaration; the class documentation
    says "the two cross-tangent curves are evaluated at the specified
    parameter, multiplied by their respective blending functions and added
    together", and the spec calls the result "the weighted sum". *)
Definition evalcrtan (c : CrossTangentOffset) (t : F) : Point :=
  point_add (point_scale (blend_value c 0 t) (tangent_value c 0 t))
            (point_scale (blend_value c 1 t) (tangent_value c 1 t)).

End CrossTangent.

Arguments null_curve {F} _.

(** ** Concrete inputs over the rationals *)

Definition Qf : realFieldType := rat.

Definition q (k : nat) : Qf := k%:R.

(** [[0 2] [3 4]]: the pivot of the first column is on the second row. *)
Definition A_swap : matrix Qf := [:: [:: q 0; q 2]; [:: q 3; q 4]].

Definition b_swap : seq Qf := [:: q 2; q 7].

Definition lu_state0 : lu_state Qf := LUState [::] [::] [::] true.

(** A matrix with a null row, a singular matrix without one, and a
    nonsingular matrix with a pivot of 1/1000. *)
Definition A_null : matrix Qf := [:: [:: q 1; q 2]; [:: q 0; q 0]].
Definition A_sing : matrix Qf := [:: [:: q 1; q 2]; [:: q 2; q 4]].
Definition A_tiny : matrix Qf := [:: [:: q 1 / q 1000; q 0]; [:: q 0; q 1]].

(** The states of the decomposition of [A_swap]: on entry and at the
    end. *)
Definition st_swap0 : lu_state Qf := get_ok lu_state0 (crout_upto A_swap 2 0).
Definition st_swap : lu_state Qf := get_ok lu_state0 (LUDecomp A_swap 2).

(** The identity matrix and a right-hand side for it. *)
Definition A_id2 : matrix Qf := [:: [:: q 1; q 0]; [:: q 0; q 1]].

Definition b_id2 : seq Qf := [:: q 5; q 7].

(** The sparse form of [[2 0] [1 3]]. *)
Definition cg_example : SolveCG Qf :=
  MkSolveCG [:: q 2; q 1; q 3] 2 3 [:: 0; 1; 3]%N [:: 0; 0; 1]%N
            (q 0) 0 [::] (q 0) [::] 0.

(** The same rows, the entries of the second row in the other order. *)
Definition cg_example' : SolveCG Qf :=
  MkSolveCG [:: q 2; q 3; q 1] 2 3 [:: 0; 1; 3]%N [:: 0; 1; 0]%N
            (q 0) 0 [::] (q 0) [::] 0.

Definition cg_empty : SolveCG Qf :=
  MkSolveCG [::] 0 0 [::] [::] (q 0) 0 [::] (q 0) [::] 0.

(** The 2 x 2 identity as a dense array of 4 numbers. *)
Definition gmat_id2 : seq Qf := [:: q 1; q 0; q 0; q 1].

Definition cto_example : CrossTangentOffset Qf :=
  MkCrossTangentOffset (fun _ => [:: q 0; q 0])
    [:: (fun _ => [:: q 3; q 5]); (fun _ => [:: q 3; q 5])]
    [:: (fun _ => [:: q 1]); (fun _ => [:: q 1])]
    (fun _ => [:: q 1]).

Definition rhs_vec : seq (seq Qf) := [:: [:: q 2; q 4]; [:: q 7; q 11]].

(** An upper triangular matrix. *)
Definition A_upper : matrix Qf := [:: [:: q 2; q 1]; [:: q 0; q 3]].

(** Two matrices that agree with [A_swap], one below the diagonal, the
    other on and above it. *)
Definition A_swap_lower : matrix Qf := [:: [:: q 9; q 9]; [:: q 3; q 9]].
Definition A_swap_upper : matrix Qf := [:: [:: q 0; q 2]; [:: q 9; q 4]].

(** [A_swap] inside a matrix of 3 rows and 3 columns, and its right-hand
    side inside an array of 3 numbers. *)
Definition A_wide : matrix Qf :=
  [:: [:: q 0; q 2; q 5]; [:: q 3; q 4; q 6]; [:: q 7; q 8; q 9]].

Definition b_wide : seq Qf := [:: q 2; q 7; q 5].

(** Two vectors, the second longer than the first. *)
Definition rhs_ragged : seq (seq Qf) :=
  [:: [:: q 2; q 4]; [:: q 7; q 11; q 13]].

(** ** Concrete inputs in double precision *)

(** [[49 0] [1 1]]: the scaled entries of the first column are
    [49 * (1 / 49)], which rounds below 1, and [1 * (1 / 1)]. *)
Definition D_near : matrix binary64 :=
  [:: [:: 49%float; 0%float]; [:: 1%float; 1%float]].

(** [[98 2] [49 1]], the second row half the first. *)
Definition D_half : matrix binary64 :=
  [:: [:: 98%float; 2%float]; [:: 49%float; 1%float]].

Definition lu_stateD : lu_state binary64 := LUState [::] [::] [::] true.

Definition st_near0 : lu_state binary64 :=
  get_ok lu_stateD (crout_upto D_near 2 0).
Definition st_near1 : lu_state binary64 :=
  get_ok lu_stateD (crout_upto D_near 2 1).

(** One row of three entries, in two storage orders, and the vector of
    ones. *)
Definition cg_big : SolveCG binary64 :=
  MkSolveCG [:: 1e16%float; 1%float; (-1e16)%float] 3 3
            [:: 0; 3; 3; 3]%N [:: 0; 1; 2]%N
            0%float 0 [::] 0%float [::] 0.

Definition cg_big' : SolveCG binary64 :=
  MkSolveCG [:: 1e16%float; (-1e16)%float; 1%float] 3 3
            [:: 0; 3; 3; 3]%N [:: 0; 2; 1]%N
            0%float 0 [::] 0%float [::] 0.

Definition ones3 : seq binary64 := [:: 1%float; 1%float; 1%float].

(** * Theory *)

Section LoopLemmas.

Lemma for_each_rcons (S : Type) (body : S -> nat -> result S) s ks k :
  for_each body s (rcons ks k) =
  match for_each body s ks with Ok s' => body s' k | Err e => Err e end.
Proof.
elim: ks s => [|k0 ks IH] s /=; first by case: (body s k).
by case: (body s k0) => [s'|e] //.
Qed.

Lemma iota_rcons (m n : nat) : iota m n.+1 = rcons (iota m n) (m + n)%N.
Proof. by rewrite -addn1 iotaD /= cats1. Qed.

Lemma foldl_iotaS (S : Type) (f : S -> nat -> S) s (m n : nat) :
  foldl f s (iota m n.+1) = f (foldl f s (iota m n)) (m + n)%N.
Proof. by rewrite iota_rcons -cats1 foldl_cat. Qed.

Lemma nth_swap_nth (T : Type) (x0 : T) (a : seq T) (i j k : nat) :
  nth x0 (swap_nth x0 a i j) k =
  if k == j then nth x0 a i else if k == i then nth x0 a j else nth x0 a k.
Proof. rewrite /swap_nth nth_set_nth /=. case: (k == j) => //. by rewrite nth_set_nth. Qed.

End LoopLemmas.

(** The operations of [exact F] are those of the field [F]. *)
Section ExactArith.

Variable F : realFieldType.
Implicit Types x y : F.

Lemma n_zeroE : n_zero F = 0 :> F. Proof. by []. Qed.
Lemma n_oneE : n_one F = 1 :> F. Proof. by []. Qed.
Lemma n_addE x y : @n_add F x y = x + y. Proof. by []. Qed.
Lemma n_subE x y : @n_sub F x y = x - y. Proof. by []. Qed.
Lemma n_mulE x y : @n_mul F x y = x * y. Proof. by []. Qed.
Lemma n_divE x y : @n_div F x y = x / y. Proof. by []. Qed.
Lemma n_absE x : @n_abs F x = `|x|. Proof. by []. Qed.
Lemma n_ltE x y : @n_lt F x y = (x < y). Proof. by []. Qed.
Lemma n_eqE x y : @n_eq F x y = (x == y). Proof. by []. Qed.

Definition exactE :=
  (n_zeroE, n_oneE, n_addE, n_subE, n_mulE, n_divE, n_absE, n_ltE, n_eqE).

End ExactArith.

Section MatrixAccess.

Variable R : arith.
Implicit Types (m mat A : matrix R) (x : seq R) (i j k : nat).

Lemma mget_mset m i j v i' j' :
  mget (mset m i j v) i' j' = if (i' == i) && (j' == j) then v else mget m i' j'.
Proof.
rewrite /mget /mset nth_set_nth /=; case: (i' =P i) => [->|] //=.
by rewrite nth_set_nth.
Qed.


(** The entries two matrices agree on give the same sum. *)
Lemma inner_sum_ext m m' i j t :
  mget m' i j = mget m i j ->
  (forall k, (k < t)%N ->
     mget m' i k = mget m i k /\ mget m' k j = mget m k j) ->
  inner_sum m' i j t = inner_sum m i j t.
Proof.
rewrite /inner_sum => ->; elim: t => [|t IH] // eq_t.
have {}IH := IH (fun k lt_k => eq_t k (ltnW lt_k)).
rewrite !foldl_iotaS add0n IH.
by have [-> ->] := eq_t t (ltnSn t).
Qed.

(** Lines 105-107 exchange the two rows on the columns before [n]. *)
Lemma swap_rows_upto m r1 r2 t a b :
  mget (foldl (fun m k =>
                 let a := mget m r1 k in
                 let b := mget m r2 k in
                 mset (mset m r1 k b) r2 k a) m (iota 0 t)) a b =
  if (b < t)%N then
    if a == r2 then mget m r1 b else if a == r1 then mget m r2 b else mget m a b
  else mget m a b.
Proof.
elim: t a b => [|t IH] a b //; rewrite foldl_iotaS add0n /=.
set u := foldl _ _ _ in IH *.
have ut c : mget u c t = mget m c t by rewrite IH ltnn.
rewrite !mget_mset ltnS [(b <= t)%N]leq_eqVlt !ut.
have [->|ne_bt] /= := eqVneq b t; first by rewrite !andbT ut.
by rewrite !andbF IH.
Qed.

Lemma mget_swap_rows m n r1 r2 a b :
  mget (swap_rows m n r1 r2) a b =
  if (b < n)%N then
    if a == r2 then mget m r1 b else if a == r1 then mget m r2 b else mget m a b
  else mget m a b.
Proof. exact: swap_rows_upto. Qed.

End MatrixAccess.

Section InnerSum.

Variable F : realFieldType.
Implicit Types (m mat A : matrix F) (x : seq F) (i j k : nat).

Lemma inner_sumE m i j t :
  inner_sum m i j t = mget m i j - \sum_(0 <= k < t) mget m i k * mget m k j.
Proof.
rewrite /inner_sum; elim: t => [|t IH]; first by rewrite big_geq // subr0.
by rewrite foldl_iotaS IH add0n big_nat_recr //= opprD addrA.
Qed.

End InnerSum.

Section CroutLoops.

Variable F : realFieldType.
Implicit Types (m mat A : matrix F) (x sc : seq F) (i j k t : nat).

Lemma upper_column_upto m j t : (t <= j)%N ->
  let u := foldl (fun m i => mset m i j (inner_sum m i j i)) m (iota 0 t) in
  (forall a b, (b != j) || (t <= a)%N -> mget u a b = mget m a b) /\
  (forall i, (i < t)%N ->
     mget u i j = mget m i j - \sum_(0 <= k < i) mget m i k * mget u k j).
Proof.
elim: t => [|t IH] le_tj; first by split.
have [frame val] := IH (ltnW le_tj).
rewrite foldl_iotaS add0n /=; set u := foldl _ _ _ in frame val *.
have frame' a b : (b != j) || (t < a)%N ->
    mget (mset u t j (inner_sum u t j t)) a b = mget m a b.
  move=> H; rewrite mget_mset; case: ifP => [/andP[/eqP ea /eqP eb]|_].
    by move: H; rewrite ea eb eqxx ltnn.
  by apply: frame; case/orP: H => [->|/ltnW ->] //; rewrite orbT.
split=> // i; rewrite ltnS leq_eqVlt => /orP[/eqP ->|lt_it].
  rewrite mget_mset !eqxx /= inner_sumE frame ?leqnn ?orbT //.
  congr (_ - _); apply: eq_big_nat => k /andP[_ lt_kt].
  rewrite mget_mset (ltn_eqF lt_kt) /= frame //.
  by rewrite (ltn_eqF (leq_trans lt_kt (ltnW le_tj))).
rewrite mget_mset (ltn_eqF lt_it) /= val //.
congr (_ - _); apply: eq_big_nat => k /andP[_ lt_ki].
by rewrite mget_mset (ltn_eqF (ltn_trans lt_ki lt_it)).
Qed.

Lemma upper_column_frame m j a b :
  (b != j) || (j <= a)%N -> mget (upper_column m j) a b = mget m a b.
Proof. by move=> H; have [fr _] := upper_column_upto m (leqnn j); apply: fr. Qed.

Lemma upper_column_val m j i : (i < j)%N ->
  mget (upper_column m j) i j =
  mget m i j - \sum_(0 <= k < i) mget m i k * mget (upper_column m j) k j.
Proof. by move=> H; have [_ v] := upper_column_upto m (leqnn j); apply: v. Qed.

Lemma pivot_loopP m sc j t :
  let: (m', pv, pr) := pivot_loop m sc j t in
  [/\ forall a b, [|| b != j, (a < j)%N | (j + t <= a)%N] ->
        mget m' a b = mget m a b,
      forall i, (j <= i < j + t)%N -> mget m' i j = elim_val m i j,
      forall i, (j <= i < j + t)%N -> pivot_key m sc j i <= pv,
      forall i, (j <= i < pr)%N -> pivot_key m sc j i < pv
    & (pv = 0 /\ pr = j) \/ [/\ 0 < pv, pv = pivot_key m sc j pr & (j <= pr < j + t)%N]].
Proof.
elim: t => [|t]; rewrite /pivot_loop.
  rewrite /= addn0; split=> //; last by left.
  - by move=> i; case: ltngtP.
  - by move=> i; case: ltngtP.
  - by move=> i; case: ltngtP.
rewrite foldl_iotaS; case: (foldl _ _ _) => [[m' pv] pr] [frame val ub first last].
rewrite /pivot_step !exactE.
set s := inner_sum m' (j + t) j j.
have s_def : s = elim_val m (j + t) j.
  rewrite /s inner_sumE /elim_val frame ?addnS ?addn0 ?leqnn ?orbT //.
  congr (_ - _); apply: eq_big_nat => k /andP[_ lt_kj].
  rewrite !frame ?lt_kj ?orbT // (ltn_eqF lt_kj) //.
have frame' a b : [|| b != j, (a < j)%N | (j + t.+1 <= a)%N] ->
    mget (mset m' (j + t) j s) a b = mget m a b.
  move=> H; rewrite mget_mset; case: ifP => [/andP[/eqP ea /eqP eb]|_].
    by move: H; rewrite ea eb eqxx /= addnS ltnn ltnNge leq_addr.
  apply: frame; case/or3P: H => [->|->|H] //; first by rewrite orbT.
  by rewrite (leq_trans _ H) ?orbT // addnS.
have val' i : (j <= i < j + t.+1)%N ->
    mget (mset m' (j + t) j s) i j = elim_val m i j.
  rewrite addnS ltnS [(i <= _)%N]leq_eqVlt => /andP[le_ji /orP[/eqP ->|lt_i]].
    by rewrite mget_mset !eqxx.
  by rewrite mget_mset (ltn_eqF lt_i) /= val // le_ji.
have key_t : `|s * nth 0 sc (j + t)| = pivot_key m sc j (j + t).
  by rewrite /pivot_key s_def.
have pv_ge0 : 0 <= pv.
  by case: last => [[-> _]|[/ltW]].
have pr_lt : (pr <= j + t)%N.
  case: last => [[_ ->]|[_ _ /andP[_ /ltnW]]] //; exact: leq_addr.
case: ltP => [lt_pv|le_pv]; split=> //.
- move=> i; rewrite addnS ltnS [(i <= _)%N]leq_eqVlt.
  case/andP=> le_ji /orP[/eqP ->|lt_i]; first by rewrite key_t.
  by rewrite (le_trans (ub i _) (ltW lt_pv)) // le_ji.
- move=> i /andP[le_ji lt_i].
  by rewrite (le_lt_trans (ub i _) lt_pv) // le_ji.
- right; split=> //; first exact: le_lt_trans lt_pv.
  by rewrite leq_addr addnS ltnS leqnn.
- move=> i; rewrite addnS ltnS [(i <= _)%N]leq_eqVlt.
  case/andP=> le_ji /orP[/eqP ->|lt_i]; first by rewrite -key_t.
  by rewrite ub // le_ji.
- case: last => [|[pv_gt0 pvE /andP[le_jpr lt_pr]]]; first by left.
  by right; split=> //; rewrite le_jpr addnS ltnS ltnW.
Qed.

End CroutLoops.

Section RowOps.

Variable F : realFieldType.
Implicit Types (m mat A : matrix F) (x sc : seq F) (i j k t : nat).

Lemma pivot_searchE m sc n j : pivot_search m sc n j = pivot_loop m sc j (n - j).
Proof. by []. Qed.

Lemma divide_lower_upto m j (p : F) t a b :
  mget (foldl (fun m i => mset m i j (mget m i j * p)) m (iota j.+1 t)) a b =
  if (b == j) && (j < a < j.+1 + t)%N then mget m a j * p else mget m a b.
Proof.
elim: t a b => [|t IH] a b.
  have -> : (j < a < j.+1 + 0)%N = false by rewrite addn0 ltnS; case: ltnP.
  by rewrite andbF.
rewrite foldl_iotaS mget_mset !IH addnS ltnS [(a <= _)%N]leq_eqVlt.
have [->|ne_a] /= := eqVneq a (j.+1 + t)%N; have [->|ne_b] //= := eqVneq b j.
by rewrite ltnn !andbF andbT addSn ltnS leq_addr.
Qed.

Lemma mget_divide_lower m n j a b :
  mget (divide_lower m n j) a b =
  if (b == j) && (j < a < n)%N then mget m a j / mget m j j else mget m a b.
Proof.
rewrite /divide_lower; case: ifP => [lt_j|ge_j].
  have lt_jn : (j.+1 <= n)%N by move: lt_j; rewrite ltn_subRL add1n => /ltnW.
  by rewrite divide_lower_upto subnKC // !exactE div1r.
case: ifP => // /andP[_ /andP[lt_ja lt_an]].
by move: ge_j; rewrite ltn_subRL add1n (leq_ltn_trans lt_ja lt_an).
Qed.

End RowOps.

Section ScalingPass.

Variable R : arith.
Implicit Types (m mat A : matrix R) (x sc : seq R) (i j k t : nat).

Local Open Scope arith_scope.

(** The scan of row [i] changes [scaling[i]] only, into the largest so far
    of the number it held and the absolute entries of the row. *)
Lemma row_scan_peak m n i sc a :
  nth 0 (row_scan m n i sc) a =
  if a == i then
    foldl (fun s c => if s < `|mget m i c| then `|mget m i c| else s)
          (nth 0 sc i) (iota 0 n)
  else nth 0 sc a.
Proof.
rewrite /row_scan; elim: n a => [|n IH] a; first by case: eqP => // ->.
rewrite !foldl_iotaS add0n; set sc1 := foldl _ sc _ in IH *.
have := IH i; rewrite eqxx => <-.
case: ifP => _; last by rewrite IH; case: (eqVneq a i) => // _; rewrite IH eqxx.
by rewrite nth_set_nth /=; case: (eqVneq a i) => // ne; rewrite IH (negPf ne).
Qed.

Lemma size_row_scan m n i sc :
  (i < size sc)%N -> size (row_scan m n i sc) = size sc.
Proof.
move=> lt_i; rewrite /row_scan; elim: n => [|n IH] //.
rewrite foldl_iotaS; case: ifP => // _.
by rewrite size_set_nth IH; apply/maxn_idPr.
Qed.

(** The scaling pass after [t] rows: the reciprocal of what the scan of
    each row found, or the null-row exception. *)
Lemma scaling_peak_upto m n t : (t <= n)%N ->
  match for_each (scaling_row m n) (nseq n 0) (iota 0 t) with
  | Ok sc =>
      [/\ size sc = n,
          forall a, nth 0 sc a = if (a < t)%N then 1 / row_peak m n a else 0
        & forall a, (a < t)%N -> ~~ n_eq (row_peak m n a) 0]
  | Err e => e = NullRow
  end.
Proof.
elim: t => [|t IH] le_t.
  by rewrite /=; split; rewrite ?size_nseq // => a; rewrite nth_nseq if_same.
rewrite iota_rcons for_each_rcons add0n.
case: for_each (IH (ltnW le_t)) => [sc [sz vals nn]|e ->] //.
rewrite /scaling_row row_scan_peak eqxx vals ltnn -/(row_peak m n t).
case: ifP => [//|nnr]; split.
- by rewrite size_set_nth size_row_scan ?sz //; apply/maxn_idPr.
- move=> a; rewrite nth_set_nth /= ltnS leq_eqVlt.
  by case: (eqVneq a t) => [->|ne] //=; rewrite row_scan_peak (negPf ne) vals.
- by move=> a; rewrite ltnS leq_eqVlt => /orP[/eqP ->|/nn] //; rewrite nnr.
Qed.

Lemma scaling_pass_peak m n :
  match scaling_pass m n with
  | Ok sc =>
      [/\ size sc = n,
          forall a, (a < n)%N -> nth 0 sc a = 1 / row_peak m n a
        & forall a, (a < n)%N -> ~~ n_eq (row_peak m n a) 0]
  | Err e => e = NullRow
  end.
Proof.
have := scaling_peak_upto m (leqnn n); rewrite -/(scaling_pass m n).
case: scaling_pass => // sc [sz vals nn]; split=> // a lt_a.
by rewrite vals lt_a.
Qed.

End ScalingPass.

Section Scaling.

Variable F : realFieldType.
Implicit Types (m mat A : matrix F) (x sc : seq F) (i j k t : nat).

Lemma row_max_ge0 m n i : 0 <= row_max m n i.
Proof.
rewrite /row_max; elim: n => [|n IH] //.
by rewrite foldl_iotaS le_max IH.
Qed.

Lemma row_max_ub m n i j : (j < n)%N -> `|mget m i j| <= row_max m n i.
Proof.
rewrite /row_max; elim: n => [|n IH] //.
rewrite foldl_iotaS add0n le_max ltnS leq_eqVlt.
by case/orP=> [/eqP ->|/IH ->] //; rewrite lexx orbT.
Qed.

Lemma row_max_eq0 m n i : (row_max m n i == 0) = null_row m n i.
Proof.
apply/eqP/allP => [mx0 j|nr].
  rewrite mem_iota add0n => /andP[_ lt_j].
  by rewrite -normr_le0 -mx0 row_max_ub.
apply/eqP; rewrite eq_le row_max_ge0 andbT.
rewrite /row_max; elim: n nr => [|n IH] nr //.
rewrite foldl_iotaS add0n ge_max normr_le0 nr ?mem_iota ?add0n //= andbT.
by apply: IH => j; rewrite mem_iota add0n /= => lt_j; apply: nr; rewrite mem_iota add0n /= ltnS ltnW.
Qed.

Lemma row_scanP m n i sc a :
  nth 0 (row_scan m n i sc) a =
  if a == i then foldl (fun s j => Num.max s `|mget m i j|) (nth 0 sc i) (iota 0 n)
  else nth 0 sc a.
Proof.
rewrite /row_scan; elim: n a => [|n IH] a; first by case: eqP => // ->.
rewrite !foldl_iotaS add0n; set sc1 := foldl _ sc _ in IH *.
have := IH i; rewrite eqxx => <-.
rewrite !exactE maxElt; case: ifP => _; last by rewrite IH; case: (eqVneq a i) => // _; rewrite IH eqxx.
by rewrite nth_set_nth /=; case: (eqVneq a i) => // ne; rewrite IH (negPf ne).
Qed.

Lemma scaling_upto m n t : (t <= n)%N ->
  match for_each (scaling_row m n) (nseq n 0) (iota 0 t) with
  | Ok sc =>
      [/\ size sc = n,
          forall a, nth 0 sc a = if (a < t)%N then 1 / row_max m n a else 0
        & forall a, (a < t)%N -> ~~ null_row m n a]
  | Err e => e = NullRow /\ exists2 a, (a < t)%N & null_row m n a
  end.
Proof.
elim: t => [|t IH] le_t.
  by rewrite /=; split; rewrite ?size_nseq // => a; rewrite nth_nseq if_same.
rewrite iota_rcons for_each_rcons add0n.
case: for_each (IH (ltnW le_t)) => [sc [sz vals nn]|e [-> [a lt_a nr]]]; last first.
  by split=> //; exists a; rewrite // ltnS ltnW.
rewrite /scaling_row !exactE row_scanP eqxx vals ltnn -/(row_max m n t).
rewrite row_max_eq0.
case: ifP => [nr|nnr]; first by split=> //; exists t.
split.
- by rewrite size_set_nth size_row_scan ?sz //; apply/maxn_idPr.
- move=> a; rewrite nth_set_nth /= ltnS leq_eqVlt.
  by case: (eqVneq a t) => [->|ne] //=; rewrite row_scanP (negPf ne) vals.
- by move=> a; rewrite ltnS leq_eqVlt => /orP[/eqP ->|/nn] //; rewrite nnr.
Qed.

Lemma scaling_passP m n :
  match scaling_pass m n with
  | Ok sc =>
      [/\ size sc = n,
          forall a, (a < n)%N -> nth 0 sc a = 1 / row_max m n a
        & forall a, (a < n)%N -> ~~ null_row m n a]
  | Err e => e = NullRow /\ exists2 a, (a < n)%N & null_row m n a
  end.
Proof.
have := scaling_upto m (leqnn n); rewrite -/(scaling_pass m n).
by case: scaling_pass => // sc [sz vals nn]; split=> // a lt_a; rewrite vals lt_a.
Qed.

End Scaling.

Section LUSpec.

Variable F : realFieldType.
Implicit Types (m mat A : matrix F) (x sc : seq F) (i j k t c : nat).

Lemma LUprod_le m n i c : (i <= c)%N -> (c < n)%N ->
  LUprod m n i c = mget m i c + \sum_(0 <= k < i) mget m i k * mget m k c.
Proof.
move=> le_ic lt_cn; have lt_in := leq_ltn_trans le_ic lt_cn.
rewrite /LUprod (big_cat_nat (n := i)) ?(ltnW lt_in) //= [X in _ + X]big_ltn //.
have -> : \sum_(i.+1 <= k < n) Lent m i k * Uent m k c = 0.
  rewrite big_nat_cond big1 // => k /andP[/andP[lt_ik _] _].
  by rewrite /Lent ltnNge (ltnW lt_ik) /= (gtn_eqF lt_ik) mul0r.
rewrite addr0 addrC /Lent /Uent ltnn eqxx le_ic mul1r; congr (_ + _).
apply: eq_big_nat => k /andP[_ lt_ki].
by rewrite lt_ki (leq_trans (ltnW lt_ki) le_ic).
Qed.

Lemma LUprod_gt m n i c : (c < i)%N -> (c < n)%N ->
  LUprod m n i c =
  mget m i c * mget m c c + \sum_(0 <= k < c) mget m i k * mget m k c.
Proof.
move=> lt_ci lt_cn.
rewrite /LUprod (big_cat_nat (n := c)) ?(ltnW lt_cn) //= [X in _ + X]big_ltn //.
have -> : \sum_(c.+1 <= k < n) Lent m i k * Uent m k c = 0.
  rewrite big_nat_cond big1 // => k /andP[/andP[lt_ck _] _].
  by rewrite /Uent leqNgt lt_ck mulr0.
rewrite addr0 addrC /Lent /Uent lt_ci leqnn; congr (_ + _).
apply: eq_big_nat => k /andP[_ lt_kc].
by rewrite (ltn_trans lt_kc lt_ci) (ltnW lt_kc).
Qed.

Lemma tr2_lt n j pr a : (j < n)%N -> (pr < n)%N -> (a < n)%N -> (tr2 j pr a < n)%N.
Proof. by move=> ? ? ?; rewrite /tr2; case: ifP => // _; case: ifP. Qed.

Lemma tr2K j pr : involutive (tr2 j pr).
Proof.
move=> a; rewrite /tr2; have [->|ne_aj] := eqVneq a j.
  by rewrite eqxx; case: eqVneq.
have [->|ne_ap] := eqVneq a pr; first by rewrite eqxx.
by rewrite (negPf ne_aj) (negPf ne_ap).
Qed.

Lemma tr2_id j pr a : (a < j)%N -> (j <= pr)%N -> tr2 j pr a = a.
Proof.
move=> lt_aj le_jpr; rewrite /tr2 (ltn_eqF lt_aj).
by rewrite (ltn_eqF (leq_trans lt_aj le_jpr)).
Qed.

Lemma tr2_ge j pr a : (j <= a)%N -> (j <= pr)%N -> (j <= tr2 j pr a)%N.
Proof. by move=> ? ?; rewrite /tr2; case: ifP => // _; case: ifP. Qed.

Lemma nth_swap_tr2 (T : Type) (x0 : T) (p : seq T) j pr i :
  nth x0 (swap_nth x0 p j pr) i = nth x0 p (tr2 j pr i).
Proof.
rewrite nth_swap_nth /tr2; have [->|ne_ip] := eqVneq i pr.
  by case: eqVneq => // ->.
by case: eqVneq.
Qed.

Lemma det_PAmx_swap A p n j pr : (j < n)%N -> (pr < n)%N ->
  \det (PAmx A (swap_nth 0%N p j pr) n) =
  (if pr != j then -1 else 1) * \det (PAmx A p n).
Proof.
move=> lt_j lt_pr.
have -> : PAmx A (swap_nth 0%N p j pr) n =
          xrow (Ordinal lt_j) (Ordinal lt_pr) (PAmx A p n).
  apply/matrixP => i c; rewrite !mxE nth_swap_tr2 /tr2 permE /=.
  by rewrite -!val_eqE /=; case: eqP => // _; case: eqP.
rewrite /xrow row_permE det_mulmx det_perm odd_tperm -val_eqE /= eq_sym.
by case: eqP => _; rewrite ?expr1 ?expr0.
Qed.

End LUSpec.

Section CroutColumn.

Variable F : realFieldType.
Implicit Types (m mat A : matrix F) (x sc : seq F) (i j k t c : nat).

(** What the two inner loops of column [j] leave in the matrix, and the
    pivot row they select. *)
Lemma crout_elim m sc n j : (j < n)%N ->
  let: (m2, pv, pr) := pivot_search (upper_column m j) sc n j in
  [/\ (j <= pr < n)%N,
      forall a b, b != j -> mget m2 a b = mget m a b,
      forall i, (i < j)%N ->
        mget m i j = mget m2 i j + \sum_(0 <= k < i) mget m i k * mget m2 k j,
      forall i, (j <= i < n)%N ->
        mget m i j = mget m2 i j + \sum_(0 <= k < j) mget m i k * mget m2 k j
    & pv = `|mget m2 pr j * nth 0 sc pr| /\
      ((forall i, (j <= i < n)%N ->
          `|mget m2 i j * nth 0 sc i| <= `|mget m2 pr j * nth 0 sc pr|) /\
       (forall i, (j <= i < pr)%N ->
          `|mget m2 i j * nth 0 sc i| < `|mget m2 pr j * nth 0 sc pr|))].
Proof.
move=> lt_jn; rewrite pivot_searchE.
have := pivot_loopP (upper_column m j) sc j (n - j).
rewrite (subnKC (ltnW lt_jn)).
set u := upper_column m j.
case: pivot_loop => [[m2 pv] pr] [frame val ub first last].
have pr_rng : (j <= pr < n)%N.
  by case: last => [[_ ->]|[_ _ ->]] //; rewrite leqnn.
have m2u k : (k < j)%N -> mget m2 k j = mget u k j.
  by move=> lt_kj; rewrite frame // lt_kj orbT.
have keyE i : (j <= i < n)%N ->
    pivot_key u sc j i = `|mget m2 i j * nth 0 sc i|.
  by move=> rng; rewrite /pivot_key val.
have pvE : pv = `|mget m2 pr j * nth 0 sc pr|.
  case: last => [[pv0 prj]|[_ -> _]]; last by rewrite keyE.
  have le0 : `|mget m2 j j * nth 0 sc j| <= 0.
    by rewrite -keyE ?leqnn // -pv0 ub // leqnn.
  by rewrite pv0 prj; apply/eqP; rewrite eq_sym eq_le normr_ge0 andbT.
split=> //.
- move=> a b ne_bj; rewrite frame ?ne_bj //.
  by rewrite upper_column_frame ?ne_bj.
- move=> i lt_ij; rewrite m2u // upper_column_val //.
  set S1 := \sum_(_ <= k < _) _; set S2 := \sum_(_ <= k < _) _.
  suff -> : S1 = S2 by rewrite subrK.
  apply: eq_big_nat => k /andP[_ lt_ki].
  by rewrite m2u // (ltn_trans lt_ki).
- move=> i rng; rewrite val // /elim_val; case/andP: rng => le_ji _.
  rewrite upper_column_frame ?le_ji ?orbT //.
  set S1 := \sum_(_ <= k < _) _; set S2 := \sum_(_ <= k < _) _.
  suff -> : S1 = S2 by rewrite subrK.
  apply: eq_big_nat => k /andP[_ lt_kj].
  by rewrite m2u // upper_column_frame // (ltn_eqF lt_kj).
- split=> //; split=> i rng; first by rewrite -pvE -keyE // ub.
  have rng' : (j <= i < n)%N.
    by case/andP: rng => -> /ltn_trans; apply; case/andP: pr_rng.
  by rewrite -pvE -keyE // first.
Qed.

End CroutColumn.

Section Invariant.

Variable F : realFieldType.
Implicit Types (m mat A : matrix F) (x sc : seq F) (i j k t c : nat).
Implicit Types (st : lu_state F).

Lemma fill_perm_upto n t : (t <= n)%N ->
  let p := foldl (fun perm k => set_nth 0%N perm k.+1 k) (nseq n 0%N)
                 (iota 0 t) in
  (n <= size p)%N /\
  forall i, nth 0%N p i = if (0 < i <= t)%N then i.-1 else 0%N.
Proof.
elim: t => [|t IH] lt_t.
  rewrite /= size_nseq; split=> // i; rewrite nth_nseq if_same.
  by rewrite leqn0; case: i.
have [sz vals] := IH (ltnW lt_t).
rewrite foldl_iotaS add0n /=; split.
  by rewrite size_set_nth (leq_trans sz) // leq_maxr.
move=> i; rewrite nth_set_nth /= vals [(i <= t.+1)%N]leq_eqVlt.
by case: eqVneq => [->|_] //=.
Qed.

(** Line 54 leaves 0, 0, 1, ..., [n - 2] in [perm]. *)
Lemma fill_permE n : fill_perm n = [seq i.-1 | i <- iota 0 n].
Proof.
rewrite /fill_perm; have [sz vals] := fill_perm_upto (leqnn n).
apply: (@eq_from_nth _ 0%N).
  by rewrite size_take_min (minn_idPl sz) size_map size_iota.
move=> i; rewrite size_take_min (minn_idPl sz) => lt_i.
rewrite nth_take // vals (nth_map 0%N) ?size_iota // nth_iota // add0n.
by rewrite (ltnW lt_i) andbT; case: i {lt_i}.
Qed.


Lemma PAmx_iota A n : PAmx A (iota 0 n) n = mx_of A n.
Proof. by apply/matrixP => i c; rewrite !mxE nth_iota. Qed.

Lemma lu_initP A n :
  match lu_init A n with
  | Ok st => [/\ lu_inv A n 0 (with_perm (iota 0 n) st), lu_mat st = A,
                lu_perm st = fill_perm n
                & lu_parity st = true]
  | Err e => e = NullRow /\ exists2 a, (a < n)%N & null_row A n a
  end.
Proof.
rewrite /lu_init; have := scaling_passP A n.
case: scaling_pass => // sc [sz vals nn]; split=> //.
split=> //=.
- by rewrite size_iota.
- exact: iota_uniq.
- by move=> i lt_i; rewrite nth_iota.
- by move=> i c lt_i _; rewrite nth_iota.
- by move=> i lt_i; rewrite nth_iota // vals.
- by rewrite PAmx_iota mul1r.
Qed.

Lemma permute_rowsP n st pr j :
  let st' := permute_rows n st pr j in
  [/\ forall a b, mget (lu_mat st') a b =
        if (b < n)%N then mget (lu_mat st) (tr2 j pr a) b
        else mget (lu_mat st) a b,
      forall i, nth 0%N (lu_perm st') i = nth 0%N (lu_perm st) (tr2 j pr i),
      forall i, nth 0 (lu_scaling st') i = nth 0 (lu_scaling st) (tr2 j pr i),
      lu_parity st' = (if pr != j then ~~ lu_parity st else lu_parity st)
    & (j < size (lu_perm st))%N -> (pr < size (lu_perm st))%N ->
      size (lu_perm st') = size (lu_perm st)].
Proof.
rewrite /permute_rows; case: eqVneq => [->|ne] /=.
  have trj a : tr2 j j a = a by rewrite /tr2; case: eqVneq.
  by split=> // *; rewrite trj ?if_same //.
split=> //.
- move=> a b; rewrite mget_swap_rows /tr2; case: (b < n)%N => //.
  by case: (a == j) => //; case: (a == pr).
- by move=> i; rewrite nth_swap_tr2.
- by move=> i; rewrite nth_swap_tr2.
- move=> lt_j lt_pr; rewrite /swap_nth !size_set_nth.
  by rewrite (maxn_idPr lt_j) (maxn_idPr lt_pr).
Qed.

Lemma det_PAmx_tr2 A p p' n j pr : (j < n)%N -> (pr < n)%N ->
  (forall i, nth 0%N p' i = nth 0%N p (tr2 j pr i)) ->
  \det (PAmx A p' n) = (if pr != j then -1 else 1) * \det (PAmx A p n).
Proof.
move=> lt_j lt_pr p'E; rewrite -det_PAmx_swap //; congr (\det _).
by apply/matrixP => i c; rewrite !mxE p'E nth_swap_tr2.
Qed.

End Invariant.

Section Step.

Variable F : realFieldType.
Implicit Types (m mat A : matrix F) (x sc : seq F) (i j k t c : nat).
Implicit Types (st : lu_state F).

Lemma tr2_jj j pr : tr2 j pr j = pr.
Proof. by rewrite /tr2 eqxx. Qed.

Lemma crout_column_inv A n j st st' : (j < n)%N ->
  lu_inv A n j st -> crout_column n st j = Ok st' -> lu_inv A n j.+1 st'.
Proof.
move=> lt_jn inv; rewrite /crout_column.
have := crout_elim (lu_mat st) (lu_scaling st) lt_jn.
case: pivot_search => [[m2 pv] pr] [pr_rng frame up low _].
case: ifP => // /negbT piv_nz [<-] {st'}.
have /andP[le_jpr lt_prn] := pr_rng.
set st2 := LUState m2 _ _ _.
have := permute_rowsP n st2 pr j.
set st3 := permute_rows n st2 pr j; move=> [m3E p3E sc3E par3E sz3].
set sg := tr2 j pr in m3E p3E sc3E.
have sg_lt a : (a < n)%N -> (sg a < n)%N by apply: tr2_lt.
have sg_id a : (a < j)%N -> sg a = a by move=> lt_a; apply: tr2_id.
have sg_ge a : (j <= a)%N -> (j <= sg a)%N by move=> le_a; apply: tr2_ge.
have sg_j : sg j = pr by apply: tr2_jj.
set m := lu_mat st in frame up low.
set m4 := divide_lower (lu_mat st3) n j.
have m4jj : mget m4 j j = mget m2 pr j.
  by rewrite /m4 mget_divide_lower ltnn andbF m3E lt_jn /= sg_j.
have H1 a b : (b < n)%N -> b != j -> mget m4 a b = mget m (sg a) b.
  by move=> lt_b ne_b; rewrite /m4 mget_divide_lower (negPf ne_b) /= m3E lt_b frame.
have H2 a : (a <= j)%N -> mget m4 a j = mget m2 (sg a) j.
  move=> le_a; rewrite /m4 mget_divide_lower eqxx /= ltnNge le_a /=.
  by rewrite m3E lt_jn.
have H3 a : (j < a < n)%N -> mget m4 a j * mget m4 j j = mget m2 (sg a) j.
  move=> rng; rewrite m4jj /m4 mget_divide_lower eqxx rng /= !m3E lt_jn.
  by rewrite sg_j divfK.
have LU_lt i c : (i < n)%N -> (c < j)%N ->
    LUprod m4 n i c = LUprod m n (sg i) c.
  move=> lt_i lt_c; have lt_cn := ltn_trans lt_c lt_jn.
  have ne_c : c != j by rewrite (ltn_eqF lt_c).
  have [le_ic|lt_ci] := leqP i c.
    have lt_ij := leq_ltn_trans le_ic lt_c.
    rewrite sg_id // !LUprod_le // H1 // sg_id //; congr (_ + _).
    apply: eq_big_nat => k /andP[_ lt_ki].
    have lt_kj := ltn_trans lt_ki lt_ij.
    rewrite !H1 ?(ltn_trans lt_kj) ?(ltn_eqF lt_kj) //.
    by rewrite !sg_id.
  have lt_csg : (c < sg i)%N.
    have [lt_ij|le_ji] := ltnP i j; first by rewrite sg_id.
    exact: leq_trans lt_c (sg_ge _ le_ji).
  rewrite !LUprod_gt // !H1 // (sg_id _ lt_c); congr (_ + _).
  apply: eq_big_nat => k /andP[_ lt_kc].
  have lt_kj := ltn_trans lt_kc lt_c.
  by rewrite !H1 ?(ltn_trans lt_kj) ?(ltn_eqF lt_kj) // (sg_id _ lt_kj).
have LU_j i : (i < n)%N -> LUprod m4 n i j = mget m (sg i) j.
  move=> lt_i; have [le_ij|lt_ji] := leqP i j.
    rewrite LUprod_le // H2 //.
    have [lt_ij|ge_ij] := ltnP i j.
      rewrite sg_id // (up _ lt_ij); congr (_ + _).
      apply: eq_big_nat => k /andP[_ lt_ki].
      have lt_kj := ltn_trans lt_ki lt_ij.
      rewrite H1 ?(ltn_trans lt_kj) ?(ltn_eqF lt_kj) // H2 ?(ltnW lt_kj) //.
      by rewrite !sg_id.
    have -> : i = j by apply/eqP; rewrite eqn_leq le_ij.
    rewrite sg_j (low _ pr_rng); congr (_ + _).
    apply: eq_big_nat => k /andP[_ lt_kj].
    rewrite H1 ?(ltn_trans lt_kj) ?(ltn_eqF lt_kj) // H2 ?(ltnW lt_kj) //.
    by rewrite sg_j sg_id.
  have rng_sg : (j <= sg i < n)%N by rewrite sg_ge ?sg_lt // ltnW.
  rewrite LUprod_gt // H3 ?lt_ji // (low _ rng_sg).
  congr (_ + _); apply: eq_big_nat => k /andP[_ lt_kj].
  rewrite H1 ?(ltn_trans lt_kj) ?(ltn_eqF lt_kj) // H2 ?(ltnW lt_kj) //.
  by rewrite (sg_id _ lt_kj).
have [sz uq rng cols LU dg scal nn dt] := inv.
split=> /=.
- by rewrite sz3 /= sz.
- apply/(uniqP 0%N) => a b; rewrite !inE sz3 /= ?sz // => lt_a lt_b.
  rewrite !p3E /= => /eqP; rewrite nth_uniq ?sz ?sg_lt // => /eqP.
  exact: (can_inj (@tr2K j pr)).
- by move=> i lt_i; rewrite p3E /= rng // sg_lt.
- move=> i c lt_i /andP[lt_jc lt_c].
  rewrite H1 ?(gtn_eqF lt_jc) // p3E /= cols ?sg_lt //.
  by rewrite (ltnW lt_jc).
- move=> i c lt_i; rewrite ltnS leq_eqVlt => /orP[/eqP ->|lt_c].
    by rewrite LU_j // p3E /= cols ?sg_lt // leqnn.
  by rewrite LU_lt // p3E /= LU // sg_lt.
- move=> c; rewrite ltnS leq_eqVlt => /orP[/eqP ->|lt_c].
    by rewrite m4jj.
  by rewrite H1 ?(ltn_trans lt_c) ?(ltn_eqF lt_c) // sg_id // dg.
- by move=> i lt_i; rewrite sc3E p3E /= scal // sg_lt.
- exact: nn.
- rewrite (det_PAmx_tr2 A lt_jn lt_prn p3E) /= dt par3E /= mulrA.
  congr (_ * _).
  by case: (lu_parity st); case: (pr != j); rewrite /= ?mulr1 ?mul1r ?mulrNN ?mulr1.
Qed.

End Step.

Section RowOrder.

Variable R : arith.
Implicit Types (m mat A : matrix R) (sc : seq R) (i j k t c : nat).
Implicit Types (st : lu_state R) (p : seq nat).

Lemma crout_uptoS A n j :
  crout_upto A n j.+1 =
  match crout_upto A n j with
  | Ok st => crout_column n st j
  | Err e => Err e
  end.
Proof.
rewrite /crout_upto; case: lu_init => // st.
by rewrite iota_rcons for_each_rcons add0n.
Qed.

Lemma pivot_ofE A n j st :
  crout_upto A n j = Ok st -> pivot_of A n j = pivot_row_of n st j.
Proof. by rewrite /pivot_of => ->. Qed.

Lemma row_orderS A n j st :
  crout_upto A n j = Ok st ->
  row_order A n j.+1 =
  if pivot_row_of n st j != j
  then swap_nth 0%N (row_order A n j) j (pivot_row_of n st j)
  else row_order A n j.
Proof. by move=> E; rewrite /= (pivot_ofE E). Qed.

(** The decomposition reads nothing in [perm]: with another [perm] on
    entry to a column it does the same, on the other [perm]. *)
Lemma crout_column_with_perm n p st j :
  crout_column n (with_perm p st) j =
  match crout_column n st j with
  | Ok st' =>
      Ok (with_perm (if pivot_row_of n st j != j
                     then swap_nth 0%N p j (pivot_row_of n st j) else p) st')
  | Err e => Err e
  end.
Proof.
rewrite /crout_column /pivot_row_of /with_perm /=.
case: pivot_search => [[m2 pv] pr] /=; case: ifP => // _.
by rewrite /permute_rows /=; case: ifP.
Qed.

End RowOrder.

Section Run.

Variable F : realFieldType.
Implicit Types (m mat A : matrix F) (x sc : seq F) (i j k t c : nat).
Implicit Types (st : lu_state F).

Lemma crout_column_Err n st j e :
  crout_column n st j = Err e <-> e = Singular /\ selected_pivot n st j = 0.
Proof.
rewrite /crout_column /selected_pivot.
case: pivot_search => [[m2 pv] pr]; case: ifP => [/eqP z|/eqP nz]; split.
- by case=> <-.
- by case=> ->.
- by [].
- by case.
Qed.

Lemma crout_column_Ok n st j :
  selected_pivot n st j != 0 -> exists st', crout_column n st j = Ok st'.
Proof.
move=> nz; case E: crout_column => [st'|e]; first by exists st'.
by case/crout_column_Err: E nz => _ ->; rewrite eqxx.
Qed.

(** The state after [j] columns, with the order of the rows for [perm]. *)
Lemma crout_upto_inv A n j st :
  (j <= n)%N -> crout_upto A n j = Ok st ->
  lu_inv A n j (with_perm (row_order A n j) st).
Proof.
elim: j st => [|j IH] st le_j.
  rewrite /crout_upto /=; have := lu_initP A n.
  by case: lu_init => // st0 [inv _ _ _] [<-].
rewrite crout_uptoS; case E: crout_upto => [st0|] // Hcol.
apply: (crout_column_inv le_j (IH _ (ltnW le_j) E)).
by rewrite crout_column_with_perm Hcol (row_orderS E).
Qed.

Lemma lu_init_Err A n e :
  lu_init A n = Err e <-> e = NullRow /\ exists2 a, (a < n)%N & null_row A n a.
Proof.
have := lu_initP A n; case: lu_init => [st [inv _ _ _]|e0 [-> nr]]; split=> //.
- by case=> _ [a /(inv_nonnull inv) /negP].
- by case=> <-.
- by case=> ->.
Qed.

Lemma crout_upto_Ok_nonnull A n j st :
  crout_upto A n j = Ok st -> forall a, (a < n)%N -> ~~ null_row A n a.
Proof.
rewrite /crout_upto; have := lu_initP A n.
by case: lu_init => // st0 [/inv_nonnull].
Qed.

Lemma crout_upto_NullRow A n j :
  crout_upto A n j = Err NullRow <-> lu_init A n = Err NullRow.
Proof.
elim: j => [|j [IH1 IH2]]; first by rewrite /crout_upto /=; case: lu_init.
rewrite crout_uptoS; case E: crout_upto IH1 IH2 => [st|e] IH1 IH2.
  by split=> [/crout_column_Err[]|/IH2].
by split=> [[ee]|/IH2 //]; apply: IH1; rewrite ee.
Qed.

Lemma crout_upto_Singular A n j :
  crout_upto A n j = Err Singular <->
  exists j0 st, [/\ (j0 < j)%N, crout_upto A n j0 = Ok st
                  & selected_pivot n st j0 = 0].
Proof.
elim: j => [|j IH].
  rewrite /crout_upto /=; split; last by case=> j0 [st []].
  by case E: lu_init => [|e] // [Ee]; move/lu_init_Err: E; rewrite Ee; case.
rewrite crout_uptoS; case E: crout_upto IH => [st|e] IH.
  split=> [/crout_column_Err[_ piv0]|[j0 [st0 [lt_j0 E0 piv0]]]].
    by exists j, st.
  apply/crout_column_Err; split=> //.
  move: lt_j0; rewrite ltnS leq_eqVlt => /orP[/eqP ej|lt_j0].
    by move: E0 piv0; rewrite ej E => -[<-].
  have [_ /(_ (ex_intro _ j0 (ex_intro _ st0 (And3 lt_j0 E0 piv0))))] := IH.
  by [].
split=> [[ee]|[j0 [st0 [lt_j0 E0 piv0]]]].
  rewrite ee in IH; have [/(_ erefl) [j0 [st0 [lt_j0 E0 piv0]]] _] := IH.
  by exists j0, st0; split=> //; apply: ltnW.
move: lt_j0; rewrite ltnS leq_eqVlt => /orP[/eqP ej|lt_j0].
  by move: E0; rewrite ej E.
have [_ /(_ (ex_intro _ j0 (ex_intro _ st0 (And3 lt_j0 E0 piv0))))] := IH.
by [].
Qed.

End Run.

Section Factors.

Variable F : realFieldType.
Implicit Types (m mat A : matrix F) (x sc : seq F) (i j k t c : nat).
Implicit Types (st : lu_state F).

Lemma mulmx_LU m n (i c : 'I_n) : (Lmx m n *m Umx m n) i c = LUprod m n i c.
Proof.
by rewrite mxE /LUprod big_mkord; apply: eq_bigr => k _; rewrite !mxE.
Qed.

Lemma Pmx_mul A (p : seq nat) n :
  (forall i, (i < n)%N -> (nth 0%N p i < n)%N) ->
  Pmx p n *m mx_of A n = PAmx A p n.
Proof.
move=> rng; apply/matrixP => i c; rewrite !mxE.
rewrite (bigD1 (Ordinal (rng i (ltn_ord i)))) //= !mxE eqxx mul1r.
rewrite big1 ?addr0 // => r ne_r; rewrite !mxE.
by rewrite -val_eqE /= in ne_r; rewrite (negPf ne_r) mul0r.
Qed.

Lemma det_Lmx m n : \det (Lmx m n) = 1.
Proof.
have trig : is_trig_mx (Lmx m n).
  apply/is_trig_mxP => i k lt_ik.
  by rewrite mxE /Lent ltnNge (ltnW lt_ik) /= (gtn_eqF lt_ik).
by rewrite (det_trig trig) big1 // => i _; rewrite mxE /Lent ltnn eqxx.
Qed.

Lemma det_Umx m n : \det (Umx m n) = \prod_(i < n) mget m i i.
Proof.
have trig : is_trig_mx (Umx m n)^T.
  by apply/is_trig_mxP => i k lt_ik; rewrite !mxE /Uent leqNgt lt_ik.
rewrite -det_tr (det_trig trig).
by apply: eq_bigr => i _; rewrite !mxE /Uent leqnn.
Qed.

Lemma perm_eq_iota (p : seq nat) n :
  size p = n -> uniq p -> (forall i, (i < n)%N -> (nth 0%N p i < n)%N) ->
  perm_eq p (iota 0 n).
Proof.
move=> sz uq rng; apply: uniq_perm => //; first exact: iota_uniq.
have sub : {subset p <= iota 0 n}.
  move=> r /(nthP 0%N)[i]; rewrite sz => lt_i <-.
  by rewrite mem_iota add0n /= rng.
by have [] := uniq_min_size uq sub; rewrite // size_iota sz.
Qed.

Lemma lu_inv_final A n st : lu_inv A n n st ->
  [/\ Lmx (lu_mat st) n *m Umx (lu_mat st) n = Pmx (lu_perm st) n *m mx_of A n,
      perm_eq (lu_perm st) (iota 0 n),
      forall i, (i < n)%N -> mget (lu_mat st) i i != 0
    & \det (mx_of A n) =
      (if lu_parity st then 1 else -1) * \det (Umx (lu_mat st) n)].
Proof.
case=> sz uq rng cols LU dg scal nn dt.
have LUPA : Lmx (lu_mat st) n *m Umx (lu_mat st) n = PAmx A (lu_perm st) n.
  by apply/matrixP => i c; rewrite mulmx_LU LU // mxE.
split=> //.
- by rewrite Pmx_mul.
- exact: perm_eq_iota.
- have : \det (Umx (lu_mat st) n) =
         (if lu_parity st then 1 else -1) * \det (mx_of A n).
    by rewrite -dt -LUPA det_mulmx det_Lmx mul1r.
  by move=> ->; rewrite mulrA; case: (lu_parity st); rewrite ?mulrNN !mul1r.
Qed.

End Factors.

Section Substitution.

Variable F : realFieldType.
Implicit Types (m mat A : matrix F) (x y z b : seq F) (i j k t c : nat).
Implicit Types (st : lu_state F).

(** The loop [for j in js: x[i] -= A[i][j] * x[j]] when [i] is not in [js]. *)
Lemma axpy_loop A i js x : i \notin js ->
  forall a,
    nth 0 (eliminate A i x js) a =
    if a == i then nth 0 x i - \sum_(j <- js) mget A i j * nth 0 x j
    else nth 0 x a.
Proof.
rewrite /eliminate.
elim: js x => [|j js IH] x; first by move=> _ a; rewrite big_nil subr0; case: eqP => // ->.
rewrite inE negb_or => /andP[ne_ij nin] a /=.
rewrite IH // !nth_set_nth /= eqxx big_cons opprD addrA.
case: (eqVneq a i) => // _; congr (_ - _).
apply: eq_big_seq => j' in_j'; rewrite nth_set_nth /=.
by case: eqP => // e; rewrite -e in_j' in nin.
Qed.

Lemma forward_rows A x t a :
  nth 0 (foldl (forward_row A) x (iota 1 t)) a =
  if (a <= t)%N then
    nth 0 x a - \sum_(0 <= j < a) mget A a j *
                                  nth 0 (foldl (forward_row A) x (iota 1 t)) j
  else nth 0 x a.
Proof.
elim: t a => [|t IH] a.
  by case: a => [|a] //=; rewrite big_geq // subr0.
rewrite foldl_iotaS add1n; set y := foldl _ _ _ in IH *.
have nin : t.+1 \notin iota 0 t.+1 by rewrite mem_iota add0n ltnn.
have step := axpy_loop A y nin; rewrite -/(forward_row A y t.+1) in step.
rewrite step; have [->|ne_a] := eqVneq a t.+1.
  rewrite leqnn IH ltnn /index_iota subn0; congr (_ - _).
  apply: eq_big_seq => j; rewrite mem_iota add0n /= => lt_j.
  by rewrite step (ltn_eqF lt_j).
rewrite IH [(a <= t.+1)%N]leq_eqVlt (negPf ne_a) /= ltnS.
case: leqP => // le_a; congr (_ - _).
apply: eq_big_nat => j /andP[_ lt_j].
by rewrite step (ltn_eqF (leq_trans lt_j (leq_trans le_a (leqnSn t)))).
Qed.

Lemma forwardSubstitutionP A x n a : (a < n)%N ->
  nth 0 (forwardSubstitution A x n) a =
  nth 0 x a - \sum_(0 <= j < a) mget A a j * nth 0 (forwardSubstitution A x n) j.
Proof.
move=> lt_a; rewrite /forwardSubstitution forward_rows.
by rewrite -ltnS subn1 prednK ?lt_a // (leq_ltn_trans _ lt_a).
Qed.

End Substitution.

Section Backward.

Variable F : realFieldType.
Implicit Types (m mat A : matrix F) (x y z b : seq F) (i j k t c : nat).
Implicit Types (st : lu_state F).

Lemma bwd_step A n x z s : (s < n)%N ->
  bs_inv A n x z s.+1 -> bs_inv A n x (backward_row A n z s) s.
Proof.
move=> lt_s inv.
have nin : s \notin iota s.+1 (n - s.+1) by rewrite mem_iota ltnn.
have step := axpy_loop A z nin.
have rE a : nth 0 (backward_row A n z s) a =
    if a == s then
      (nth 0 z s - \sum_(s.+1 <= j < n) mget A s j * nth 0 z j) / mget A s s
    else nth 0 z a.
  by rewrite /backward_row nth_set_nth /= !step eqxx; case: eqP.
have r_gt a j : (a < j)%N -> (s <= a)%N -> nth 0 (backward_row A n z s) j = nth 0 z j.
  by move=> lt_aj le_sa; rewrite rE (gtn_eqF (leq_ltn_trans le_sa lt_aj)).
move=> a; rewrite rE; have [->|ne_a] := eqVneq a s.
  rewrite leqnn lt_s /= inv ltnn /=; congr ((_ - _) / _).
  by apply: eq_big_nat => j /andP[lt_sj _]; rewrite (r_gt s).
rewrite inv [(s <= a)%N]leq_eqVlt eq_sym (negPf ne_a) /=.
case: ifP => // /andP[lt_sa _]; congr ((_ - _) / _).
by apply: eq_big_nat => j /andP[lt_aj _]; rewrite (r_gt a) // ltnW.
Qed.

Lemma bwd_loop A n x t z : (t <= n)%N ->
  bs_inv A n x z t ->
  bs_inv A n x (foldl (backward_row A n) z (rev (iota 0 t))) 0.
Proof.
elim: t z => [|t IH] z le_t inv //.
rewrite iota_rcons rev_rcons add0n /=.
by apply: IH; [exact: ltnW | exact: bwd_step].
Qed.

Lemma backwardSubstitutionP A x n a : (a < n)%N ->
  nth 0 (backwardSubstitution A x n) a =
  (nth 0 x a -
   \sum_(a.+1 <= j < n) mget A a j * nth 0 (backwardSubstitution A x n) j)
  / mget A a a.
Proof.
move=> lt_a; have n_gt0 : (0 < n)%N by apply: leq_ltn_trans lt_a.
rewrite /backwardSubstitution.
set x0 := set_nth 0 x _ _.
have inv0 : bs_inv A n x x0 (n - 1).
  move=> a'; rewrite /x0 nth_set_nth /= subn1.
  have [->|ne_a'] := eqVneq a' n.-1.
    by rewrite leqnn prednK // leqnn /= big_geq ?subr0 // prednK.
  case: ifP => // /andP[le_a' lt_a'].
  by move: ne_a'; rewrite eqn_leq le_a' -ltnS prednK // lt_a'.
have := bwd_loop (leq_subr 1 n) inv0 a.
by rewrite leq0n lt_a.
Qed.

End Backward.

Section Solve.

Variable F : realFieldType.
Implicit Types (m mat A : matrix F) (x y z b : seq F) (i j k t c : nat).
Implicit Types (st : lu_state F) (p : seq nat).

Lemma mulmx_cvE n (M : 'M[F]_n) (f : nat -> nat -> F) :
  (forall (i k : 'I_n), M i k = f i k) ->
  forall x (i : 'I_n) (c : 'I_1),
    (M *m cv x n) i c = \sum_(0 <= k < n) f i k * nth 0 x k.
Proof.
by move=> ME x i c; rewrite mxE big_mkord; apply: eq_bigr => k _; rewrite ME mxE.
Qed.

Lemma forward_mx A x n :
  Lmx A n *m cv (forwardSubstitution A x n) n = cv x n.
Proof.
apply/matrixP => i c; set y := forwardSubstitution A x n.
have LE (i' k : 'I_n) : Lmx A n i' k = Lent A i' k by rewrite mxE.
rewrite (mulmx_cvE LE).
rewrite [RHS]mxE (big_cat_nat (n := i)) ?(ltnW (ltn_ord i)) //=.
rewrite [X in _ + X]big_ltn //.
have -> : \sum_(i.+1 <= k < n) Lent A i k * nth 0 y k = 0.
  rewrite big_nat_cond big1 // => k /andP[/andP[lt_ik _] _].
  by rewrite /Lent ltnNge (ltnW lt_ik) /= (gtn_eqF lt_ik) mul0r.
rewrite addr0 /Lent ltnn eqxx mul1r.
have -> : \sum_(0 <= k < i)
            (if (k < i)%N then mget A i k else if k == i then 1 else 0) *
            nth 0 y k = \sum_(0 <= k < i) mget A i k * nth 0 y k.
  by apply: eq_big_nat => k /andP[_ ->].
have yi := forwardSubstitutionP A x (ltn_ord i); rewrite -/y in yi.
by rewrite addrC {1}yi subrK.
Qed.

Lemma backward_mx A y n :
  (forall i, (i < n)%N -> mget A i i != 0) ->
  Umx A n *m cv (backwardSubstitution A y n) n = cv y n.
Proof.
move=> dg; apply/matrixP => i c; set z := backwardSubstitution A y n.
have UE (i' k : 'I_n) : Umx A n i' k = Uent A i' k by rewrite mxE.
rewrite (mulmx_cvE UE) [RHS]mxE (big_cat_nat (n := i)) ?(ltnW (ltn_ord i)) //=.
have -> : \sum_(0 <= k < i) Uent A i k * nth 0 z k = 0.
  rewrite big_nat_cond big1 // => k /andP[/andP[_ lt_ki] _].
  by rewrite /Uent leqNgt lt_ki mul0r.
rewrite add0r big_ltn // /Uent leqnn.
have -> : \sum_(i.+1 <= k < n)
            (if (i <= k)%N then mget A i k else 0) * nth 0 z k =
          \sum_(i.+1 <= k < n) mget A i k * nth 0 z k.
  by apply: eq_big_nat => k /andP[/ltnW -> _].
have zi := backwardSubstitutionP A y (ltn_ord i); rewrite -/z in zi.
by rewrite {1}zi mulrC divfK ?dg // subrK.
Qed.

End Solve.

Section SolveSystem.

Variable F : realFieldType.
Implicit Types (m mat A : matrix F) (x y z b : seq F) (i j k t c : nat).
Implicit Types (st : lu_state F) (p : seq nat).

Lemma size_foldl (T : Type) (f : seq T -> nat -> seq T) ks (s : seq T) n :
  (forall u k, k \in ks -> size u = n -> size (f u k) = n) ->
  size s = n -> size (foldl f s ks) = n.
Proof.
elim: ks s => [|k ks IH] s Hf sz //=.
apply: IH; last by apply: Hf; rewrite ?mem_head.
by move=> u k' in_k'; apply: Hf; rewrite inE in_k' orbT.
Qed.

Lemma size_set_nth_in (T : Type) (x0 : T) (s : seq T) i v n :
  (i < n)%N -> size s = n -> size (set_nth x0 s i v) = n.
Proof. by move=> lt_i sz; rewrite size_set_nth sz; apply/maxn_idPr. Qed.

Lemma size_forwardSubstitution A x n :
  size x = n -> size (forwardSubstitution A x n) = n.
Proof.
rewrite /forwardSubstitution; case: n => [|n]; first by [].
rewrite subn1 /=; apply: size_foldl => y i; rewrite mem_iota add1n ltnS.
case/andP=> _ lt_i.
by apply: size_foldl => y' j _; apply: size_set_nth_in.
Qed.

Lemma size_backwardSubstitution A x n :
  (0 < n)%N -> size x = n -> size (backwardSubstitution A x n) = n.
Proof.
move=> n_gt0 sz; rewrite /backwardSubstitution.
apply: size_foldl => [y i|]; last first.
  by apply: size_set_nth_in => //; rewrite subn1 prednK.
rewrite mem_rev mem_iota add0n /= => lt_i sz_y.
have lt_in : (i < n)%N by apply: leq_trans lt_i (leq_subr 1 n).
apply: size_set_nth_in => //.
by apply: size_foldl => // y' j _; apply: size_set_nth_in.
Qed.

(** The permutation step writes the entries before [n] only. *)
Lemma permute_rhs_frame p b n k :
  (n <= k)%N -> nth 0 (permute_rhs p b n).1 k = nth 0 b k.
Proof.
rewrite /permute_rhs => le_k.
have H t : (t <= k)%N ->
    nth 0 (foldl (permute_step p) (b, take n b) (iota 0 t)).1 k = nth 0 b k.
  elim: t => [|t IH] lt_t //; rewrite foldl_iotaS add0n.
  case: foldl (IH (ltnW lt_t)) => v v_old /= vE.
  by rewrite nth_set_nth /= (gtn_eqF lt_t).
exact: H.
Qed.

Lemma size_permute_rhs p b n : size b = n -> size (permute_rhs p b n).1 = n.
Proof.
move=> sz_b; rewrite /permute_rhs.
have H t : (t <= n)%N ->
    size (foldl (permute_step p) (b, take n b) (iota 0 t)).1 = n.
  elim: t => [|t IH] lt_t //; rewrite foldl_iotaS add0n.
  by case: foldl (IH (ltnW lt_t)) => v v_old /= sz_v; apply: size_set_nth_in.
exact: H.
Qed.


End SolveSystem.
Section Outcome.

Variable F : realFieldType.
Implicit Types (m mat A : matrix F) (x y z : seq F) (i j k t c : nat).
Implicit Types (st : lu_state F) (p : seq nat).

Lemma LUDecomp_Ok_unit A n st : LUDecomp A n = Ok st -> mx_of A n \in unitmx.
Proof.
move=> E; have inv := crout_upto_inv (leqnn n) E.
have [_ _ dg detE] := lu_inv_final inv.
rewrite unitmxE unitfE detE mulf_neq0 //.
  by case: (lu_parity st); rewrite ?oppr_eq0 oner_neq0.
by rewrite det_Umx; apply/prodf_neq0 => i _; apply: dg.
Qed.

Lemma crout_upto_prefix A n j st :
  crout_upto A n j = Ok st ->
  forall i, (i <= j)%N -> exists sti, crout_upto A n i = Ok sti.
Proof.
elim: j st => [|j IH] st E i.
  by rewrite leqn0 => /eqP ->; exists st.
rewrite leq_eqVlt ltnS => /orP[/eqP ->|le_i]; first by exists st.
move: E; rewrite crout_uptoS; case E: crout_upto => [stj|] // _.
exact: IH E _ le_i.
Qed.

(** Column [c] leaves the entries above row [c] outside column [c] alone. *)
Lemma crout_column_above n st c st' a b :
  (c < n)%N -> crout_column n st c = Ok st' ->
  (a < c)%N -> b != c -> (b < n)%N ->
  mget (lu_mat st') a b = mget (lu_mat st) a b.
Proof.
move=> lt_c; rewrite /crout_column.
have := crout_elim (lu_mat st) (lu_scaling st) lt_c.
case: pivot_search => [[m2 pv] pr] [/andP[le_cpr _] frame _ _ _].
case: ifP => // _ [<-] lt_a ne_b lt_b /=.
set st2 := LUState m2 _ _ _.
have [m3E _ _ _ _] := permute_rowsP n st2 pr c.
by rewrite mget_divide_lower (negPf ne_b) /= m3E lt_b tr2_id //= frame.
Qed.

(** Column [c] puts the selected pivot, which is not zero, at ([c], [c]). *)
Lemma crout_column_pivot n st c st' :
  (c < n)%N -> crout_column n st c = Ok st' ->
  mget (lu_mat st') c c = selected_pivot n st c /\ selected_pivot n st c != 0.
Proof.
move=> lt_c; rewrite /crout_column /selected_pivot.
case: pivot_search => [[m2 pv] pr].
case: ifP => // /negbT nz [<-] /=; split=> //.
set st2 := LUState m2 _ _ _.
have [m3E _ _ _ _] := permute_rowsP n st2 pr c.
by rewrite mget_divide_lower ltnn andbF m3E lt_c /tr2 eqxx.
Qed.

Lemma crout_upto_diag A n j t st stt :
  (j < t)%N -> (t <= n)%N ->
  crout_upto A n j.+1 = Ok st -> crout_upto A n t = Ok stt ->
  mget (lu_mat stt) j j = mget (lu_mat st) j j.
Proof.
move=> lt_jt le_tn E; elim: t stt lt_jt le_tn => [|t IH] stt //.
rewrite ltnS leq_eqVlt => /orP[/eqP <-|lt_jt] lt_tn.
  by rewrite E => -[->].
rewrite crout_uptoS; case Et: crout_upto => [st0|] // Hcol.
rewrite (crout_column_above lt_tn Hcol) ?(ltn_eqF lt_jt) //.
  exact: ltn_trans lt_jt lt_tn.
exact: IH _ lt_jt (ltnW lt_tn) Et.
Qed.

End Outcome.
Section DenseClaims.

Variable F : realFieldType.
Implicit Types (m mat A : matrix F) (x y z : seq F) (i j k t c : nat).
Implicit Types (st : lu_state F) (p : seq nat).

Lemma crout_columnE n st j st' : crout_column n st j = Ok st' ->
  let m2 := pivot_matrix n st j in
  let pr := pivot_row_of n st j in
  [/\ mget m2 pr j != 0,
      lu_mat st' = divide_lower (if pr != j then swap_rows m2 n pr j else m2) n j,
      lu_perm st' = (if pr != j then swap_nth 0%N (lu_perm st) j pr
                     else lu_perm st),
      lu_scaling st' = (if pr != j then swap_nth 0 (lu_scaling st) j pr
                        else lu_scaling st)
    & lu_parity st' = (if pr != j then ~~ lu_parity st else lu_parity st)].
Proof.
rewrite /crout_column /pivot_matrix /pivot_row_of.
case: pivot_search => [[m2 pv] pr] /=.
case: ifP => // /negbT nz [<-]; rewrite /permute_rows.
by case: (pr != j).
Qed.

Lemma size_swap_nth (T : Type) (x0 : T) (s : seq T) a b :
  (a < size s)%N -> (b < size s)%N -> size (swap_nth x0 s a b) = size s.
Proof.
move=> lt_a lt_b; rewrite /swap_nth !size_set_nth.
by rewrite (maxn_idPr lt_a) (maxn_idPr lt_b).
Qed.

Lemma map_swap_nth (f : nat -> nat) p a b :
  (a < size p)%N -> (b < size p)%N ->
  [seq f i | i <- swap_nth 0%N p a b] = swap_nth 0%N [seq f i | i <- p] a b.
Proof.
move=> lt_a lt_b; apply: (@eq_from_nth _ 0%N).
  by rewrite size_map !size_swap_nth ?size_map.
move=> i; rewrite size_map size_swap_nth // => lt_i.
rewrite (nth_map 0%N) ?size_swap_nth // !nth_swap_nth.
by case: ifP => _; [|case: ifP => _]; rewrite (nth_map 0%N).
Qed.

Lemma pivot_row_range n st j :
  (j < n)%N -> (j <= pivot_row_of n st j < n)%N.
Proof.
move=> lt_j; rewrite /pivot_row_of.
have := crout_elim (lu_mat st) (lu_scaling st) lt_j.
by case: pivot_search => [[m2 pv] pr] [].
Qed.

(** What [perm] holds: the order of the rows seen through the array that
    line 54 leaves, 0 for the rows 0 and 1 of the input and [r - 1] for a
    later row [r]. *)
Lemma crout_upto_perm A n j st :
  (j <= n)%N -> crout_upto A n j = Ok st ->
  lu_perm st = [seq r.-1 | r <- row_order A n j].
Proof.
elim: j st => [|j IH] st le_j.
  rewrite /crout_upto /=; have := lu_initP A n.
  by case: lu_init => // st0 [_ _ pE _] [<-]; rewrite pE fill_permE.
rewrite crout_uptoS; case E: crout_upto => [st0|] // Hcol.
have [_ _ -> _ _] := crout_columnE Hcol.
rewrite (row_orderS E) (IH _ (ltnW le_j) E).
case: ifP => // _; rewrite map_swap_nth //.
  by rewrite (inv_size (crout_upto_inv (ltnW le_j) E)).
rewrite (inv_size (crout_upto_inv (ltnW le_j) E)).
by have /andP[] := pivot_row_range st0 le_j.
Qed.

Lemma lu_perm_range A n j st :
  (j <= n)%N -> crout_upto A n j = Ok st ->
  size (lu_perm st) = n /\
  forall i, (i < n)%N -> (nth 0%N (lu_perm st) i < n)%N.
Proof.
move=> le_j E; have inv := crout_upto_inv le_j E.
rewrite (crout_upto_perm le_j E) size_map (inv_size inv); split=> // i lt_i.
rewrite (nth_map 0%N) ?(inv_size inv) //.
exact: leq_ltn_trans (leq_pred _) (inv_range inv lt_i).
Qed.

(** C10: after a successful [LUDecomp] every diagonal entry is nonzero, so
    every division of [backwardSubstitution] has a nonzero divisor: the entry
    at (i, i) is the pivot selected in column [i], which passed the test
    against zero and is left alone by the later columns. *)
Theorem LUDecomp_diagonal_nonzero A n st :
  square n A -> (0 < n)%N -> LUDecomp A n = Ok st ->
  all (fun d => d != 0) (backward_divisors (lu_mat st) n) /\
  forall i, (i < n)%N ->
    mget (lu_mat st) i i != 0 /\
    exists2 sti, crout_upto A n i = Ok sti
               & mget (lu_mat st) i i = selected_pivot n sti i.
Proof.
move=> _ n_gt0 E; have inv := crout_upto_inv (leqnn n) E.
have dg i : (i < n)%N -> mget (lu_mat st) i i != 0 by apply: inv_diag inv i.
split.
  rewrite /backward_divisors /= dg ?subn1 ?prednK //= all_map.
  apply/allP => i; rewrite mem_rev mem_iota add0n /= => lt_i.
  by apply: dg; apply: leq_trans lt_i (leq_pred n).
move=> i lt_i; split; first exact: dg.
have [sti Ei] := crout_upto_prefix E (ltnW lt_i).
have [sti' Ei'] := crout_upto_prefix E lt_i.
exists sti => //; rewrite (crout_upto_diag lt_i (leqnn n) Ei' E).
move: Ei'; rewrite crout_uptoS Ei => Hcol.
by have [] := crout_column_pivot lt_i Hcol.
Qed.

(** C3: [LUDecomp] throws exactly in two cases: some row of the input is
    entirely zero (the null-row exception, thrown by the scaling pass, before
    Crout's algorithm starts), or, with no null row, the pivot selected in
    some column is exactly zero (the singularity exception).  The test is
    against exact zero only: with no null row and every selected pivot
    nonzero, the decomposition succeeds. *)
Theorem LUDecomp_error_iff A n :
  square n A ->
  [/\ forall e, LUDecomp A n = Err e <->
        (e = NullRow /\ exists2 i, (i < n)%N & null_row A n i) \/
        [/\ e = Singular, forall i, (i < n)%N -> ~~ null_row A n i
          & exists j stj, [/\ (j < n)%N, crout_upto A n j = Ok stj
                            & selected_pivot n stj j = 0]],
      LUDecomp A n = Err NullRow <-> scaling_pass A n = Err NullRow
    & (forall i, (i < n)%N -> ~~ null_row A n i) ->
      (forall j stj, (j < n)%N -> crout_upto A n j = Ok stj ->
         selected_pivot n stj j != 0) ->
      exists st, LUDecomp A n = Ok st].
Proof.
move=> _.
have nullE : LUDecomp A n = Err NullRow <->
             exists2 i, (i < n)%N & null_row A n i.
  split=> [/crout_upto_NullRow/lu_init_Err[]|nr] //.
  by apply/crout_upto_NullRow/lu_init_Err.
have singE : LUDecomp A n = Err Singular ->
             forall i, (i < n)%N -> ~~ null_row A n i.
  case/crout_upto_Singular=> j [stj [_ Ej _]].
  exact: crout_upto_Ok_nonnull Ej.
split.
- move=> e; split.
    case: e => [/nullE nr|Es]; first by left.
    by right; split=> //; [exact: singE | exact/crout_upto_Singular].
  case=> [[-> nr]|[-> _ sing]]; first exact/nullE.
  exact/crout_upto_Singular.
- split=> [/crout_upto_NullRow|Es].
    by rewrite /lu_init; case: scaling_pass => // e [->].
  by apply/crout_upto_NullRow; rewrite /lu_init Es.
- move=> nn piv; case E: (LUDecomp A n) => [st|e]; first by exists st.
  case: e E => [/nullE[i lt_i nr]|/crout_upto_Singular[j [stj [lt_j Ej p0]]]].
    by have := nn i lt_i; rewrite nr.
  by have := piv j stj lt_j Ej; rewrite p0 eqxx.
Qed.

End DenseClaims.
Section VectorRhs.

Variable F : realFieldType.
Implicit Types (A : matrix F) (x : seq (seq F)) (i j k t r e dd dim : nat).

Lemma size_mset (m : matrix F) i j v :
  (i < size m)%N -> size (mset m i j v) = size m.
Proof. by move=> lt_i; rewrite /mset size_set_nth; apply/maxn_idPr. Qed.

Lemma vget_axpy_vec A dim i x j r e : i != j ->
  vget (axpy_vec A dim i x j) r e =
  if (r == i) && (e < dim)%N then vget x i e - mget A i j * vget x j e
  else vget x r e.
Proof.
move=> ne_ij; rewrite /axpy_vec /vget /vset; elim: dim r e => [|t IH] r e.
  by rewrite andbF.
rewrite foldl_iotaS add0n mget_mset !IH eqxx ltnn /=.
rewrite [j == i]eq_sym (negPf ne_ij) /= ltnS [(e <= t)%N]leq_eqVlt.
by case: (r == i); case: eqVneq => [->|].
Qed.

Lemma vget_divide_vec A dim i x r e :
  vget (divide_vec A dim i x) r e =
  if (r == i) && (e < dim)%N then vget x i e / mget A i i else vget x r e.
Proof.
rewrite /divide_vec /vget /vset; elim: dim r e => [|t IH] r e.
  by rewrite andbF.
rewrite foldl_iotaS add0n mget_mset !IH eqxx ltnn /=.
rewrite ltnS [(e <= t)%N]leq_eqVlt.
by case: (r == i); case: eqVneq => [->|].
Qed.

Lemma size_axpy_vec A dim i x j :
  (i < size x)%N -> size (axpy_vec A dim i x j) = size x.
Proof.
move=> lt_i; rewrite /axpy_vec; elim: dim => [|t IH] //.
by rewrite foldl_iotaS /vset size_mset IH.
Qed.

Lemma size_divide_vec A dim i x :
  (i < size x)%N -> size (divide_vec A dim i x) = size x.
Proof.
move=> lt_i; rewrite /divide_vec; elim: dim => [|t IH] //.
by rewrite foldl_iotaS /vset size_mset IH.
Qed.

Lemma nth_component dd x r : nth 0 (component dd x) r = vget x r dd.
Proof.
rewrite /component /vget /mget; have [lt_r|le_r] := ltnP r (size x).
  by rewrite (nth_map [::]).
by rewrite !nth_default ?size_map // nth_nil.
Qed.

Lemma component_axpy_vec A dim dd i x j :
  (i < size x)%N -> i != j -> (dd < dim)%N ->
  component dd (axpy_vec A dim i x j) =
  set_nth 0 (component dd x) i
    (nth 0 (component dd x) i - mget A i j * nth 0 (component dd x) j).
Proof.
move=> lt_i ne_ij lt_dd; apply: (@eq_from_nth _ 0).
  rewrite size_set_nth !size_map size_axpy_vec //.
  by symmetry; apply/maxn_idPr.
move=> r _; rewrite nth_set_nth /= !nth_component vget_axpy_vec // lt_dd andbT.
by case: eqP.
Qed.

Lemma component_divide_vec A dim dd i x :
  (i < size x)%N -> (dd < dim)%N ->
  component dd (divide_vec A dim i x) =
  set_nth 0 (component dd x) i (nth 0 (component dd x) i / mget A i i).
Proof.
move=> lt_i lt_dd; apply: (@eq_from_nth _ 0).
  rewrite size_set_nth !size_map size_divide_vec //.
  by symmetry; apply/maxn_idPr.
move=> r _; rewrite nth_set_nth /= !nth_component vget_divide_vec lt_dd andbT.
by case: eqP.
Qed.

(** A loop on the array of vectors and a loop on one component that agree
    turn by turn agree at the end. *)
Lemma foldl_component dd n (fv : seq (seq F) -> nat -> seq (seq F))
    (fs : seq F -> nat -> seq F) ks :
  (forall x k, k \in ks -> size x = n ->
     size (fv x k) = n /\ component dd (fv x k) = fs (component dd x) k) ->
  forall x, size x = n ->
    size (foldl fv x ks) = n /\
    component dd (foldl fv x ks) = foldl fs (component dd x) ks.
Proof.
elim: ks => [|k ks IH] step x sz //=.
have [sz1 c1] := step x k (mem_head _ _) sz.
have step' x' k' : k' \in ks -> size x' = n ->
    size (fv x' k') = n /\ component dd (fv x' k') = fs (component dd x') k'.
  by move=> in_k'; apply: step; rewrite inE in_k' orbT.
by have [sz2 ->] := IH step' _ sz1; rewrite c1.
Qed.

(** C8: the overloads of the substitutions on an array of vectors compute,
    on every component [dd], what the scalar overloads compute on that
    component of the input. *)
Theorem substitution_vec_componentwise A x n dim dd :
  square n A -> (0 < n)%N -> size x = n ->
  all (fun v => size v == dim) x -> (dd < dim)%N ->
  component dd (forwardSubstitution_vec A x n)
    = forwardSubstitution A (component dd x) n /\
  component dd (backwardSubstitution_vec A x n)
    = backwardSubstitution A (component dd x) n.
Proof.
move=> _ n_gt0 sz /all_nthP rows lt_dd.
have dimE : size (nth [::] x 0) = dim by apply/eqP/rows; rewrite sz.
have elim_sim i js y : (i < n)%N -> i \notin js -> size y = n ->
    size (foldl (axpy_vec A dim i) y js) = n /\
    component dd (foldl (axpy_vec A dim i) y js)
      = eliminate A i (component dd y) js.
  move=> lt_i nin sz_y; apply: foldl_component => // y' j in_j sz_y'.
  have ne_ij : i != j by apply: contraNneq nin => ->.
  by rewrite size_axpy_vec ?component_axpy_vec ?sz_y'.
split.
- rewrite /forwardSubstitution_vec /forwardSubstitution dimE.
  have step y i : i \in iota 1 (n - 1) -> size y = n ->
      size (foldl (axpy_vec A dim i) y (iota 0 i)) = n /\
      component dd (foldl (axpy_vec A dim i) y (iota 0 i))
        = forward_row A (component dd y) i.
    rewrite mem_iota subnKC // => /andP[_ lt_i] sz_y.
    by apply: elim_sim => //; rewrite mem_iota add0n ltnn.
  by have [] := foldl_component step sz.
- rewrite /backwardSubstitution_vec /backwardSubstitution dimE.
  have lt_last : (n - 1 < n)%N by rewrite subn1 prednK.
  rewrite -(@component_divide_vec _ dim) ?sz //.
  have step y i : i \in rev (iota 0 (n - 1)) -> size y = n ->
      size (divide_vec A dim i
              (foldl (axpy_vec A dim i) y (iota i.+1 (n - i.+1)))) = n /\
      component dd
        (divide_vec A dim i
           (foldl (axpy_vec A dim i) y (iota i.+1 (n - i.+1))))
        = backward_row A n (component dd y) i.
    rewrite mem_rev mem_iota add0n /= => lt_i sz_y.
    have lt_in : (i < n)%N by apply: leq_trans lt_i (leq_subr 1 n).
    have nin : i \notin iota i.+1 (n - i.+1) by rewrite mem_iota ltnn.
    have [sz1 c1] := elim_sim i _ y lt_in nin sz_y.
    by rewrite size_divide_vec ?component_divide_vec ?sz1 // c1.
  have sz0 : size (divide_vec A dim (n - 1) x) = n.
    by rewrite size_divide_vec ?sz.
  by have [] := foldl_component step sz0.
Qed.

End VectorRhs.
Section SparseTheory.

Variable F : realFieldType.
Implicit Types (s : SolveCG F) (sx sy : seq F) (k ki kj t : nat).

Lemma accumulate_loop (g : nat -> F) kj ks sy a :
  nth 0 (foldl (fun sy ki => set_nth 0 sy kj (nth 0 sy kj + g ki)) sy ks) a =
  if a == kj then nth 0 sy kj + \sum_(ki <- ks) g ki else nth 0 sy a.
Proof.
elim: ks sy => [|ki ks IH] sy /=.
  by rewrite big_nil addr0; case: eqP => // ->.
rewrite IH !nth_set_nth /= eqxx big_cons addrA.
by case: eqP.
Qed.

Lemma product_rowE s sx sy kj a :
  nth 0 (product_row s sx sy kj) a =
  if a == kj then row_sum s sx kj else nth 0 sy a.
Proof.
rewrite /product_row.
rewrite (accumulate_loop
           (fun ki => nth 0 (A_ s) ki * nth 0 sx (nth 0%N (jcol_ s) ki))).
by rewrite !nth_set_nth /= eqxx add0r; case: eqP.
Qed.

Lemma matrixProduct_upto s sx sy t a :
  nth 0 (foldl (product_row s sx) sy (iota 0 t)) a =
  if (a < t)%N then row_sum s sx a else nth 0 sy a.
Proof.
elim: t => [|t IH] //; rewrite foldl_iotaS add0n product_rowE IH.
by rewrite ltnS [(a <= t)%N]leq_eqVlt; case: eqVneq => [->|].
Qed.

Lemma row_sum_entries s sx k :
  row_sum s sx k = \sum_(e <- row_entries s k) e.1 * nth 0 sx e.2.
Proof. by rewrite /row_entries big_map. Qed.

Lemma matrixProduct_sums s sx sy :
  (forall k, (k < nn_ s)%N ->
     nth 0 (matrixProduct s sx sy) k =
     \sum_(nth 0%N (irow_ s) k <= ki < nth 0%N (irow_ s) k.+1)
        nth 0 (A_ s) ki * nth 0 sx (nth 0%N (jcol_ s) ki)) /\
  (forall s' sy',
     csr_wf s' -> nn_ s' = nn_ s -> size sy' = nn_ s ->
     (forall k, (k < nn_ s)%N -> perm_eq (row_entries s' k) (row_entries s k)) ->
     forall k, (k < nn_ s)%N ->
       nth 0 (matrixProduct s' sx sy') k = nth 0 (matrixProduct s sx sy) k).
Proof.
split=> [k lt_k|s' sy' _ nnE _ pe k lt_k].
  by rewrite /matrixProduct matrixProduct_upto lt_k.
rewrite /matrixProduct !matrixProduct_upto nnE lt_k !row_sum_entries.
exact: perm_big (pe k lt_k).
Qed.

End SparseTheory.

Section SparseAny.

Variable R : arith.
Implicit Types (s : SolveCG R) (sx sy : seq R) (k ki kj t : nat).

Local Open Scope arith_scope.

Lemma accumulate_slots (g : nat -> R) kj ks sy a :
  nth 0 (foldl (fun sy ki => set_nth 0 sy kj (nth 0 sy kj + g ki)) sy ks) a =
  if a == kj then foldl (fun acc ki => acc + g ki) (nth 0 sy kj) ks
  else nth 0 sy a.
Proof.
elim: ks sy => [|ki ks IH] sy /=; first by case: eqP => // ->.
by rewrite IH !nth_set_nth /= eqxx; case: eqP.
Qed.

Lemma foldl_through (S T U : Type) (f : S -> U -> S) (h : T -> U) z ts :
  foldl f z [seq h x | x <- ts] = foldl (fun acc x => f acc (h x)) z ts.
Proof. by elim: ts z => [|x ts IH] z //=. Qed.

Lemma accumulate_entries sx s kj :
  accumulate sx (row_entries s kj) =
  foldl (fun acc ki =>
           acc + nth 0 (A_ s) ki * nth 0 sx (nth 0%N (jcol_ s) ki))
        0 (iota (nth 0%N (irow_ s) kj)
                (nth 0%N (irow_ s) kj.+1 - nth 0%N (irow_ s) kj)).
Proof.
by rewrite /accumulate /row_entries foldl_through.
Qed.

Lemma product_row_accumulate s sx sy kj a :
  nth 0 (product_row s sx sy kj) a =
  if a == kj then accumulate sx (row_entries s kj) else nth 0 sy a.
Proof.
rewrite /product_row accumulate_entries.
rewrite (accumulate_slots
           (fun ki => nth 0 (A_ s) ki * nth 0 sx (nth 0%N (jcol_ s) ki))).
by rewrite !nth_set_nth /= eqxx; case: eqP.
Qed.

Lemma matrixProduct_accumulate s sx sy t a :
  nth 0 (foldl (product_row s sx) sy (iota 0 t)) a =
  if (a < t)%N then accumulate sx (row_entries s a) else nth 0 sy a.
Proof.
elim: t => [|t IH] //; rewrite foldl_iotaS add0n product_row_accumulate IH.
by rewrite ltnS [(a <= t)%N]leq_eqVlt; case: eqVneq => [->|].
Qed.

End SparseAny.

(** C5: [matrixProduct] leaves in [sy[k]], for every row [k < nn_], the
    products [A_[ki] * sx[jcol_[ki]]] of the slots [ki] of the row, from
    [irow_[k]] up to [irow_[k+1]], added one after the other, in the order
    of the slots, to [0.0], in the arithmetic of [double] as in any other;
    in exact arithmetic this is the sum over the slots, and a structure
    whose rows hold the same entries with their column indices in another
    order gives the same values. *)
Theorem matrixProduct_csr :
  (forall (R : arith) (s : SolveCG R) (sx sy : seq R),
     csr_wf s -> size sx = nn_ s -> size sy = nn_ s ->
     forall k, (k < nn_ s)%N ->
       nth (n_zero R) (matrixProduct s sx sy) k
       = accumulate sx (row_entries s k)) /\
  (forall (F : realFieldType) (s : SolveCG F) (sx sy : seq F),
     csr_wf s -> size sx = nn_ s -> size sy = nn_ s ->
     (forall k, (k < nn_ s)%N ->
        nth 0 (matrixProduct s sx sy) k =
        \sum_(nth 0%N (irow_ s) k <= ki < nth 0%N (irow_ s) k.+1)
           nth 0 (A_ s) ki * nth 0 sx (nth 0%N (jcol_ s) ki)) /\
     (forall (s' : SolveCG F) (sy' : seq F),
        csr_wf s' -> nn_ s' = nn_ s -> size sy' = nn_ s ->
        (forall k, (k < nn_ s)%N ->
           perm_eq (row_entries s' k) (row_entries s k)) ->
        forall k, (k < nn_ s)%N ->
          nth 0 (matrixProduct s' sx sy') k
          = nth 0 (matrixProduct s sx sy) k)).
Proof.
split=> [R s sx sy _ _ _ k lt_k|F s sx sy _ _ _].
  by rewrite /matrixProduct matrixProduct_accumulate lt_k.
exact: matrixProduct_sums.
Qed.
Section AttachTheory.

Variable F : realFieldType.
Implicit Types (s : SolveCG F) (sx sy gmat : seq F) (k ki kj t nn : nat).

Lemma attach_rows gmat nn t :
  let: (a, jcol, irow) :=
    foldl (attach_row gmat nn) ([::], [::], [::]) (iota 0 t) in
  [/\ size irow = t, size jcol = size a,
      forall k, (k < t)%N -> (nth 0%N irow k <= size a)%N,
      all (fun j => (j < nn)%N) jcol
    & forall k, (k < t)%N ->
        slot_entries a jcol irow t k = row_nonzeros gmat nn k].
Proof.
elim: t => [|t]; first by split.
rewrite foldl_iotaS add0n.
case: foldl => [[a jcol] irow] [sz_ir sz_jc le_ir lt_jc rowE].
rewrite /attach_row; set nz := row_nonzeros gmat nn t.
have newE : [seq (nth 0 (a ++ [seq e.1 | e <- nz]) ki,
                  nth 0%N (jcol ++ [seq e.2 | e <- nz]) ki)
            | ki <- iota (size a) (size nz)] = nz.
  apply: (@eq_from_nth _ (0, 0%N)); first by rewrite size_map size_iota.
  move=> i; rewrite size_map size_iota => lt_i.
  rewrite (nth_map 0%N) ?size_iota // nth_iota // !nth_cat.
  rewrite -sz_jc ltnNge leq_addr /= addKn.
  by rewrite (nth_map (0, 0%N)) // (nth_map (0, 0%N)) //; case: (nth _ _ _).
split.
- by rewrite size_rcons sz_ir.
- by rewrite !size_cat !size_map sz_jc.
- move=> k; rewrite ltnS leq_eqVlt nth_rcons sz_ir size_cat.
  case/orP=> [/eqP ->|lt_k]; first by rewrite ltnn eqxx leq_addr.
  by rewrite lt_k (leq_trans (le_ir k lt_k)) // leq_addr.
- rewrite all_cat lt_jc /= all_map /nz /row_nonzeros all_map.
  by apply/allP => j; rewrite mem_filter mem_iota => /andP[_ /andP[_]].
- move=> k; rewrite ltnS leq_eqVlt => /orP[/eqP ->|lt_k].
    rewrite /slot_entries ltnn !nth_rcons sz_ir ltnn eqxx.
    by rewrite size_cat size_map addKn newE.
  rewrite -(rowE k lt_k) /slot_entries !nth_rcons sz_ir lt_k ltnS lt_k.
  set hi := if (k.+1 < t)%N then nth 0%N irow k.+1 else size a.
  have -> : (if (k.+1 < t)%N then nth 0%N irow k.+1
             else if k.+1 == t then size a else 0%N) = hi.
    rewrite /hi; case: ltnP => // le_t.
    by have -> : k.+1 == t by rewrite eqn_leq lt_k le_t.
  have le_hi : (hi <= size a)%N.
    by rewrite /hi; case: ltnP => // lt_k1; apply: le_ir.
  apply/eq_in_map => ki; rewrite mem_iota => /andP[le_lo].
  have [le_lohi|/ltnW gt] := leqP (nth 0%N irow k) hi; last first.
    by move: gt; rewrite -subn_eq0 => /eqP ->; rewrite addn0 ltnNge le_lo.
  rewrite subnKC // => lt_ki.
  have lt_a : (ki < size a)%N := leq_trans lt_ki le_hi.
  by rewrite !nth_cat sz_jc lt_a.
Qed.

Lemma attachMatrixP s gmat nn :
  let s' := attachMatrix s gmat nn in
  [/\ nn_ s' = nn, size (irow_ s') = nn.+1,
      size (A_ s') = np_ s' /\ size (jcol_ s') = np_ s', csr_wf s'
    & forall k, (k < nn)%N -> row_entries s' k = row_nonzeros gmat nn k].
Proof.
rewrite /attachMatrix; have := attach_rows gmat nn nn.
case: foldl => [[a jcol] irow] [sz_ir sz_jc le_ir lt_jc rowE] /=.
split=> //; first by rewrite size_rcons sz_ir.
  rewrite /csr_wf /= size_rcons sz_ir sz_jc !eqxx lt_jc andbT /=.
  rewrite all_rcons leqnn /=; apply/(all_nthP 0%N) => k.
  by rewrite sz_ir; apply: le_ir.
move=> k lt_k; rewrite -(rowE k lt_k) /row_entries /slot_entries /=.
rewrite !nth_rcons sz_ir lt_k.
case: ltnP => // le_k.
by have -> : k.+1 == nn by rewrite eqn_leq lt_k le_k.
Qed.

End AttachTheory.
Section AttachClaim.

Variable F : realFieldType.
Implicit Types (s : SolveCG F) (sx sy gmat : seq F) (k ki kj t nn : nat).

(** C6, as amended: [attachMatrix] receives the coefficient matrix as one
    dense array of [nn*nn] numbers stored columnwise, with the size [nn]; the
    values, the column indices and the row-start array of length [nn+1] are
    what it builds from the nonzero entries, and the product on the attached
    structure is the product by the dense matrix. *)
Theorem attachMatrix_builds_csr s gmat nn sx sy :
  size gmat = (nn * nn)%N -> size sx = nn -> size sy = nn ->
  let s' := attachMatrix s gmat nn in
  [/\ attachMatrix_parameters = [:: Tpointer Tdouble; Tint],
      nn_ s' = nn /\ size (irow_ s') = nn.+1,
      csr_wf s',
      forall k, (k < nn)%N ->
        row_entries s' k =
        [seq (dense_entry gmat nn k j, j)
        | j <- iota 0 nn & dense_entry gmat nn k j != 0]
    & forall k, (k < nn)%N ->
        nth 0 (matrixProduct s' sx sy) k =
        \sum_(0 <= j < nn) dense_entry gmat nn k j * nth 0 sx j].
Proof.
move=> _ _ _ s'; have [nnE sz_ir szs wf rowE] := attachMatrixP s gmat nn.
split=> // k lt_k.
rewrite /matrixProduct matrixProduct_upto nnE lt_k row_sum_entries rowE //.
rewrite /row_nonzeros big_map big_filter big_mkcond /index_iota subn0 /=.
by apply: eq_bigr => j _; case: eqP => //= ->; rewrite mul0r.
Qed.

End AttachClaim.

Section CrossTangentTheory.

Variable F : realFieldType.
Implicit Types (c : CrossTangentOffset F) (p : Point F) (t : F).

Lemma nth_point_scale (a : F) p k :
  nth 0 (point_scale a p) k = a * nth 0 p k.
Proof.
rewrite /point_scale; case: (ltnP k (size p)) => [lt_k|le_k].
  by rewrite (nth_map 0).
by rewrite !nth_default ?size_map // mulr0.
Qed.

Lemma nth_point_add p p' k :
  size p = size p' -> nth 0 (point_add p p') k = nth 0 p k + nth 0 p' k.
Proof.
move=> sz; rewrite /point_add; case: (ltnP k (size p)) => [lt_k|le_k].
  by rewrite (nth_map (0, 0)) ?size_zip -?sz ?minnn // nth_zip.
by rewrite !nth_default -?sz ?size_map ?size_zip -?sz ?minnn // addr0.
Qed.

(** C7: the blended cross-tangent direction at [t] is
    [blend1(t) * tangcv1(t) + blend2(t) * tangcv2(t)]: a point of the
    dimension of the cross-tangent curves whose every coordinate is the sum
    of the two products; when both blending functions are 1 everywhere and
    the two cross-tangent curves coincide, every coordinate is twice the
    coordinate of the value of the cross-tangent curve at [t]. *)
Theorem evalcrtan_blend c t :
  size (tangcurves_ c) = 2 -> size (blends_ c) = 2 ->
  size (tangent_value c 0 t) = size (tangent_value c 1 t) ->
  [/\ size (evalcrtan c t) = size (tangent_value c 0 t),
      forall k, nth 0 (evalcrtan c t) k =
        blend_value c 0 t * nth 0 (tangent_value c 0 t) k +
        blend_value c 1 t * nth 0 (tangent_value c 1 t) k
    & (forall u, blend_value c 0 u = 1) -> (forall u, blend_value c 1 u = 1) ->
      (forall u, tangent_value c 0 u = tangent_value c 1 u) ->
      evalcrtan c t = [seq 2 * a | a <- tangent_value c 0 t] /\
      forall k, nth 0 (evalcrtan c t) k = 2 * nth 0 (tangent_value c 0 t) k].
Proof.
move=> _ _ sz.
have nthE k : nth 0 (evalcrtan c t) k =
    blend_value c 0 t * nth 0 (tangent_value c 0 t) k +
    blend_value c 1 t * nth 0 (tangent_value c 1 t) k.
  by rewrite /evalcrtan nth_point_add ?size_map // !nth_point_scale.
have szE : size (evalcrtan c t) = size (tangent_value c 0 t).
  by rewrite /evalcrtan /point_add size_map size_zip !size_map -sz minnn.
split=> // b1 b2 same.
have twice k : nth 0 (evalcrtan c t) k = 2 * nth 0 (tangent_value c 0 t) k.
  by rewrite nthE b1 b2 -same !mul1r -mulr2n -mulr_natl.
split=> //; apply: (@eq_from_nth _ 0); first by rewrite szE size_map.
by move=> k _; rewrite twice -/(point_scale 2 _) nth_point_scale.
Qed.

End CrossTangentTheory.

(** * The pivot search and the scaling factors, for any arithmetic *)

Section FirstMax.

Variable R : arith.
Implicit Types (xs : seq R) (i j k t : nat).

Local Open Scope arith_scope.

Lemma first_maxS (key : nat -> R) j t :
  first_max key j t.+1 =
  let acc := first_max key j t in
  if acc.1 < key (j + t)%N then (key (j + t)%N, (j + t)%N) else acc.
Proof. by rewrite /first_max foldl_iotaS. Qed.

(** The row found is [j] or one of the rows searched. *)
Lemma first_max_range (key : nat -> R) j t :
  let pr := (first_max key j t).2 in
  (pr == j) || (j <= pr < j + t)%N.
Proof.
elim: t => [|t IH]; first by rewrite /first_max /= eqxx.
rewrite first_maxS /=; case: ifP => _ /=.
  by rewrite leq_addr addnS ltnS leqnn orbT.
case/orP: IH => [->|/andP[-> lt_pr]] //.
by rewrite addnS ltnS (ltnW lt_pr) orbT.
Qed.

(** What [ordered] says, number by number. *)
Lemma orderedP xs :
  ordered xs ->
  let K x := x = 0 \/ exists2 k, (k < size xs)%N & x = nth 0 xs k in
  [/\ forall k, (k < size xs)%N -> ~~ (nth 0 xs k < 0),
      forall x, K x -> ~~ (x < x),
      forall x y z, K x -> K y -> K z -> x < y -> y < z -> x < z
    & forall x y z, K x -> K y -> K z -> x < z -> (x < y) || (y < z)].
Proof.
case/and3P=> /(all_nthP 0) nonneg /(all_nthP 0) irr /(all_nthP 0) laws K.
pose ys : seq R := 0 :: xs.
have Kin x : K x -> exists2 k, (k < size ys)%N & x = nth 0 ys k.
  by case=> [->|[k lt_k ->]]; [exists 0%N | exists k.+1].
have law x y z : K x -> K y -> K z ->
    ((x < y) && (y < z) ==> (x < z)) && ((x < z) ==> (x < y) || (y < z)).
  move=> /Kin[kx lt_x ->] /Kin[ky lt_y ->] /Kin[kz lt_z ->].
  have /(all_nthP 0)/(_ ky lt_y)/(all_nthP 0)/(_ kz lt_z) := laws kx lt_x.
  by [].
split=> //.
- by move=> x /Kin[k lt_k ->]; apply: irr.
- move=> x y z Kx Ky Kz lt_xy lt_yz.
  by have /andP[/implyP tr _] := law x y z Kx Ky Kz; apply: tr; rewrite lt_xy.
- move=> x y z Kx Ky Kz lt_xz.
  by have /andP[_ /implyP co] := law x y z Kx Ky Kz; apply: co.
Qed.

Section Search.

Variables (key : nat -> R) (j t0 : nat).
Hypothesis ord : ordered [seq key i | i <- iota j t0].

Let K (x : R) : Prop :=
  x = 0 \/ exists2 k, (k < size [seq key i | i <- iota j t0])%N
                     & x = nth 0 [seq key i | i <- iota j t0] k.

Lemma key_known i : (j <= i < j + t0)%N -> K (key i).
Proof.
case/andP=> le_ji lt_i; right; exists (i - j)%N.
  by rewrite size_map size_iota ltn_subLR.
by rewrite (nth_map 0%N) ?size_iota ?ltn_subLR // nth_iota ?ltn_subLR ?subnKC.
Qed.

Lemma key_nonneg i : (j <= i < j + t0)%N -> ~~ (key i < 0).
Proof.
case/andP=> le_ji lt_i; have [nonneg _ _ _] := orderedP ord.
have lt_k : (i - j < size [seq key i | i <- iota j t0])%N.
  by rewrite size_map size_iota ltn_subLR.
have := nonneg _ lt_k.
by rewrite (nth_map 0%N) ?size_iota ?ltn_subLR // nth_iota ?ltn_subLR ?subnKC.
Qed.

(** The search after [t] rows. *)
Lemma first_max_upto t :
  (t <= t0)%N ->
  let: (pv, pr) := first_max key j t in
  [/\ (pr = j /\ pv = 0 /\
       forall i, (j <= i < j + t)%N -> ~~ (0 < key i)) \/
      ((j <= pr < j + t)%N /\ pv = key pr),
      forall i, (j <= i < j + t)%N -> ~~ (pv < key i)
    & forall i, (j <= i < pr)%N -> key i < pv].
Proof.
have [_ irr trans cotrans] := orderedP ord.
have K0 : K 0 by left.
elim: t => [|t IH] le_t.
  rewrite /first_max /=; split=> [|i|i]; rewrite ?addn0.
  - by left; split=> //; split=> // i; case: ltngtP.
  - by case: ltngtP.
  - by case: ltngtP.
rewrite first_maxS; case: (first_max key j t) (IH (ltnW le_t)) => pv pr /=.
move=> [state ub first].
have in_t i : (j <= i < j + t)%N -> (j <= i < j + t0)%N.
  case/andP=> -> lt_i /=; apply: leq_trans lt_i _.
  by rewrite leq_add2l ltnW.
have rng_t : (j <= j + t < j + t0)%N by rewrite leq_addr ltn_add2l.
have Kt := key_known rng_t.
have Kpv : K pv.
  case: state => [[_ [-> _]]|[rng ->]] //.
  by apply/key_known/in_t.
have lastE i : (j <= i < j + t.+1)%N ->
    (j <= i < j + t)%N \/ i = (j + t)%N.
  rewrite addnS ltnS [(i <= _)%N]leq_eqVlt.
  by case/andP=> -> /orP[/eqP ->|->]; [right | left].
case: ifP => [lt_pv|ge_pv]; split.
- by right; rewrite leq_addr addnS ltnS leqnn.
- move=> i /lastE[rng|->]; last exact: irr.
  apply/negP => lt_ti; have Ki := key_known (in_t _ rng).
  by have := ub i rng; rewrite (trans _ _ _ Kpv Kt Ki lt_pv lt_ti).
- move=> i /andP[le_ji lt_i].
  have rng : (j <= i < j + t)%N by rewrite le_ji.
  have Ki := key_known (in_t _ rng).
  have := cotrans _ (key i) _ Kpv Ki Kt lt_pv.
  by rewrite (negPf (ub i rng)).
- case: state => [[-> [pv0 none]]|[/andP[le_pr lt_pr] ->]]; [left|right].
    split=> //; split=> // i /lastE[/none|->] //.
    by rewrite -pv0 ge_pv.
  by split=> //; rewrite le_pr addnS ltnS ltnW.
- by move=> i /lastE[/ub|->] //; rewrite ge_pv.
- exact: first.
Qed.

(** The row found holds the largest number, and is the first that does. *)
Lemma first_maxP :
  let pr := (first_max key j t0).2 in
  [/\ forall i, (j <= i < j + t0)%N -> ~~ (key pr < key i)
    & forall i, (j <= i < pr)%N -> key i < key pr].
Proof.
have [_ irr trans cotrans] := orderedP ord.
have K0 : K 0 by left.
case: (first_max key j t0) (first_max_upto (leqnn t0)) => pv pr /=.
case=> [[[-> [-> none]]|[rng ->]] ub first]; last by split.
split=> [i rng|i]; last by case: ltngtP.
apply/negP => lt_ji.
have rng_j : (j <= j < j + t0)%N.
  by case/andP: rng => le_ji /(leq_ltn_trans le_ji) ->; rewrite leqnn.
have := cotrans _ 0 _ (key_known rng_j) K0 (key_known rng) lt_ji.
by rewrite (negPf (key_nonneg rng_j)) (negPf (none i rng)).
Qed.

End Search.

End FirstMax.

Section PivotSearch.

Variable R : arith.
Implicit Types (m mat A : matrix R) (x sc : seq R) (i j k t c a b r : nat).
Implicit Types (st : lu_state R) (p : seq nat).

Local Open Scope arith_scope.

Lemma first_max_ext (key key' : nat -> R) j t :
  (forall i, (j <= i < j + t)%N -> key' i = key i) ->
  first_max key' j t = first_max key j t.
Proof.
elim: t => [|t IH] eq_k //.
have eq_t i : (j <= i < j + t)%N -> key' i = key i.
  by case/andP=> le_ji lt_i; apply: eq_k; rewrite le_ji addnS ltnS ltnW.
have eq_last : key' (j + t)%N = key (j + t)%N.
  by apply: eq_k; rewrite leq_addr addnS ltnS leqnn.
by rewrite !first_maxS (IH eq_t) eq_last.
Qed.

(** Lines 75-81 write column [j] above row [j] only. *)
Lemma upper_column_keeps m j a b :
  (b != j) || (j <= a)%N -> mget (upper_column m j) a b = mget m a b.
Proof.
rewrite /upper_column.
have H t : (b != j) || (t <= a)%N ->
    mget (foldl (fun m i => mset m i j (inner_sum m i j i)) m (iota 0 t)) a b
    = mget m a b.
  elim: t => [|t IH] // out; rewrite foldl_iotaS add0n mget_mset.
  case: ifP => [/andP[/eqP ea /eqP eb]|_].
    by move: out; rewrite ea eb eqxx ltnn.
  by apply: IH; case/orP: out => [->|/ltnW ->] //; rewrite orbT.
exact: H.
Qed.

(** The pivot loop of lines 85-97 on the rows [j .. j+t-1]: it writes the
    entries of column [j] on those rows, each the sum of lines 87-90 on the
    matrix it started from, and it finds what [first_max] finds on the
    numbers it compares. *)
Lemma pivot_loop_search m sc j t :
  let key i := `|inner_sum m i j j * nth 0 sc i| in
  let: (m', pv, pr) := pivot_loop m sc j t in
  [/\ forall a b, [|| b != j, (a < j)%N | (j + t <= a)%N] ->
        mget m' a b = mget m a b,
      forall i, (j <= i < j + t)%N -> mget m' i j = inner_sum m i j j
    & (pv, pr) = first_max key j t].
Proof.
move=> key; elim: t => [|t]; rewrite /pivot_loop.
  by rewrite /= addn0; split=> // i; case: ltngtP.
rewrite foldl_iotaS first_maxS.
case: (foldl _ _ _) => [[m' pv] pr] [frame val <-] /=.
have s_def : inner_sum m' (j + t) j j = inner_sum m (j + t) j j.
  apply: inner_sum_ext => [|k lt_k]; first by rewrite frame // leqnn !orbT.
  by rewrite !frame ?lt_k ?orbT // (ltn_eqF lt_k).
rewrite s_def -/(key (j + t)%N).
have frame' a b : [|| b != j, (a < j)%N | (j + t.+1 <= a)%N] ->
    mget (mset m' (j + t) j (inner_sum m (j + t) j j)) a b = mget m a b.
  move=> H; rewrite mget_mset; case: ifP => [/andP[/eqP ea /eqP eb]|_].
    by move: H; rewrite ea eb eqxx /= addnS ltnn ltnNge leq_addr.
  apply: frame; case/or3P: H => [->|->|H] //; first by rewrite orbT.
  by rewrite (leq_trans _ H) ?orbT // addnS.
have val' i : (j <= i < j + t.+1)%N ->
    mget (mset m' (j + t) j (inner_sum m (j + t) j j)) i j
    = inner_sum m i j j.
  rewrite addnS ltnS [(i <= _)%N]leq_eqVlt => /andP[le_ji /orP[/eqP ->|lt_i]].
    by rewrite mget_mset !eqxx.
  by rewrite mget_mset (ltn_eqF lt_i) /= val // le_ji.
by case: ifP => _; split.
Qed.

(** The pivot search of column [j] on the state [st], read on the matrix it
    leaves. *)
Lemma pivot_search_facts n st j : (j < n)%N ->
  let m2 := pivot_matrix n st j in
  let pr := pivot_row_of n st j in
  let key i := `|mget m2 i j * nth 0 (lu_scaling st) i| in
  [/\ (j <= pr < n)%N,
      forall a b, b != j -> mget m2 a b = mget (lu_mat st) a b
    & pr = (first_max key j (n - j)).2].
Proof.
move=> lt_j; rewrite /pivot_matrix /pivot_row_of /pivot_search.
set m1 := upper_column (lu_mat st) j.
have := pivot_loop_search m1 (lu_scaling st) j (n - j).
case: pivot_loop => [[m2 pv] pr] /= [frame val E].
pose key0 i := `|inner_sum m1 i j j * nth 0 (lu_scaling st) i|.
have keyE : first_max (fun i => `|mget m2 i j * nth 0 (lu_scaling st) i|)
                      j (n - j) = first_max key0 j (n - j).
  by apply: first_max_ext => i rng; rewrite val.
split.
- have := first_max_range key0 j (n - j); rewrite -E /= subnKC ?(ltnW lt_j) //.
  by case/orP=> [/eqP ->|] //; rewrite leqnn.
- by move=> a b ne; rewrite frame ?ne // upper_column_keeps ?ne.
- by rewrite keyE -E.
Qed.

(** Lines 113-119 write column [j] only. *)
Lemma divide_lower_keeps m n j a b :
  b != j -> mget (divide_lower m n j) a b = mget m a b.
Proof.
move=> ne; rewrite /divide_lower; case: ifP => // _.
elim: (n - j.+1)%N => [|t IH] //.
by rewrite foldl_iotaS mget_mset (negPf ne) andbF.
Qed.

(** What one column leaves in each part of the state. *)
Lemma crout_column_fields n st j st' : crout_column n st j = Ok st' ->
  let m2 := pivot_matrix n st j in
  let pr := pivot_row_of n st j in
  [/\ ~~ n_eq (mget m2 pr j) 0,
      lu_mat st' = divide_lower (if pr != j then swap_rows m2 n pr j else m2) n j,
      lu_perm st' = (if pr != j then swap_nth 0%N (lu_perm st) j pr
                     else lu_perm st),
      lu_scaling st' = (if pr != j then swap_nth 0 (lu_scaling st) j pr
                        else lu_scaling st)
    & lu_parity st' = (if pr != j then ~~ lu_parity st else lu_parity st)].
Proof.
rewrite /crout_column /pivot_matrix /pivot_row_of.
case: pivot_search => [[m2 pv] pr] /=.
case: ifP => // /negbT nz [<-]; rewrite /permute_rows.
by case: (pr != j).
Qed.

(** A column other than [j] after column [j] has been processed: the rows
    [j] and [pivot_row] exchanged, nothing else. *)
Lemma crout_column_cols n st j st' a c :
  (j < n)%N -> crout_column n st j = Ok st' -> (c < n)%N -> c != j ->
  mget (lu_mat st') a c = mget (lu_mat st) (tr2 j (pivot_row_of n st j) a) c.
Proof.
move=> lt_j Hcol lt_c ne_c; have [_ -> _ _ _] := crout_column_fields Hcol.
have [_ keep _] := pivot_search_facts st lt_j.
rewrite divide_lower_keeps //; case: eqVneq => [->|ne] /=.
  by rewrite keep // /tr2; case: eqVneq => // ->.
rewrite mget_swap_rows lt_c /tr2; case: (a == j); first by rewrite keep.
by case: (a == _); rewrite keep.
Qed.

Lemma nth_swap_or (T : Type) (x0 : T) (s : seq T) j pr i :
  nth x0 (if pr != j then swap_nth x0 s j pr else s) i
  = nth x0 s (tr2 j pr i).
Proof.
case: eqVneq => [->|_] /=; last by rewrite nth_swap_tr2.
by rewrite /tr2; case: eqVneq => [->|].
Qed.

(** The rows and the scaling factors after [j] columns: row [i] of the
    matrix is, on the columns still to process, the input row
    [row_order[i]], and [scaling[i]] is the reciprocal of what the scan
    found on that input row. *)
Lemma crout_upto_rows A n j st :
  (j <= n)%N -> crout_upto A n j = Ok st ->
  [/\ size (row_order A n j) = n,
      forall i, (i < n)%N -> (nth 0%N (row_order A n j) i < n)%N,
      forall i c, (i < n)%N -> (j <= c < n)%N ->
        mget (lu_mat st) i c = mget A (nth 0%N (row_order A n j) i) c
    & forall i, (i < n)%N ->
        nth 0 (lu_scaling st) i
        = 1 / row_peak A n (nth 0%N (row_order A n j) i) /\
        ~~ n_eq (row_peak A n (nth 0%N (row_order A n j) i)) 0].
Proof.
elim: j st => [|j IH] st le_j.
  rewrite /crout_upto /lu_init /=; have := scaling_pass_peak A n.
  case: scaling_pass => // sc [sz vals nn] [<-] /=; split.
  - by rewrite size_iota.
  - by move=> i lt_i; rewrite nth_iota.
  - by move=> i c lt_i _; rewrite nth_iota.
  - by move=> i lt_i; rewrite nth_iota // add0n vals // nn.
rewrite crout_uptoS; case E: crout_upto => [st0|] // Hcol.
have [sz rng cols scal] := IH _ (ltnW le_j) E.
have [/andP[le_pr lt_pr] _ _] := pivot_search_facts st0 le_j.
have [_ _ _ scE _] := crout_column_fields Hcol.
have tr_lt i : (i < n)%N -> (tr2 j (pivot_row_of n st0 j) i < n)%N.
  by move=> lt_i; rewrite /tr2; case: ifP => // _; case: ifP.
have ordE i : nth 0%N (row_order A n j.+1) i
              = nth 0%N (row_order A n j) (tr2 j (pivot_row_of n st0 j) i).
  by rewrite (row_orderS E) nth_swap_or.
split.
- by rewrite (row_orderS E); case: ifP => // _; rewrite size_swap_nth sz.
- by move=> i lt_i; rewrite ordE; apply: rng; apply: tr_lt.
- move=> i c lt_i /andP[lt_jc lt_c].
  rewrite (crout_column_cols _ le_j Hcol lt_c) ?gtn_eqF // ordE.
  by apply: cols; rewrite ?tr_lt // lt_c (ltnW lt_jc).
- by move=> i lt_i; rewrite scE nth_swap_or ordE; apply: scal; apply: tr_lt.
Qed.

Lemma row_peak_first_max A n r :
  row_peak A n r = (first_max (fun c => `|mget A r c|) 0 n).1.
Proof.
rewrite /row_peak; elim: n => [|n IH] //.
by rewrite foldl_iotaS first_maxS /= add0n IH; case: ifP.
Qed.

(** What the scan of a row finds is not below any absolute entry of the
    row, and it is [0] or one of them. *)
Lemma row_peakP A n r :
  ordered [seq `|mget A r c| | c <- iota 0 n] ->
  (forall c, (c < n)%N -> ~~ (row_peak A n r < `|mget A r c|)) /\
  (row_peak A n r = 0 \/
   exists2 c, (c < n)%N & row_peak A n r = `|mget A r c|).
Proof.
move=> ord; rewrite row_peak_first_max.
have := first_max_upto ord (leqnn n).
case: first_max => pv pr /= [state ub _]; split=> [c lt_c|].
  exact: ub.
case: state => [[_ [-> _]]|[lt_pr ->]]; first by left.
by right; exists pr.
Qed.

(** C4: in column [j] the pivot row is the row [i >= j] with the largest
    [|entry(i,j) * scaling(i)|], the first such row on ties: no row from
    [j] on has a larger number, and every row from [j] up to the pivot row
    has a smaller one; [scaling(i)] is the reciprocal of the largest
    absolute entry of the input row now at position [i], the row
    [row_order[i]], whose entries the columns still to process hold; when
    the pivot row is not [j] the two rows are exchanged entry by entry over
    all columns, with their scaling factors, and the parity flag is negated;
    otherwise the flag, the rows and the scaling factors stay as they are.
    This holds in any arithmetic, that of [double] included, in which the
    numbers compared are ordered by [<]. *)
Theorem crout_pivot_selection A n j st st' :
  square n A -> (j < n)%N ->
  crout_upto A n j = Ok st -> crout_column n st j = Ok st' ->
  let m2 := pivot_matrix n st j in
  let pr := pivot_row_of n st j in
  let sc := lu_scaling st in
  let key i := `|mget m2 i j * nth 0 sc i| in
  let row i := nth 0%N (row_order A n j) i in
  ordered [seq key i | i <- iota j (n - j)] ->
  all (fun r => ordered [seq `|mget A r c| | c <- iota 0 n]) (iota 0 n) ->
  n_eq (0 : R) 0 ->
  [/\ (j <= pr < n)%N,
      forall i, (j <= i < n)%N -> ~~ (key pr < key i),
      forall i, (j <= i < pr)%N -> key i < key pr,
      forall i, (i < n)%N ->
        [/\ (row i < n)%N,
            forall c, (j <= c < n)%N ->
              mget (lu_mat st) i c = mget A (row i) c,
            nth 0 sc i = 1 / row_peak A n (row i),
            forall c, (c < n)%N ->
              ~~ (row_peak A n (row i) < `|mget A (row i) c|)
          & exists2 c, (c < n)%N & row_peak A n (row i) = `|mget A (row i) c|]
    & [/\ lu_parity st' = (if pr != j then ~~ lu_parity st else lu_parity st),
          lu_mat st' =
            divide_lower (if pr != j then swap_rows m2 n pr j else m2) n j,
          forall c, (c < n)%N ->
            mget (swap_rows m2 n pr j) j c = mget m2 pr c /\
            mget (swap_rows m2 n pr j) pr c = mget m2 j c,
          forall a c, a != j -> a != pr ->
            mget (swap_rows m2 n pr j) a c = mget m2 a c
        & lu_scaling st' =
            (if pr != j then swap_nth 0 sc j pr else sc)]].
Proof.
move=> _ lt_j E Hcol m2 pr sc key row ord_keys ord_rows zero.
have [sz rng cols scal] := crout_upto_rows (ltnW lt_j) E.
have [pr_rng _ prE] := pivot_search_facts st lt_j.
have [_ matE _ scE parE] := crout_column_fields Hcol.
have := first_maxP ord_keys.
rewrite -[(first_max _ _ _).2]prE -/pr subnKC ?(ltnW lt_j) // => -[ub first].
split=> //.
- move=> i lt_i; have lt_r : (row i < n)%N by apply: rng.
  have [-> nz] := scal i lt_i; split=> //.
  + by move=> c rng_c; apply: cols.
  + have /(all_nthP 0%N)/(_ (row i)) := ord_rows.
    rewrite size_iota nth_iota // add0n => /(_ lt_r) /row_peakP[].
    by [].
  + have /(all_nthP 0%N)/(_ (row i)) := ord_rows.
    rewrite size_iota nth_iota // add0n => /(_ lt_r) /row_peakP[_].
    by case=> // pk0; move: nz; rewrite -/(row i) pk0 zero.
split=> //.
  move=> c lt_c; rewrite !mget_swap_rows lt_c !eqxx; split=> //.
  by case: (pr =P j) => [e|_] //; congr (mget m2 _ c).
move=> a c ne_j ne_pr; rewrite mget_swap_rows (negPf ne_j) (negPf ne_pr).
by rewrite if_same.
Qed.

End PivotSearch.

(** In exact arithmetic the numbers compared are always ordered, and the
    scan of a row finds its largest absolute entry. *)
Section ExactOrder.

Variable F : realFieldType.
Implicit Types (A : matrix F) (xs : seq F).

Lemma ordered_exact xs : all (fun x => 0 <= x) xs -> ordered xs.
Proof.
move=> ge0; apply/and3P; split.
- by apply: sub_all ge0 => x; rewrite exactE -leNgt.
- by apply/allP => x _; rewrite exactE ltxx.
apply/allP => x _; apply/allP => y _; apply/allP => z _; rewrite !exactE.
apply/andP; split; apply/implyP; first by case/andP; apply: lt_trans.
by move=> lt_xz; case: (ltP x y) => //= le_yx; apply: le_lt_trans le_yx lt_xz.
Qed.

Lemma row_peakE A n i : row_peak A n i = row_max A n i.
Proof. by []. Qed.

End ExactOrder.

(** * The order of the rows and the contents of [perm] *)

Section RowOrderFactors.

Variable F : realFieldType.
Implicit Types (m mat A : matrix F) (x y z b : seq F) (i j k t c : nat).
Implicit Types (st : lu_state F) (p : seq nat).

(** The factors of a successful decomposition multiply to the rows of the
    input in the order the exchanges left them in. *)
Lemma row_order_factors A n st :
  LUDecomp A n = Ok st ->
  [/\ perm_eq (row_order A n n) (iota 0 n),
      Lmx (lu_mat st) n *m Umx (lu_mat st) n = PAmx A (row_order A n n) n
    & \det (PAmx A (row_order A n n) n) =
      (if lu_parity st then 1 else -1) * \det (mx_of A n)].
Proof.
move=> E; have inv := crout_upto_inv (leqnn n) E.
have [/= LUE pe _ _] := lu_inv_final inv; split=> //.
  by rewrite LUE Pmx_mul //; apply: inv_range inv.
exact: inv_det inv.
Qed.

(** An entry on which the product of the factors and the rows of the input
    taken through [perm] differ. *)
Lemma factors_differ A n st (i c : 'I_n) :
  (forall a, (a < n)%N -> (nth 0%N (lu_perm st) a < n)%N) ->
  LUprod (lu_mat st) n i c != mget A (nth 0%N (lu_perm st) i) c ->
  Lmx (lu_mat st) n *m Umx (lu_mat st) n != Pmx (lu_perm st) n *m mx_of A n.
Proof.
move=> rng; apply: contraNneq => /matrixP/(_ i c).
by rewrite mulmx_LU Pmx_mul // mxE => ->.
Qed.

End RowOrderFactors.

(** * Runs on concrete inputs *)

Section Witnesses.

Lemma get_okP (T : Type) (d : T) (r : result T) : is_ok r -> r = Ok (get_ok d r).
Proof. by case: r. Qed.

Lemma run_okP (T : eqType) (d v : T) (r : result T) :
  is_ok r && (get_ok d r == v) -> r = Ok v.
Proof. by case: r => //= x /eqP ->. Qed.

Lemma sum_two (F : realFieldType) (f : nat -> F) :
  \sum_(0 <= j < 2) f j = f 0%N + f 1%N.
Proof. by rewrite big_nat_recl // big_nat1. Qed.

Lemma A_swap_decomposes : LUDecomp A_swap 2 = Ok st_swap.
Proof. by apply: get_okP; vm_compute. Qed.

Lemma A_swap_upto0 : crout_upto A_swap 2 0 = Ok st_swap0.
Proof. by apply: get_okP; vm_compute. Qed.

Lemma A_swap_row_order : row_order A_swap 2 2 = [:: 1; 0]%N.
Proof. by vm_compute. Qed.

Lemma A_swap_perm : lu_perm st_swap = [:: 0; 0]%N.
Proof. by vm_compute. Qed.

(** C9, on the code: line 54 leaves 0, 0 in an array [perm] of two
    entries, not 0, 1: the right operand [k++] of the assignment is
    evaluated before the subscript of the left one, so [perm[1]] gets 0
    and [perm[0]] is never written.  On [A_swap] the decomposition
    exchanges the two rows, the order of the rows is 1, 0, and [perm] is
    0, 0 on entry to Crout's algorithm and at the end, which is no
    permutation of 0, 1. *)
Theorem LUDecomp_perm_line54 :
  [/\ fill_perm 2 = [:: 0; 0]%N,
      lu_init A_swap 2 = Ok st_swap0 /\ lu_perm st_swap0 = [:: 0; 0]%N,
      LUDecomp A_swap 2 = Ok st_swap /\ lu_perm st_swap = [:: 0; 0]%N,
      row_order A_swap 2 2 = [:: 1; 0]%N
    & ~~ perm_eq (lu_perm st_swap) (iota 0 2)].
Proof.
split.
- by vm_compute.
- by split; [exact: A_swap_upto0 | vm_compute].
- by split; [exact: A_swap_decomposes | vm_compute].
- exact: A_swap_row_order.
- by vm_compute.
Qed.

(** C2, on the code: on [A_swap] the decomposition succeeds and leaves
    [[3 4] [0 2]], the rows of [A_swap] exchanged, with [parity] false; the
    product of the factors is [A_swap] with its rows in the order 1, 0.
    But [perm] is 0, 0 (line 54), so the rows of [A_swap] taken through
    [perm] are its first row twice: entry (0, 0) of the product of the
    factors is 3, that of the rows taken through [perm] is 0, and the two
    matrices differ. *)
Theorem LUDecomp_factorization_line54 :
  [/\ LUDecomp A_swap 2 = Ok st_swap,
      lu_mat st_swap = [:: [:: q 3; q 4]; [:: q 0; q 2]] /\
      lu_parity st_swap = false,
      Lmx (lu_mat st_swap) 2 *m Umx (lu_mat st_swap) 2
      = PAmx A_swap (row_order A_swap 2 2) 2 /\
      row_order A_swap 2 2 = [:: 1; 0]%N,
      lu_perm st_swap = [:: 0; 0]%N /\
      LUprod (lu_mat st_swap) 2 0 0 = q 3 /\
      mget A_swap (nth 0%N (lu_perm st_swap) 0) 0 = q 0
    & Lmx (lu_mat st_swap) 2 *m Umx (lu_mat st_swap) 2
      != Pmx (lu_perm st_swap) 2 *m mx_of A_swap 2].
Proof.
split.
- exact: A_swap_decomposes.
- by split; [apply/eqP|]; vm_compute.
- split; last exact: A_swap_row_order.
  by have [] := row_order_factors A_swap_decomposes.
- split; first exact: A_swap_perm.
  by rewrite /LUprod sum_two; split; apply/eqP; vm_compute.
apply: (@factors_differ _ A_swap 2 st_swap ord0 ord0).
  by rewrite A_swap_perm; case=> [|[|a]].
by rewrite /LUprod sum_two; vm_compute.
Qed.

(** C1, on the code: the 2 x 2 identity matrix is nonsingular, and with the
    right-hand side 5, 7 the solution of the system is 5, 7.
    [LUsolveSystem] returns 5, 5: the decomposition exchanges no rows and
    leaves 0, 0 in [perm] (line 54), so the permutation step of lines
    135-138 copies entry 0 of the right-hand side to both entries; the
    second equation, [0 * 5 + 1 * 5 = 7], fails. *)
Theorem LUsolveSystem_line54 :
  [/\ mx_of A_id2 2 \in unitmx,
      lu_perm (get_ok lu_state0 (LUDecomp A_id2 2)) = [:: 0; 0]%N,
      (permute_rhs [:: 0; 0]%N b_id2 2).1 = [:: q 5; q 5],
      LUsolveSystem A_id2 2 b_id2 = Ok (A_id2, [:: q 5; q 5])
    & \sum_(0 <= j < 2) mget A_id2 1 j * nth 0 [:: q 5; q 5] j = q 5 /\
      nth 0 b_id2 1 = q 7 /\ q 5 != q 7].
Proof.
split.
- have E : LUDecomp A_id2 2 = Ok (get_ok lu_state0 (LUDecomp A_id2 2)).
    by apply: get_okP; vm_compute.
  exact: LUDecomp_Ok_unit E.
- by vm_compute.
- by apply/eqP; vm_compute.
- by apply: (@run_okP _ ([::], [::])); vm_compute.
- by rewrite sum_two; split; [|split]; try apply/eqP; vm_compute.
Qed.

(** The three outcomes of [LUDecomp]: a null row, an exactly zero pivot,
    and a pivot of 1/1000, which passes the test. *)
Lemma LUDecomp_outcomes :
  [/\ error_of (LUDecomp A_null 2) = Some NullRow,
      error_of (LUDecomp A_sing 2) = Some Singular
    & error_of (LUDecomp A_tiny 2) = None].
Proof. by split; vm_compute. Qed.

Lemma LUDecomp_error_iff_witness :
  square 2 A_null
  /\ [/\ forall e, LUDecomp A_null 2 = Err e <->
          (e = NullRow /\ exists2 i, (i < 2)%N & null_row A_null 2 i) \/
          [/\ e = Singular, forall i, (i < 2)%N -> ~~ null_row A_null 2 i
            & exists j stj, [/\ (j < 2)%N, crout_upto A_null 2 j = Ok stj
                              & selected_pivot 2 stj j = 0]],
        LUDecomp A_null 2 = Err NullRow <-> scaling_pass A_null 2 = Err NullRow
      & (forall i, (i < 2)%N -> ~~ null_row A_null 2 i) ->
        (forall j stj, (j < 2)%N -> crout_upto A_null 2 j = Ok stj ->
           selected_pivot 2 stj j != 0) ->
        exists st, LUDecomp A_null 2 = Ok st].
Proof.
split; first by [].
exact: (@LUDecomp_error_iff _ A_null 2 isT).
Defined.

End Witnesses.

Section Witnesses2.

Local Open Scope arith_scope.

Lemma D_near_upto0 : crout_upto D_near 2 0 = Ok st_near0.
Proof. by vm_compute. Qed.

Lemma D_near_column0 : crout_column 2 st_near0 0 = Ok st_near1.
Proof. by vm_compute. Qed.

(** In double precision the scaled entries of the first column of [D_near]
    are [49 * (1 / 49)], which is 0.99999999999999989, and [1 * (1 / 1)]:
    the search selects row 1, and the rows are exchanged. *)
Lemma D_near_pivot_row :
  [/\ nth 0 (lu_scaling st_near0) 0 = 0.020408163265306121%float,
      (49 * nth 0 (lu_scaling st_near0) 0 = 0.99999999999999989)%float,
      pivot_row_of 2 st_near0 0 = 1%N
    & row_order D_near 2 1 = [:: 1; 0]%N].
Proof. by split; vm_compute. Qed.

(** In double precision the second row of [D_half] does not vanish against
    the first: [49 * (1 / 98)] is 0.49999999999999994, the pivot of the
    second column is 1.1102230246251565e-16, and [LUDecomp] returns. *)
Lemma D_half_decomposes :
  is_ok (LUDecomp D_half 2) /\
  mget (lu_mat (get_ok lu_stateD (LUDecomp D_half 2))) 1 1
  = 1.1102230246251565e-16%float.
Proof. by split; vm_compute. Qed.

Lemma crout_pivot_selection_witness :
  [/\ square 2 D_near, (0 < 2)%N, crout_upto D_near 2 0 = Ok st_near0
    & crout_column 2 st_near0 0 = Ok st_near1]
  /\ let m2 := pivot_matrix 2 st_near0 0 in
     let pr := pivot_row_of 2 st_near0 0 in
     let sc := lu_scaling st_near0 in
     let key i := `|mget m2 i 0 * nth 0 sc i| in
     let row i := nth 0%N (row_order D_near 2 0) i in
     [/\ ordered [seq key i | i <- iota 0 (2 - 0)],
         all (fun r => ordered [seq `|mget D_near r c| | c <- iota 0 2])
             (iota 0 2)
       & n_eq (0 : binary64) 0]
     /\ [/\ (0 <= pr < 2)%N,
         forall i, (0 <= i < 2)%N -> ~~ (key pr < key i),
         forall i, (0 <= i < pr)%N -> key i < key pr,
         forall i, (i < 2)%N ->
           [/\ (row i < 2)%N,
               forall c, (0 <= c < 2)%N ->
                 mget (lu_mat st_near0) i c = mget D_near (row i) c,
               nth 0 sc i = 1 / row_peak D_near 2 (row i),
               forall c, (c < 2)%N ->
                 ~~ (row_peak D_near 2 (row i) < `|mget D_near (row i) c|)
             & exists2 c, (c < 2)%N
                 & row_peak D_near 2 (row i) = `|mget D_near (row i) c|]
       & [/\ lu_parity st_near1
             = (if pr != 0%N then ~~ lu_parity st_near0
                else lu_parity st_near0),
             lu_mat st_near1 =
               divide_lower (if pr != 0%N then swap_rows m2 2 pr 0 else m2) 2 0,
             forall c, (c < 2)%N ->
               mget (swap_rows m2 2 pr 0) 0 c = mget m2 pr c /\
               mget (swap_rows m2 2 pr 0) pr c = mget m2 0 c,
             forall a c, a != 0%N -> a != pr ->
               mget (swap_rows m2 2 pr 0) a c = mget m2 a c
           & lu_scaling st_near1 =
               (if pr != 0%N then swap_nth 0 sc 0 pr else sc)]].
Proof.
split; first by split; [ | | exact: D_near_upto0 | exact: D_near_column0].
split; first by split; vm_compute.
exact: (@crout_pivot_selection binary64 D_near 2 0 st_near0 st_near1 isT isT
          D_near_upto0 D_near_column0 isT isT isT).
Defined.

End Witnesses2.

Section Witnesses3.

(** In the first column of [A_swap] the search selects row 1. *)
Lemma A_swap_pivot_row : pivot_row_of 2 st_swap0 0 = 1%N.
Proof. by vm_compute. Qed.

Lemma LUDecomp_diagonal_nonzero_witness :
  [/\ square 2 A_swap, (0 < 2)%N & LUDecomp A_swap 2 = Ok st_swap]
  /\ (all (fun d => d != 0) (backward_divisors (lu_mat st_swap) 2) /\
      forall i, (i < 2)%N ->
        mget (lu_mat st_swap) i i != 0 /\
        exists2 sti, crout_upto A_swap 2 i = Ok sti
                   & mget (lu_mat st_swap) i i = selected_pivot 2 sti i).
Proof.
split; first by split; [ | | exact: A_swap_decomposes].
exact: (@LUDecomp_diagonal_nonzero _ A_swap 2 st_swap isT isT
          A_swap_decomposes).
Defined.

Lemma substitution_vec_componentwise_witness :
  [/\ square 2 A_swap, (0 < 2)%N, size rhs_vec = 2,
      all (fun v => size v == 2) rhs_vec & (1 < 2)%N]
  /\ (component 1 (forwardSubstitution_vec A_swap rhs_vec 2)
      = forwardSubstitution A_swap (component 1 rhs_vec) 2 /\
      component 1 (backwardSubstitution_vec A_swap rhs_vec 2)
      = backwardSubstitution A_swap (component 1 rhs_vec) 2).
Proof.
split; first by [].
exact: (@substitution_vec_componentwise _ A_swap rhs_vec 2 2 1 isT isT
          (erefl _) isT isT).
Defined.

Lemma matrixProduct_csr_witness :
  ([/\ csr_wf cg_big, size ones3 = nn_ cg_big, size ones3 = nn_ cg_big
     & (0 < nn_ cg_big)%N]
   /\ nth (n_zero binary64) (matrixProduct cg_big ones3 ones3) 0
      = accumulate ones3 (row_entries cg_big 0))
  /\ ([/\ csr_wf cg_example, size [:: q 1; q 1] = nn_ cg_example
       & size [:: q 0; q 0] = nn_ cg_example]
      /\ ((forall k, (k < nn_ cg_example)%N ->
             nth 0 (matrixProduct cg_example [:: q 1; q 1] [:: q 0; q 0]) k =
             \sum_(nth 0%N (irow_ cg_example) k <= ki
                     < nth 0%N (irow_ cg_example) k.+1)
                nth 0 (A_ cg_example) ki
                * nth 0 [:: q 1; q 1] (nth 0%N (jcol_ cg_example) ki)) /\
          (forall k, (k < nn_ cg_example)%N ->
             nth 0 (matrixProduct cg_example' [:: q 1; q 1] [:: q 9; q 9]) k
             = nth 0 (matrixProduct cg_example [:: q 1; q 1]
                        [:: q 0; q 0]) k))).
Proof.
have [any exact_] := matrixProduct_csr.
split.
  split; first by [].
  exact: (any binary64 cg_big ones3 ones3 isT (erefl _) (erefl _) 0%N isT).
split; first by [].
have [rows order] := exact_ _ cg_example [:: q 1; q 1] [:: q 0; q 0] isT
                       (erefl _) (erefl _).
split; first exact: rows.
apply: order => // k; case: k => [|[|k]] // _; by vm_compute.
Defined.

(** The product of [[2 0] [1 3]] by (1, 1) is (2, 4), in both storage
    orders of the second row. *)
Lemma matrixProduct_run :
  (matrixProduct cg_example [:: q 1; q 1] [:: q 0; q 0] == [:: q 2; q 4]) &&
  (matrixProduct cg_example' [:: q 1; q 1] [:: q 0; q 0] == [:: q 2; q 4]).
Proof. by vm_compute. Qed.

(** C5, the claim as stated fails: in double precision the value depends on
    the order of the entries within a row.  The structures [cg_big] and
    [cg_big'] hold the same row, the entries 1e16 on column 0, 1 on column
    1 and -1e16 on column 2, the last two in the two orders; on the vector
    of ones [matrixProduct] leaves [(1e16 + 1) - 1e16 = 0] in [sy[0]] for
    the first and [(1e16 - 1e16) + 1 = 1] for the second. *)
Lemma matrixProduct_order_dependent :
  [/\ csr_wf cg_big /\ csr_wf cg_big',
      nn_ cg_big' = nn_ cg_big /\ size ones3 = nn_ cg_big,
      row_entries cg_big 0
      = [:: (1e16, 0%N); (1, 1%N); (-1e16, 2%N)]%float /\
      row_entries cg_big' 0
      = [:: (1e16, 0%N); (-1e16, 2%N); (1, 1%N)]%float,
      forall k, (0 < k < 3)%N ->
        row_entries cg_big k = [::] /\ row_entries cg_big' k = [::]
    & [/\ nth 0%float (matrixProduct cg_big ones3 ones3) 0 = 0%float,
          nth 0%float (matrixProduct cg_big' ones3 ones3) 0 = 1%float
        & PrimFloat.eqb 0 1 = false]]
  /\ ~ (forall (s s' : SolveCG binary64) (sx sy : seq binary64),
         csr_wf s -> csr_wf s' -> nn_ s' = nn_ s ->
         size sx = nn_ s -> size sy = nn_ s ->
         (forall k, (k < nn_ s)%N ->
            reordered (0%float, 0%N) (row_entries s k) (row_entries s' k)) ->
         forall k, (k < nn_ s)%N ->
           nth 0%float (matrixProduct s' sx sy) k
           = nth 0%float (matrixProduct s sx sy) k).
Proof.
split.
  split; try by split; vm_compute.
  by case=> [|[|[|k]]] // _; split; vm_compute.
move=> indep.
have same k : (k < nn_ cg_big)%N ->
    reordered (0%float, 0%N) (row_entries cg_big k) (row_entries cg_big' k).
  case: k => [|[|[|k]]] // _; first by exists [:: 0; 2; 1]%N; vm_compute.
    by exists [::]; vm_compute.
  by exists [::]; vm_compute.
have := indep cg_big cg_big' ones3 ones3 isT isT (erefl _) (erefl _) (erefl _)
          same 0%N isT.
by move/(congr1 (PrimFloat.eqb 1)); vm_compute.
Qed.

Lemma attachMatrix_builds_csr_witness :
  [/\ size gmat_id2 = (2 * 2)%N, size [:: q 5; q 7] = 2
    & size [:: q 0; q 0] = 2]
  /\ let s' := attachMatrix cg_empty gmat_id2 2 in
     [/\ attachMatrix_parameters = [:: Tpointer Tdouble; Tint],
         nn_ s' = 2 /\ size (irow_ s') = 3,
         csr_wf s',
         forall k, (k < 2)%N ->
           row_entries s' k =
           [seq (dense_entry gmat_id2 2 k j, j)
           | j <- iota 0 2 & dense_entry gmat_id2 2 k j != 0]
       & forall k, (k < 2)%N ->
           nth 0 (matrixProduct s' [:: q 5; q 7] [:: q 0; q 0]) k =
           \sum_(0 <= j < 2) dense_entry gmat_id2 2 k j * nth 0 [:: q 5; q 7] j].
Proof.
split; first by [].
exact: (@attachMatrix_builds_csr _ cg_empty gmat_id2 2 [:: q 5; q 7]
          [:: q 0; q 0] (erefl _) (erefl _) (erefl _)).
Defined.

(** C6, the claim as stated fails: the declaration of [attachMatrix] lists a
    [double] array and an [int], not the three arrays of the sparse form and
    an [int]; and on the dense 2 x 2 identity, an array of 4 numbers, the
    values, the column indices and the row starts are what the operation
    builds. *)
Lemma attachMatrix_input_not_sparse :
  attachMatrix_parameters <> sparse_triple_parameters /\
  [/\ size gmat_id2 = 4,
      A_ (attachMatrix cg_empty gmat_id2 2) = [:: q 1; q 1],
      jcol_ (attachMatrix cg_empty gmat_id2 2) = [:: 0; 1]%N
    & irow_ (attachMatrix cg_empty gmat_id2 2) = [:: 0; 1; 2]%N].
Proof.
split; first by [].
by split=> //; apply/eqP; vm_compute.
Qed.

Lemma evalcrtan_blend_witness :
  [/\ size (tangcurves_ cto_example) = 2, size (blends_ cto_example) = 2
    & size (tangent_value cto_example 0 0)
      = size (tangent_value cto_example 1 0)]
  /\ [/\ size (evalcrtan cto_example 0) = size (tangent_value cto_example 0 0),
         forall k, nth 0 (evalcrtan cto_example 0) k =
           blend_value cto_example 0 0 * nth 0 (tangent_value cto_example 0 0) k
           + blend_value cto_example 1 0
             * nth 0 (tangent_value cto_example 1 0) k,
         [/\ forall u, blend_value cto_example 0 u = 1,
             forall u, blend_value cto_example 1 u = 1
           & forall u, tangent_value cto_example 0 u
                       = tangent_value cto_example 1 u]
       & evalcrtan cto_example 0
         = [seq 2 * a | a <- tangent_value cto_example 0 0] /\
         forall k, nth 0 (evalcrtan cto_example 0) k
                   = 2 * nth 0 (tangent_value cto_example 0 0) k].
Proof.
split; first by [].
have [sz blend twice] :=
  @evalcrtan_blend _ cto_example 0 (erefl _) (erefl _) (erefl _).
by split=> //; apply: twice.
Defined.

(** On [cto_example] the blend of (3, 5) with itself is (6, 10). *)
Lemma evalcrtan_run : evalcrtan cto_example 0 == [:: q 6; q 10].
Proof. by vm_compute. Qed.

End Witnesses3.

(** * Further properties of the kernels *)

Section Outcomes.

Variable F : realFieldType.
Implicit Types (A : matrix F) (x y z : seq F) (i j k t c : nat).
Implicit Types (st : lu_state F) (p : seq nat).


End Outcomes.

Section Triangular.

Variable F : realFieldType.
Implicit Types (A B : matrix F) (x y z : seq F) (i j k t c : nat).









Lemma eq_in_foldl (S : Type) (T : eqType) (f g : S -> T -> S) (es : seq T)
    (s0 : S) :
  (forall u e, e \in es -> f u e = g u e) -> foldl f s0 es = foldl g s0 es.
Proof.
elim: es s0 => [|e es IH] s0 H //=; rewrite H ?mem_head //.
by apply: IH => u e' in_e'; apply: H; rewrite inE in_e' orbT.
Qed.

(** X5: [forwardSubstitution] reads the strict lower triangle of [A] only, and
    [backwardSubstitution] the upper triangle with the diagonal only: on two
    matrices that agree there they compute the same vector. *)
Theorem substitution_reads_triangle A B x n :
  square n A -> square n B -> size x = n -> (0 < n)%N ->
  ((forall i j, (j < i < n)%N -> mget A i j = mget B i j) ->
     forwardSubstitution A x n = forwardSubstitution B x n) /\
  ((forall i j, (i <= j < n)%N -> mget A i j = mget B i j) ->
     backwardSubstitution A x n = backwardSubstitution B x n).
Proof.
move=> _ _ _ n_gt0; split=> agree.
  apply: eq_in_foldl => u i; rewrite mem_iota subnKC // => /andP[_ lt_i].
  apply: eq_in_foldl => v j; rewrite mem_iota add0n /= => lt_j.
  by rewrite agree // lt_j.
have lt_last : (n - 1 < n)%N by rewrite subn1 prednK.
rewrite /backwardSubstitution agree ?leqnn //.
apply: eq_in_foldl => u i; rewrite mem_rev mem_iota add0n /= => lt_i.
have lt_in : (i < n)%N by apply: leq_trans lt_i (leq_subr 1 n).
rewrite /backward_row agree ?leqnn //; congr (set_nth _ _ _ (nth _ _ _ / _)).
  apply: eq_in_foldl => v j; rewrite mem_iota subnKC // => /andP[lt_ij lt_j].
  by rewrite agree // ltnW.
apply: eq_in_foldl => v j; rewrite mem_iota subnKC // => /andP[lt_ij lt_j].
by rewrite agree // ltnW.
Qed.

End Triangular.

Section UpperTriangular.

Variable F : realFieldType.
Implicit Types (A m : matrix F) (x y z sc : seq F) (i j k t c : nat).
Implicit Types (st : lu_state F) (p : seq nat).



Section UpperRun.

Variables (A : matrix F) (n : nat).
Hypothesis sqA : square n A.
Hypothesis upA : forall i c, (c < i < n)%N -> mget A i c = 0.






End UpperRun.


End UpperTriangular.

Section SolveOutcome.

Variable F : realFieldType.
Implicit Types (A m : matrix F) (x y z b : seq F) (i j k t c : nat).
Implicit Types (st : lu_state F) (p : seq nat).

(** X7: What [LUsolveSystem] returns when the decomposition succeeds: the
    decomposed matrix, and a vector [x] of [n] numbers that solves the
    system of the rows of [A] in the order the exchanges left them in, for
    the right-hand side as the permutation step of lines 135-138 left it:
    row [i] of that system is row [row_order[i]] of [A], its right-hand side
    is entry [i] of the permuted vector. *)
Theorem LUsolveSystem_row_order A n b st :
  square n A -> size b = n -> (0 < n)%N -> LUDecomp A n = Ok st ->
  let b' := (permute_rhs (lu_perm st) b n).1 in
  exists2 x, LUsolveSystem A n b = Ok (lu_mat st, x) &
    size x = n /\
    forall i, (i < n)%N ->
      \sum_(0 <= j < n) mget A (nth 0%N (row_order A n n) i) j * nth 0 x j
      = nth 0 b' i.
Proof.
move=> _ sz_b n_gt0 E b'; have inv := crout_upto_inv (leqnn n) E.
have [/= LUE pe dg _] := lu_inv_final inv.
have rng := inv_range inv.
have sz_b' : size b' = n by apply: size_permute_rhs.
set y := forwardSubstitution (lu_mat st) b' n.
set x := backwardSubstitution (lu_mat st) y n.
exists x; first by rewrite /LUsolveSystem E.
split; first by rewrite size_backwardSubstitution // size_forwardSubstitution.
move=> i lt_i.
have PAx : PAmx A (row_order A n n) n *m cv x n = cv b' n.
  rewrite -(Pmx_mul _ rng) -LUE -mulmxA backward_mx //.
  exact: forward_mx.
have /matrixP/(_ (Ordinal lt_i) 0) := PAx.
have PAE (i' k : 'I_n) :
    PAmx A (row_order A n n) n i' k = mget A (nth 0%N (row_order A n n) i') k.
  by rewrite mxE.
rewrite (mulmx_cvE (f := fun i k => mget A (nth 0%N (row_order A n n) i) k) PAE).
by rewrite mxE.
Qed.

End SolveOutcome.

Section VectorSolve.

Variable F : realFieldType.
Implicit Types (A : matrix F) (x vo : seq (seq F)) (i j k t r e dd dim : nat).
Implicit Types (st : lu_state F) (p : seq nat).

(** A loop and its image under [g] that agree turn by turn, on the states
    that satisfy [P], agree at the end. *)
Lemma foldl_sim (S T : Type) (P : S -> Prop) (g : S -> T)
    (f : S -> nat -> S) (fs : T -> nat -> T) (ks : seq nat) :
  (forall u k, k \in ks -> P u -> P (f u k) /\ g (f u k) = fs (g u) k) ->
  forall u, P u -> P (foldl f u ks) /\ g (foldl f u ks) = foldl fs (g u) ks.
Proof.
elim: ks => [|k ks IH] step u Pu //=.
have [Pu1 g1] := step u k (mem_head _ _) Pu.
have step' u' k' : k' \in ks -> P u' ->
    P (f u' k') /\ g (f u' k') = fs (g u') k'.
  by move=> in_k'; apply: step; rewrite inE in_k' orbT.
by have [Pu2 ->] := IH step' _ Pu1; rewrite g1.
Qed.

Lemma all_set_nth (T : Type) (a : pred T) (x0 : T) (s : seq T) i w :
  (i < size s)%N -> all a s -> a w -> all a (set_nth x0 s i w).
Proof.
move=> lt_i /all_nthP a_s a_w; apply/(all_nthP x0) => r.
rewrite size_set_nth (maxn_idPr lt_i) nth_set_nth /= => lt_r.
by case: eqP => // _; apply: a_s.
Qed.

Lemma rows_ok_nth n dim x r :
  rows_ok n dim x -> (r < n)%N -> size (nth [::] x r) = dim.
Proof. by case=> sz /all_nthP rows lt_r; apply/eqP/rows; rewrite sz. Qed.

Lemma rows_ok_vset n dim x i e v :
  (i < n)%N -> (e < dim)%N -> rows_ok n dim x -> rows_ok n dim (vset x i e v).
Proof.
move=> lt_i lt_e ok; have [sz rows] := ok.
split; first by rewrite /vset size_mset sz.
apply: all_set_nth; rewrite ?sz //.
by rewrite (size_set_nth_in _ _ lt_e) // (rows_ok_nth ok).
Qed.

Lemma rows_ok_axpy_vec A n dim i x j :
  (i < n)%N -> rows_ok n dim x -> rows_ok n dim (axpy_vec A dim i x j).
Proof.
move=> lt_i ok; rewrite /axpy_vec.
have H t : (t <= dim)%N ->
    rows_ok n dim
      (foldl (fun x dd => vset x i dd (vget x i dd - mget A i j * vget x j dd))
             x (iota 0 t)).
  elim: t => [|t IH] lt_t //; rewrite foldl_iotaS add0n.
  by apply: rows_ok_vset => //; apply: IH; apply: ltnW.
exact: H.
Qed.

Lemma rows_ok_divide_vec A n dim i x :
  (i < n)%N -> rows_ok n dim x -> rows_ok n dim (divide_vec A dim i x).
Proof.
move=> lt_i ok; rewrite /divide_vec.
have H t : (t <= dim)%N ->
    rows_ok n dim
      (foldl (fun x dd => vset x i dd (vget x i dd / mget A i i)) x (iota 0 t)).
  elim: t => [|t IH] lt_t //; rewrite foldl_iotaS add0n.
  by apply: rows_ok_vset => //; apply: IH; apply: ltnW.
exact: H.
Qed.

Lemma eliminate_vec_sim A n dim dd i js x :
  (i < n)%N -> i \notin js -> (dd < dim)%N -> rows_ok n dim x ->
  rows_ok n dim (foldl (axpy_vec A dim i) x js) /\
  component dd (foldl (axpy_vec A dim i) x js)
    = eliminate A i (component dd x) js.
Proof.
move=> lt_i nin lt_dd; apply: foldl_sim => y j in_j ok.
have ne_ij : i != j by apply: contraNneq nin => ->.
split; first exact: rows_ok_axpy_vec.
by rewrite component_axpy_vec //; case: ok => ->.
Qed.

Lemma forward_vec_sim A n dim dd x :
  (0 < n)%N -> (dd < dim)%N -> rows_ok n dim x ->
  rows_ok n dim (forwardSubstitution_vec A x n) /\
  component dd (forwardSubstitution_vec A x n)
    = forwardSubstitution A (component dd x) n.
Proof.
move=> n_gt0 lt_dd ok.
rewrite /forwardSubstitution_vec /forwardSubstitution (rows_ok_nth ok) //.
apply: foldl_sim ok => y i; rewrite mem_iota subnKC // => /andP[_ lt_i] ok.
by apply: eliminate_vec_sim => //; rewrite mem_iota add0n ltnn.
Qed.

Lemma backward_vec_sim A n dim dd x :
  (0 < n)%N -> (dd < dim)%N -> rows_ok n dim x ->
  rows_ok n dim (backwardSubstitution_vec A x n) /\
  component dd (backwardSubstitution_vec A x n)
    = backwardSubstitution A (component dd x) n.
Proof.
move=> n_gt0 lt_dd ok.
rewrite /backwardSubstitution_vec /backwardSubstitution (rows_ok_nth ok) //.
have lt_last : (n - 1 < n)%N by rewrite subn1 prednK.
have ok0 := rows_ok_divide_vec A lt_last ok.
have sz : size x = n by case: ok.
rewrite -(@component_divide_vec _ A dim) ?sz //.
apply: foldl_sim ok0 => y i; rewrite mem_rev mem_iota add0n /= => lt_i ok_y.
have lt_in : (i < n)%N by apply: leq_trans lt_i (leq_subr 1 n).
have nin : i \notin iota i.+1 (n - i.+1) by rewrite mem_iota ltnn.
have [ok1 c1] := eliminate_vec_sim A lt_in nin lt_dd ok_y.
split; first exact: rows_ok_divide_vec.
by rewrite component_divide_vec // ?c1 //; case: ok1 => ->.
Qed.

Lemma component_set_nth dd x i (w : seq F) :
  component dd (set_nth [::] x i w)
  = set_nth 0 (component dd x) i (nth 0 w dd).
Proof.
apply: (@eq_from_nth _ 0); first by rewrite size_set_nth !size_map size_set_nth.
move=> r _; rewrite nth_component /vget /mget !nth_set_nth /=.
by case: eqP => // _; rewrite nth_component.
Qed.

Lemma permute_vec_sim n dim dd p x :
  size x = n -> all (fun v => size v == dim) x ->
  (forall i, (i < n)%N -> (nth 0%N p i < n)%N) ->
  rows_ok n dim (permute_rhs_vec p x n).1 /\
  component dd (permute_rhs_vec p x n).1
    = (permute_rhs p (component dd x) n).1.
Proof.
move=> sz rows rng; rewrite /permute_rhs_vec /permute_rhs.
pose P (acc : seq (seq F) * seq (seq F)) :=
  rows_ok n dim acc.1 /\ rows_ok n dim acc.2.
pose g (acc : seq (seq F) * seq (seq F)) :=
  (component dd acc.1, component dd acc.2).
have P0 : P (x, take n x) by rewrite /P /= -sz take_size.
have step acc i : i \in iota 0 n -> P acc ->
    P (permute_step_vec p acc i) /\
    g (permute_step_vec p acc i) = permute_step p (g acc) i.
  rewrite mem_iota add0n /= => lt_i; case: acc => v vo [/= ok_v ok_vo].
  have [sz_v rows_v] := ok_v; have [sz_vo rows_vo] := ok_vo.
  split.
    split; split; rewrite /= ?(size_set_nth_in _ _ _ sz_v) //.
    - by apply: all_set_nth; rewrite ?sz_v // (rows_ok_nth ok_vo) ?rng.
    - by rewrite (size_set_nth_in _ _ _ sz_vo) ?rng.
    - by apply: all_set_nth; rewrite ?sz_vo ?rng // (rows_ok_nth ok_v).
  by rewrite /g /= !component_set_nth !nth_component.
have [] := foldl_sim (g := g) step P0.
rewrite /g /= -map_take.
by case: foldl => v vo /= [ok_v _] <-.
Qed.

(** X8: [LUsolveSystem] on an array of [n] vectors of [dim] numbers computes,
    on every component [dd], what it computes on the array of numbers made of
    that component: the same exception, or the same decomposed matrix and the
    solution for that component; the vectors keep their length. *)
Theorem LUsolveSystem_vec_componentwise A n x dim dd :
  square n A -> (0 < n)%N -> size x = n ->
  all (fun v => size v == dim) x -> (dd < dim)%N ->
  match LUsolveSystem_vec A n x with
  | Ok (m, x') =>
      [/\ LUsolveSystem A n (component dd x) = Ok (m, component dd x'),
          size x' = n & all (fun v => size v == dim) x']
  | Err e => LUsolveSystem A n (component dd x) = Err e
  end.
Proof.
move=> _ n_gt0 sz rows lt_dd; rewrite /LUsolveSystem_vec /LUsolveSystem.
case E: (LUDecomp A n) => [st|e] //.
have [_ rng] := lu_perm_range (leqnn n) E.
have [ok1 <-] := permute_vec_sim dd sz rows rng.
have [ok2 <-] := forward_vec_sim (lu_mat st) n_gt0 lt_dd ok1.
have [[sz3 rows3] <-] := backward_vec_sim (lu_mat st) n_gt0 lt_dd ok2.
by split.
Qed.

End VectorSolve.

Section SparseFurther.

Variable F : realFieldType.
Implicit Types (s : SolveCG F) (sx sy : seq F) (k ki kj t : nat).

Lemma size_product_row s sx sy kj :
  (kj < size sy)%N -> size (product_row s sx sy kj) = size sy.
Proof.
move=> lt_kj; rewrite /product_row; apply: size_foldl => [u ki _ sz_u|].
  exact: size_set_nth_in.
exact: size_set_nth_in.
Qed.

(** X9: [matrixProduct] writes the first [nn_] entries of [sy] and nothing
    else: the array keeps its length, and an entry from [nn_] on keeps its
    value. *)
Theorem matrixProduct_frame s sx sy :
  csr_wf s -> size sx = nn_ s -> (nn_ s <= size sy)%N ->
  size (matrixProduct s sx sy) = size sy /\
  forall k, (nn_ s <= k)%N -> nth 0 (matrixProduct s sx sy) k = nth 0 sy k.
Proof.
move=> _ _ le_nn; split; last first.
  by move=> k le_k; rewrite /matrixProduct matrixProduct_upto ltnNge le_k.
apply: size_foldl => // u kj; rewrite mem_iota add0n /= => lt_kj sz_u.
by rewrite size_product_row sz_u // (leq_trans lt_kj).
Qed.

End SparseFurther.

Section ColumnStep.

Variable F : realFieldType.
Implicit Types (A m : matrix F) (x sc : seq F) (i j k t c a b : nat).
Implicit Types (st : lu_state F) (p : seq nat).

(** The pivot search of column [j], on the state [st]. *)
Lemma pivot_facts n st j : (j < n)%N ->
  let m := lu_mat st in
  let sc := lu_scaling st in
  let m2 := pivot_matrix n st j in
  let pr := pivot_row_of n st j in
  [/\ (j <= pr < n)%N,
      forall a b, b != j -> mget m2 a b = mget m a b,
      forall i, (i < j)%N ->
        mget m i j = mget m2 i j + \sum_(0 <= k < i) mget m i k * mget m2 k j,
      forall i, (j <= i < n)%N ->
        mget m i j = mget m2 i j + \sum_(0 <= k < j) mget m i k * mget m2 k j
    & (forall i, (j <= i < n)%N ->
         `|mget m2 i j * nth 0 sc i| <= `|mget m2 pr j * nth 0 sc pr|) /\
      (forall i, (j <= i < pr)%N ->
         `|mget m2 i j * nth 0 sc i| < `|mget m2 pr j * nth 0 sc pr|)].
Proof.
move=> lt_j; rewrite /pivot_matrix /pivot_row_of.
have := crout_elim (lu_mat st) (lu_scaling st) lt_j.
by case: pivot_search => [[m2 pv] pr] [pr_rng frame up low [_ [ub first]]].
Qed.

(** One column of Crout's algorithm, entry by entry: [sg] is the exchange
    of the rows [j] and [pr]. *)
Lemma crout_column_step n st j st' :
  (j < n)%N -> crout_column n st j = Ok st' ->
  let m := lu_mat st in
  let m2 := pivot_matrix n st j in
  let pr := pivot_row_of n st j in
  let sg := tr2 j pr in
  [/\ mget m2 pr j != 0,
      forall a b, (b < n)%N -> b != j ->
        mget (lu_mat st') a b = mget m (sg a) b,
      forall a, (a <= j)%N -> mget (lu_mat st') a j = mget m2 (sg a) j
    & forall a, (j < a < n)%N ->
        mget (lu_mat st') a j = mget m2 (sg a) j / mget m2 pr j] /\
  [/\ forall i, nth 0%N (lu_perm st') i = nth 0%N (lu_perm st) (sg i),
      forall i, nth 0 (lu_scaling st') i = nth 0 (lu_scaling st) (sg i)
    & lu_parity st' = (if pr != j then ~~ lu_parity st else lu_parity st)].
Proof.
move=> lt_jn; have := pivot_facts st lt_jn.
rewrite /crout_column /pivot_matrix /pivot_row_of.
case: pivot_search => [[m2 pv] pr] /= [pr_rng frame _ _ _].
case: ifP => // /negbT piv_nz [<-] {st'}.
set st2 := LUState m2 _ _ _.
have := permute_rowsP n st2 pr j.
set st3 := permute_rows n st2 pr j; move=> [m3E p3E sc3E par3E _].
have sg_j : tr2 j pr j = pr by apply: tr2_jj.
split; split=> //=.
- move=> a b lt_b ne_b.
  by rewrite mget_divide_lower (negPf ne_b) /= m3E lt_b frame.
- move=> a le_a; rewrite mget_divide_lower eqxx /= ltnNge le_a /=.
  by rewrite m3E lt_jn.
- by move=> a rng; rewrite mget_divide_lower eqxx rng /= !m3E lt_jn sg_j.
Qed.

(** A property that holds on entry to Crout's algorithm and that every
    column keeps holds whenever the algorithm has come that far. *)
Lemma crout_upto_ind A n (Q : nat -> lu_state F -> Prop) :
  (forall st0, lu_init A n = Ok st0 -> Q 0%N st0) ->
  (forall j st st', (j < n)%N -> crout_upto A n j = Ok st -> Q j st ->
     crout_column n st j = Ok st' -> Q j.+1 st') ->
  forall j st, (j <= n)%N -> crout_upto A n j = Ok st -> Q j st.
Proof.
move=> Q0 Qstep; elim=> [|j IH] st lt_j.
  by rewrite /crout_upto; case E: lu_init => [st0|] //= [<-]; apply: Q0.
rewrite crout_uptoS; case E: crout_upto => [stj|] // Hcol.
by apply: Qstep Hcol => //; apply: IH => //; apply: ltnW.
Qed.

End ColumnStep.

Section PivotChoice.

Variable F : realFieldType.
Implicit Types (m : matrix F) (x sc : seq F) (i j k t c a b : nat).
Implicit Types (st : lu_state F) (p : seq nat).

Lemma selected_pivotE n st j :
  selected_pivot n st j = mget (pivot_matrix n st j) (pivot_row_of n st j) j.
Proof.
rewrite /selected_pivot /pivot_matrix /pivot_row_of.
by case: pivot_search => [[m2 pv] pr].
Qed.

End PivotChoice.

Section VectorDimension.

Variable F : realFieldType.
Implicit Types (A : matrix F) (x y : seq (seq F)) (i j k t r e dd dim : nat).

Lemma foldl_inv (S : Type) (P : S -> Prop) (f : S -> nat -> S) (ks : seq nat) :
  (forall u k, k \in ks -> P u -> P (f u k)) ->
  forall u, P u -> P (foldl f u ks).
Proof.
elim: ks => [|k ks IH] step u Pu //=.
apply: IH; last by apply: step; rewrite ?mem_head.
by move=> u' k' in_k'; apply: step; rewrite inE in_k' orbT.
Qed.

Lemma component_eq dd x y :
  size y = size x -> (forall r, vget y r dd = vget x r dd) ->
  component dd y = component dd x.
Proof.
move=> sz eq_v; apply: (@eq_from_nth _ 0); first by rewrite !size_map.
by move=> r _; rewrite !nth_component.
Qed.

Lemma beyond_axpy_vec A n dim i j x y :
  (i < n)%N -> i != j -> beyond n dim x y ->
  beyond n dim x (axpy_vec A dim i y j).
Proof.
move=> lt_i ne_ij [sz eq_v]; split; first by rewrite size_axpy_vec sz.
by move=> r e le_e; rewrite vget_axpy_vec // ltnNge le_e andbF eq_v.
Qed.

Lemma beyond_divide_vec A n dim i x y :
  (i < n)%N -> beyond n dim x y -> beyond n dim x (divide_vec A dim i y).
Proof.
move=> lt_i [sz eq_v]; split; first by rewrite size_divide_vec sz.
by move=> r e le_e; rewrite vget_divide_vec ltnNge le_e andbF eq_v.
Qed.

(** X13: The overloads for arrays of vectors take the number of components
    from the first vector, [x[0].size()]: on longer vectors the components
    from that index on are left as they were. *)
Theorem substitution_vec_dimension A x n dd :
  square n A -> size x = n -> (0 < n)%N ->
  all (fun v => size (nth [::] x 0) <= size v)%N x ->
  (size (nth [::] x 0) <= dd)%N ->
  component dd (forwardSubstitution_vec A x n) = component dd x /\
  component dd (backwardSubstitution_vec A x n) = component dd x.
Proof.
move=> _ sz n_gt0 _ le_dd; set dim := size (nth [::] x 0) in le_dd.
have b0 : beyond n dim x x by [].
have fin y : beyond n dim x y -> component dd y = component dd x.
  by case=> sz_y eq_v; apply: component_eq => [|r]; rewrite ?sz ?eq_v.
split; apply: fin.
  apply: foldl_inv b0 => y i; rewrite mem_iota subnKC // => /andP[i_gt0 lt_i].
  apply: foldl_inv => y' j; rewrite mem_iota add0n /= => lt_j.
  by apply: beyond_axpy_vec; rewrite ?gtn_eqF.
have lt_last : (n - 1 < n)%N by rewrite subn1 prednK.
rewrite /backwardSubstitution_vec -/dim.
apply: foldl_inv (beyond_divide_vec A lt_last b0) => y i.
rewrite mem_rev mem_iota add0n /= => lt_i by_.
have lt_in : (i < n)%N by apply: leq_trans lt_i (leq_subr 1 n).
apply: beyond_divide_vec => //; apply: foldl_inv by_ => y' j.
rewrite mem_iota => /andP[lt_ij _].
by apply: beyond_axpy_vec; rewrite ?ltn_eqF.
Qed.

End VectorDimension.

Section SortedRows.

Variable F : realFieldType.
Implicit Types (m : matrix F) (x sc : seq F) (i j k t c a b : nat).
Implicit Types (st : lu_state F) (p : seq nat).

Lemma row_max_ext (A B : matrix F) n i i' :
  (forall c, mget B i' c = mget A i c) -> row_max B n i' = row_max A n i.
Proof.
move=> eq_r; rewrite /row_max; elim: n => [|n IH] //.
by rewrite !foldl_iotaS IH add0n eq_r.
Qed.

Section SortedRun.

Variables (A : matrix F) (n : nat) (stn : lu_state F).
Hypothesis En : LUDecomp A n = Ok stn.

Let B := permute_matrix (row_order A n n) A n.
Let tau j := later_exchanges A n (n - j) j.

Lemma mget_permute_matrix i c :
  (i < n)%N -> mget B i c = mget A (nth 0%N (row_order A n n) i) c.
Proof.
move=> lt_i.
by rewrite /B /permute_matrix /mget (nth_map 0%N) ?size_iota // nth_iota.
Qed.

Lemma run_prefix j : (j <= n)%N -> exists st, crout_upto A n j = Ok st.
Proof. exact: crout_upto_prefix En j. Qed.

Lemma pivot_of_rng j : (j < n)%N -> (j <= pivot_of A n j < n)%N.
Proof.
move=> lt_j; have [st E] := run_prefix (ltnW lt_j).
by rewrite (pivot_ofE E); have [] := pivot_facts st lt_j.
Qed.

Lemma tauS j i : (j < n)%N ->
  tau j i = tr2 j (pivot_of A n j) (tau j.+1 i).
Proof. by move=> lt_j; rewrite /tau -(subnSK lt_j). Qed.

Lemma tau_n i : tau n i = i.
Proof. by rewrite /tau subnn. Qed.

Lemma tau_facts j : (j <= n)%N ->
  [/\ forall i, (i < n)%N -> (tau j i < n)%N,
      forall i, (i < j)%N -> tau j i = i
    & forall i, (j <= i)%N -> (j <= tau j i)%N].
Proof.
move=> le_j; have [t] := ubnP (n - j); elim: t j le_j => // t IH j le_j lt_t.
have [ge_j|lt_j] := leqP n j.
  have -> : j = n by apply/eqP; rewrite eqn_leq le_j.
  by split=> i; rewrite tau_n.
have /andP[le_pr lt_pr] := pivot_of_rng lt_j.
have [|lt1 id1 ge1] := IH j.+1 lt_j; first by rewrite subnS prednK ?subn_gt0.
split=> i; rewrite tauS //.
- by move=> lt_i; rewrite tr2_lt ?lt1.
- by move=> lt_i; rewrite id1 1?ltnW // tr2_id.
rewrite leq_eqVlt => /orP[/eqP <-|lt_ji]; first by rewrite id1 // tr2_jj.
by rewrite tr2_ge // ltnW // ge1.
Qed.

Lemma tau_lt j i : (j <= n)%N -> (i < n)%N -> (tau j i < n)%N.
Proof. by move=> le_j; have [H _ _] := tau_facts le_j; apply: H. Qed.

Lemma tau_id j i : (j <= n)%N -> (i < j)%N -> tau j i = i.
Proof. by move=> le_j; have [_ H _] := tau_facts le_j; apply: H. Qed.

Lemma tau_ge j i : (j <= n)%N -> (j <= i)%N -> (j <= tau j i)%N.
Proof. by move=> le_j; have [_ _ H] := tau_facts le_j; apply: H. Qed.

Lemma tau_jj j : (j < n)%N -> tau j j = pivot_of A n j.
Proof. by move=> lt_j; rewrite tauS // tau_id // tr2_jj. Qed.

(** The final order of the rows read through the exchanges still to
    come. *)
Lemma perm_tau j i :
  (j <= n)%N -> (i < n)%N ->
  nth 0%N (row_order A n n) i = nth 0%N (row_order A n j) (tau j i).
Proof.
move=> le_j lt_i; have [t] := ubnP (n - j).
elim: t j le_j => // t IH j le_j lt_t.
have [ge_j|lt_j] := leqP n j.
  have eq_j : j = n by apply/eqP; rewrite eqn_leq le_j.
  by rewrite eq_j tau_n.
have lt_t' : (n - j.+1 < t)%N by rewrite subnS prednK ?subn_gt0.
rewrite (IH j.+1 lt_j lt_t') (tauS i lt_j) /=.
case: eqVneq => [->|_]; last by rewrite nth_swap_tr2.
by rewrite /= /tr2; case: eqVneq => [->|].
Qed.

Lemma sorted_init st0 :
  lu_init A n = Ok st0 ->
  exists2 st0', lu_init B n = Ok st0' & sorted_run A n 0 st0 st0'.
Proof.
move=> E0; have := lu_initP A n; rewrite E0 => -[inv matE permE parE].
have E00 : crout_upto A n 0 = Ok st0 by rewrite /crout_upto E0.
have := lu_initP B n; case E': (lu_init B n) => [st'|e'].
  case=> _ matE' permE' parE'; exists st' => //; split=> // i c lt_i lt_c.
  rewrite -/(tau 0 i) matE' matE mget_permute_matrix //.
  by rewrite (perm_tau (leq0n n) lt_i) /= nth_iota // tau_lt.
case=> _ [a lt_a]; rewrite -row_max_eq0.
have -> : row_max B n a = row_max A n (nth 0%N (row_order A n n) a).
  by apply: row_max_ext => c; rewrite mget_permute_matrix.
rewrite row_max_eq0 => nr.
have invn := crout_upto_inv (leqnn n) En.
by have := inv_nonnull inv (inv_range invn lt_a); rewrite nr.
Qed.

Lemma sorted_column j st st1 st' :
  (j < n)%N -> crout_upto A n j = Ok st -> crout_column n st j = Ok st1 ->
  crout_upto B n j = Ok st' -> sorted_run A n j st st' ->
  row_order B n j = iota 0 n ->
  exists2 st1', crout_column n st' j = Ok st1'
              & sorted_run A n j.+1 st1 st1' /\
                row_order B n j.+1 = iota 0 n.
Proof.
move=> lt_j E Hcol E' [permE' parE' matE0] ordE'.
have matE i c : (i < n)%N -> (c < n)%N ->
    mget (lu_mat st') i c = mget (lu_mat st) (tau j i) c.
  exact: matE0.
have le_j := ltnW lt_j.
have inv := crout_upto_inv le_j E; have inv' := crout_upto_inv le_j E'.
have scE i : (i < n)%N ->
    nth 0 (lu_scaling st') i = nth 0 (lu_scaling st) (tau j i).
  move=> lt_i; rewrite (inv_scal inv') // (inv_scal inv) ?tau_lt //.
  rewrite /= ordE' nth_iota // add0n -(perm_tau le_j lt_i).
  by congr (_ / _); apply: row_max_ext => c; rewrite mget_permute_matrix.
have [pr_rng frame up low [ub first]] := pivot_facts st lt_j.
have [pr_rng' frame' up' low' [ub' first']] := pivot_facts st' lt_j.
have [[piv_nz oth upto below] [_ _ _]] := crout_column_step lt_j Hcol.
move: pr_rng frame up low ub first pr_rng' frame' up' low' ub' first'
      piv_nz oth upto below.
rewrite -(pivot_ofE E).
set m := lu_mat st; set m2 := pivot_matrix n st j.
set pr := pivot_of A n j.
set m' := lu_mat st'; set m2' := pivot_matrix n st' j.
set pr' := pivot_row_of n st' j.
move=> pr_rng frame up low ub first pr_rng' frame' up' low' ub' first'.
move=> piv_nz oth upto below.
have m2E_lt i : (i < j)%N -> mget m2' i j = mget m2 i j.
  elim/ltn_ind: i => i IH lt_ij; have lt_i := ltn_trans lt_ij lt_j.
  have := up' i lt_ij; rewrite /m' matE // tau_id // (up i lt_ij).
  have -> : \sum_(0 <= k < i) mget (lu_mat st') i k * mget m2' k j =
            \sum_(0 <= k < i) mget m i k * mget m2 k j.
    rewrite !big_nat; apply: eq_bigr => k /andP[_ lt_ki].
    have lt_kj := ltn_trans lt_ki lt_ij; have lt_k := ltn_trans lt_kj lt_j.
    by rewrite matE // tau_id // IH.
  by move/addIr.
have m2E i : (j <= i < n)%N -> mget m2' i j = mget m2 (tau j i) j.
  move=> rng; have /andP[le_ji lt_i] := rng.
  have rng_t : (j <= tau j i < n)%N by rewrite tau_ge ?tau_lt.
  have := low' i rng; rewrite /m' matE // (low _ rng_t).
  have -> : \sum_(0 <= k < j) mget (lu_mat st') i k * mget m2' k j =
            \sum_(0 <= k < j) mget m (tau j i) k * mget m2 k j.
    rewrite !big_nat; apply: eq_bigr => k /andP[_ lt_kj].
    have lt_k := ltn_trans lt_kj lt_j.
    by rewrite matE // m2E_lt.
  by move/addIr.
have keyE i : (j <= i < n)%N ->
    `|mget m2' i j * nth 0 (lu_scaling st') i|
    = `|mget m2 (tau j i) j * nth 0 (lu_scaling st) (tau j i)|.
  by move=> rng; have /andP[_ lt_i] := rng; rewrite m2E // scE.
have rng_j : (j <= j < n)%N by rewrite leqnn.
have prE : pr' = j.
  have /andP[le_pr' lt_pr'] := pr_rng'.
  apply/eqP; rewrite eqn_leq le_pr' andbT leqNgt; apply/negP => lt_jpr'.
  have := first' j; rewrite leqnn lt_jpr' => /(_ isT).
  rewrite !keyE // tau_jj // -/pr ltNge ub //.
  by rewrite tau_ge ?tau_lt.
have pivE : selected_pivot n st' j = mget m2 pr j.
  by rewrite selected_pivotE -/pr' prE m2E // tau_jj.
have piv_nz' : selected_pivot n st' j != 0 by rewrite pivE.
have [st1' Hcol'] := crout_column_Ok piv_nz'; exists st1' => //.
have [[_ oth' upto' below'] [_ _ par1E']] := crout_column_step lt_j Hcol'.
have [_ _ perm1' _ _] := crout_columnE Hcol'.
move: oth' upto' below' par1E' perm1'; rewrite -/pr' -/m' -/m2' prE eqxx /=.
move=> oth' upto' below' par1E' perm1'.
have sgE a : tr2 j j a = a by rewrite /tr2; case: eqVneq.
split; last by rewrite (pivot_ofE E') -/pr' prE eqxx.
split; rewrite ?perm1' ?par1E' // => i c lt_i lt_c.
rewrite -/(tau j.+1 i).
have lt_t1 : (tau j.+1 i < n)%N by rewrite tau_lt.
have tauE : tr2 j pr (tau j.+1 i) = tau j i by rewrite -tauS.
have [-> {c lt_c}|ne_cj] := eqVneq c j; last first.
  by rewrite oth' // sgE oth // tauE matE.
have [lt_ji|le_ij] := ltnP j i.
  have lt_jt : (j < tau j.+1 i < n)%N by rewrite lt_t1 tau_ge.
  have rng_i : (j <= i < n)%N by rewrite lt_i ltnW.
  rewrite below' ?lt_ji // !sgE below // tauE (m2E _ rng_i) (m2E _ rng_j).
  by rewrite tau_jj.
have t1E : tau j.+1 i = i by apply: tau_id.
have /andP[le_jpr _] := pr_rng.
rewrite t1E (upto' _ le_ij) sgE (upto _ le_ij).
move: le_ij; rewrite leq_eqVlt => /orP[/eqP ->|lt_ij].
  by rewrite (m2E _ rng_j) tau_jj // tr2_jj.
by rewrite m2E_lt // tr2_id.
Qed.

Lemma sorted_upto j st :
  (j <= n)%N -> crout_upto A n j = Ok st ->
  exists2 st', crout_upto B n j = Ok st'
             & sorted_run A n j st st' /\ row_order B n j = iota 0 n.
Proof.
elim: j st => [|j IH] st le_j.
  rewrite /crout_upto /=; case E0: (lu_init A n) => [st0|] // [<-].
  by have [st0' -> R] := sorted_init E0; exists st0'.
rewrite !crout_uptoS; case E: (crout_upto A n j) => [stj|] // Hcol.
have [stj' E' [R ordE]] := IH stj (ltnW le_j) E; rewrite E'.
exact: sorted_column E Hcol E' R ordE.
Qed.

End SortedRun.

(** X14: The order in which the exchanges of [LUDecomp] leave the rows needs
    no exchange: on the rows of the input taken in that order, [LUDecomp]
    returns the same factors and exchanges no rows: the order of the rows
    stays 0, 1, ..., [perm] stays as line 54 leaves it, and [parity] stays
    true. *)
Theorem LUDecomp_sorted_rows (A : matrix F) n st :
  square n A -> LUDecomp A n = Ok st ->
  let B := permute_matrix (row_order A n n) A n in
  exists2 st', LUDecomp B n = Ok st' &
    [/\ row_order B n n = iota 0 n, lu_perm st' = fill_perm n,
        lu_parity st' = true
      & forall i c, (i < n)%N -> (c < n)%N ->
          mget (lu_mat st') i c = mget (lu_mat st) i c].
Proof.
move=> _ E B.
have [st' E' [[permE parE matE] ordE]] := sorted_upto E (leqnn n) E.
exists st' => //; split=> // i c lt_i lt_c.
by rewrite matE // subnn.
Qed.

End SortedRows.

Section Frame.

Variable F : realFieldType.
Implicit Types (A m : matrix F) (x y z b sc : seq F) (i j k t c a : nat).
Implicit Types (st : lu_state F) (p : seq nat).

Lemma crout_column_frame n st j st' :
  (j < n)%N -> crout_column n st j = Ok st' ->
  forall a c, (n <= a)%N || (n <= c)%N ->
    mget (lu_mat st') a c = mget (lu_mat st) a c.
Proof.
move=> lt_j Hcol a c out; have [_ -> _ _ _] := crout_columnE Hcol.
have [/andP[le_pr lt_pr] _ _ _ _] := pivot_facts st lt_j.
rewrite /pivot_matrix /pivot_row_of pivot_searchE.
have := pivot_loopP (upper_column (lu_mat st) j) (lu_scaling st) j (n - j).
rewrite /pivot_row_of pivot_searchE in le_pr lt_pr *.
case: pivot_loop le_pr lt_pr => [[m2 pv] pr] /= le_pr lt_pr [frame _ _ _ _].
have ne_cj : (n <= a)%N || (c != j).
  case/orP: out => [->|le_c] //.
  by rewrite (gtn_eqF (leq_trans lt_j le_c)) orbT.
have c1 : (c != j) || (j <= a)%N.
  case/orP: ne_cj => [le_a|->] //.
  by rewrite (leq_trans (ltnW lt_j) le_a) orbT.
have c2 : [|| c != j, (a < j)%N | (j + (n - j) <= a)%N].
  case/orP: ne_cj => [le_a|->] //.
  by rewrite subnKC ?le_a ?orbT // ltnW.
have m2E : mget m2 a c = mget (lu_mat st) a c.
  by rewrite (frame _ _ c2) (upper_column_frame _ c1).
have div_out a' c' m' : (n <= a')%N || (n <= c')%N ->
    mget (divide_lower m' n j) a' c' = mget m' a' c'.
  move=> out'; rewrite mget_divide_lower; case: ifP => // /andP[/eqP eq_c].
  case/andP=> _ lt_a'; move: out'; rewrite eq_c leqNgt lt_a' /=.
  by rewrite leqNgt lt_j.
rewrite div_out //; case: ifP => // _; rewrite mget_swap_rows.
case: ltnP => // lt_c; move: out; rewrite [(n <= c)%N]leqNgt lt_c orbF => le_a.
by rewrite !gtn_eqF // ?(leq_trans lt_j) ?(leq_trans lt_pr).
Qed.

Lemma backward_frame A x n a :
  (0 < n)%N -> (n <= a)%N -> nth 0 (backwardSubstitution A x n) a = nth 0 x a.
Proof.
move=> n_gt0 le_a; rewrite /backwardSubstitution.
set x0 := set_nth 0 x _ _.
have inv0 : bs_inv A n x x0 (n - 1).
  move=> a'; rewrite /x0 nth_set_nth /= subn1.
  have [->|ne_a'] := eqVneq a' n.-1.
    by rewrite leqnn prednK // leqnn /= big_geq ?subr0 // prednK.
  case: ifP => // /andP[le_a' lt_a'].
  by move: ne_a'; rewrite eqn_leq le_a' -ltnS prednK // lt_a'.
by have := bwd_loop (leq_subr 1 n) inv0 a; rewrite ltnNge le_a andbF.
Qed.

Lemma forward_frame A x n a :
  (0 < n)%N -> (n <= a)%N -> nth 0 (forwardSubstitution A x n) a = nth 0 x a.
Proof.
move=> n_gt0 le_a; rewrite /forwardSubstitution forward_rows.
by rewrite leqNgt subn1 (leq_trans _ le_a) // prednK.
Qed.

(** X15: [LUDecomp] and [LUsolveSystem] work inside the leading [n] rows and
    columns of the matrix and the first [n] entries of the vector: what the
    containers hold beyond is left as it was. *)
Theorem LUsolveSystem_frame A n b :
  covers n A -> (n <= size b)%N -> (0 < n)%N ->
  (forall st, LUDecomp A n = Ok st ->
     forall a c, (n <= a)%N || (n <= c)%N ->
       mget (lu_mat st) a c = mget A a c) /\
  (forall m x, LUsolveSystem A n b = Ok (m, x) ->
     forall k, (n <= k)%N -> nth 0 x k = nth 0 b k).
Proof.
move=> _ _ n_gt0.
have frameA st : LUDecomp A n = Ok st ->
    forall a c, (n <= a)%N || (n <= c)%N -> mget (lu_mat st) a c = mget A a c.
  pose Q (j : nat) st :=
    forall a c, (n <= a)%N || (n <= c)%N -> mget (lu_mat st) a c = mget A a c.
  apply: (@crout_upto_ind _ A n Q) (leqnn n) => [st0 E0 a c _|j st1 st2].
    by have := lu_initP A n; rewrite E0 => -[_ ->].
  move=> lt_j _ Q1 Hcol a c out.
  by rewrite (crout_column_frame lt_j Hcol) ?Q1.
split=> // m x; rewrite /LUsolveSystem.
case E: (LUDecomp A n) => [st|] // [_ <-] k le_k.
by rewrite backward_frame // forward_frame // permute_rhs_frame.
Qed.

End Frame.

Section RowOrderContents.

Variable F : realFieldType.
Implicit Types (A : matrix F) (st : lu_state F).


End RowOrderContents.

(** ** Runs of the further properties *)

Section FurtherWitnesses.


(** The determinant of [A_swap] through its decomposition: no parity, and
    the diagonal 3, 2. *)
Lemma A_swap_determinant :
  ~~ lu_parity st_swap &&
  ([seq mget (lu_mat st_swap) i i | i <- iota 0 2] == [:: q 3; q 2]).
Proof. by vm_compute. Qed.


(** On [A_upper] and the right-hand side 2, 7 the permutation step leaves
    2, 2, and [LUsolveSystem] returns 2/3, 2/3. *)
Lemma LUDecomp_upper_triangular_run :
  ([seq nth 0 b_swap i.-1 | i <- iota 0 2] == [:: q 2; q 2]) &&
  ((get_ok ([::], [::]) (LUsolveSystem A_upper 2 b_swap)).2
   == [:: q 2 / q 3; q 2 / q 3]).
Proof. by vm_compute. Qed.



(** On [A_upper] and the right-hand side 2, 7 the backward substitution
    gives -1/6, 7/3. *)
Lemma backwardSubstitution_run :
  backwardSubstitution A_upper b_swap 2 == [:: - (q 1 / q 6); q 7 / q 3].
Proof. by vm_compute. Qed.

Lemma substitution_reads_triangle_witness :
  [/\ square 2 A_swap, square 2 A_swap_lower, size b_swap = 2 & (0 < 2)%N]
  /\ forwardSubstitution A_swap b_swap 2
     = forwardSubstitution A_swap_lower b_swap 2.
Proof.
split; first by [].
have [fwd _] := @substitution_reads_triangle _ A_swap A_swap_lower b_swap 2
                  isT isT (erefl _) isT.
by apply: fwd => -[|[|i]] [|[|j]].
Defined.

Lemma substitution_reads_upper_triangle :
  backwardSubstitution A_swap b_swap 2
  == backwardSubstitution A_swap_upper b_swap 2.
Proof. by vm_compute. Qed.

Lemma LUsolveSystem_vec_componentwise_witness :
  [/\ square 2 A_swap, (0 < 2)%N, size rhs_vec = 2,
      all (fun v => size v == 2) rhs_vec & (1 < 2)%N]
  /\ match LUsolveSystem_vec A_swap 2 rhs_vec with
     | Ok (m, x') =>
         [/\ LUsolveSystem A_swap 2 (component 1 rhs_vec)
             = Ok (m, component 1 x'),
             size x' = 2 & all (fun v => size v == 2) x']
     | Err e => LUsolveSystem A_swap 2 (component 1 rhs_vec) = Err e
     end.
Proof.
split; first by [].
exact (@LUsolveSystem_vec_componentwise _ A_swap 2 rhs_vec 2 1 isT isT
         (erefl _) isT isT).
Defined.

(** [A_swap] with the two vectors (2, 4) and (7, 11): what is returned on
    the array of vectors is, component by component, what is returned on
    the arrays of numbers (2, 7) and (4, 11). *)
Lemma LUsolveSystem_vec_run :
  [&& (get_ok ([::], [::]) (LUsolveSystem_vec A_swap 2 rhs_vec)).2
      == [:: [:: - q 2 / q 3; - q 4 / q 3]; [:: q 1; q 2]],
      (get_ok ([::], [::]) (LUsolveSystem A_swap 2 [:: q 2; q 7])).2
      == [:: - q 2 / q 3; q 1]
    & (get_ok ([::], [::]) (LUsolveSystem A_swap 2 [:: q 4; q 11])).2
      == [:: - q 4 / q 3; q 2]].
Proof. by vm_compute. Qed.

Lemma matrixProduct_frame_witness :
  [/\ csr_wf cg_example, size [:: q 1; q 1] = nn_ cg_example
    & (nn_ cg_example <= size [:: q 9; q 9; q 9])%N]
  /\ (size (matrixProduct cg_example [:: q 1; q 1] [:: q 9; q 9; q 9])
      = size [:: q 9; q 9; q 9] /\
      forall k, (nn_ cg_example <= k)%N ->
        nth 0 (matrixProduct cg_example [:: q 1; q 1] [:: q 9; q 9; q 9]) k
        = nth 0 [:: q 9; q 9; q 9] k).
Proof.
split; first by [].
exact: (@matrixProduct_frame _ cg_example [:: q 1; q 1] [:: q 9; q 9; q 9]
          isT (erefl _) isT).
Defined.

Lemma substitution_vec_dimension_witness :
  [/\ square 2 A_swap, size rhs_ragged = 2, (0 < 2)%N,
      all (fun v => size (nth [::] rhs_ragged 0) <= size v)%N rhs_ragged
    & (size (nth [::] rhs_ragged 0) <= 2)%N]
  /\ (component 2 (forwardSubstitution_vec A_swap rhs_ragged 2)
      = component 2 rhs_ragged /\
      component 2 (backwardSubstitution_vec A_swap rhs_ragged 2)
      = component 2 rhs_ragged).
Proof.
split; first by [].
exact: (@substitution_vec_dimension _ A_swap rhs_ragged 2 2 isT (erefl _)
          isT isT isT).
Defined.

Lemma LUDecomp_sorted_rows_witness :
  (square 2 A_swap /\ LUDecomp A_swap 2 = Ok st_swap)
  /\ let B := permute_matrix (row_order A_swap 2 2) A_swap 2 in
     exists2 st', LUDecomp B 2 = Ok st' &
       [/\ row_order B 2 2 = iota 0 2, lu_perm st' = fill_perm 2,
           lu_parity st' = true
         & forall i c, (i < 2)%N -> (c < 2)%N ->
             mget (lu_mat st') i c = mget (lu_mat st_swap) i c].
Proof.
split; first by split; [ | exact: A_swap_decomposes].
exact (@LUDecomp_sorted_rows _ A_swap 2 st_swap isT A_swap_decomposes).
Defined.

(** The rows of [A_swap] in the order 1, 0 are [[3 4] [0 2]]; their
    decomposition exchanges nothing. *)
Lemma LUDecomp_sorted_rows_run :
  let B := permute_matrix (row_order A_swap 2 2) A_swap 2 in
  let st := get_ok lu_state0 (LUDecomp B 2) in
  [&& B == [:: [:: q 3; q 4]; [:: q 0; q 2]], row_order B 2 2 == [:: 0; 1]%N,
      lu_parity st & lu_mat st == lu_mat st_swap].
Proof. by vm_compute. Qed.

Lemma LUsolveSystem_row_order_witness :
  [/\ square 2 A_swap, size b_swap = 2, (0 < 2)%N
     & LUDecomp A_swap 2 = Ok st_swap]
  /\ let b' := (permute_rhs (lu_perm st_swap) b_swap 2).1 in
     exists2 x, LUsolveSystem A_swap 2 b_swap = Ok (lu_mat st_swap, x) &
       size x = 2 /\
       forall i, (i < 2)%N ->
         \sum_(0 <= j < 2)
            mget A_swap (nth 0%N (row_order A_swap 2 2) i) j * nth 0 x j
         = nth 0 b' i.
Proof.
split; first by split; [ | | | exact: A_swap_decomposes].
exact (@LUsolveSystem_row_order _ A_swap 2 b_swap st_swap isT (erefl _) isT
         A_swap_decomposes).
Defined.

(** On [A_swap] and the right-hand side 2, 7 the permutation step leaves
    2, 2 and [LUsolveSystem] returns -2/3, 1, the solution of
    [3 x + 4 y = 2], [2 y = 2]. *)
Lemma LUsolveSystem_row_order_run :
  ((permute_rhs (lu_perm st_swap) b_swap 2).1 == [:: q 2; q 2]) &&
  ((get_ok ([::], [::]) (LUsolveSystem A_swap 2 b_swap)).2
   == [:: - q 2 / q 3; q 1]).
Proof. by vm_compute. Qed.


Lemma LUsolveSystem_frame_witness :
  [/\ covers 2 A_wide, (2 <= size b_wide)%N & (0 < 2)%N]
  /\ ((forall st, LUDecomp A_wide 2 = Ok st ->
        forall a c, (2 <= a)%N || (2 <= c)%N ->
          mget (lu_mat st) a c = mget A_wide a c) /\
      (forall m x, LUsolveSystem A_wide 2 b_wide = Ok (m, x) ->
         forall k, (2 <= k)%N -> nth 0 x k = nth 0 b_wide k)).
Proof.
split; first by [].
exact (@LUsolveSystem_frame _ A_wide 2 b_wide isT isT isT).
Defined.

(** [A_swap] inside [A_wide]: the exchange of the first two rows stops at
    the second column, and the third entry of the vector stays. *)
Lemma LUsolveSystem_frame_run :
  get_ok ([::], [::]) (LUsolveSystem A_wide 2 b_wide)
  == ([:: [:: q 3; q 4; q 5]; [:: q 0; q 2; q 6]; [:: q 7; q 8; q 9]],
      [:: - q 2 / q 3; q 1; q 5]).
Proof. by vm_compute. Qed.

End FurtherWitnesses.
